(** * Suffix sorting and suffix search of wharf's bsdiff package

    A shallow embedding of [bsdiff/math.go]: the ternary-split quicksort
    [split], the Larsson-Sadakane suffix sorter [qsufsort], the common
    prefix length [matchlen] and the binary search [search], each with its
    64-bit twin, followed by the properties of the specification.

    Conventions of the embedding.
    - An [int32] or [int64] is a [Z]; every arithmetic operation of the
      source is followed by the wrap-around of its width ([wrap]).
    - A slice is a list; an index expression out of range panics, which
      the result type [res] records.
    - [split] receives its three slices by reference ([vref] into a
      [store]), because the sequential sorter passes the same slice [V]
      twice.
    - Loops run on fuel: [Timeout] tells that the fuel was too small, and
      the theorems give a fuel that is enough. *)

From Stdlib Require Import ZArith List Lia Bool Permutation.
From Stdlib Require Import Strings.Byte.
Import ListNotations.
Open Scope Z_scope.

(** ** Results of a computation that may panic *)

Inductive res (A : Type) : Type :=
| Ok (a : A)
| Panic
| Timeout
| Deadlock.

Arguments Ok {A} a.
Arguments Panic {A}.
Arguments Timeout {A}.
Arguments Deadlock {A}.

Definition bind {A B : Type} (m : res A) (f : A -> res B) : res B :=
  match m with
  | Ok a => f a
  | Panic => Panic
  | Timeout => Timeout
  | Deadlock => Deadlock
  end.

Notation "x <- m ;; k" := (bind m (fun x => k))
  (at level 61, m at next level, right associativity).
Notation "' p <- m ;; k" := (bind m (fun p => k))
  (at level 61, p pattern, m at next level, right associativity).

(** [while fuel cond body s] is the Go loop [for cond { body }]. *)
Fixpoint while {S : Type} (fuel : nat) (cond : S -> res bool)
    (body : S -> res S) (s : S) : res S :=
  match fuel with
  | O => Timeout
  | Datatypes.S fuel' =>
      c <- cond s ;;
      if c then s' <- body s ;; while fuel' cond body s' else Ok s
  end.

(** ** Machine integers *)

(** Two's complement wrap-around of a [w]-bit signed integer. *)
Definition wrap (w : Z) (z : Z) : Z :=
  (z + 2 ^ (w - 1)) mod 2 ^ w - 2 ^ (w - 1).

(** ** Slices *)

Definition len {A : Type} (l : list A) : Z := Z.of_nat (length l).

(** [a[i]] as an expression. *)
Definition get {A : Type} (a : list A) (i : Z) : res A :=
  if i <? 0 then Panic
  else match nth_error a (Z.to_nat i) with
       | Some v => Ok v
       | None => Panic
       end.

Fixpoint upd {A : Type} (a : list A) (i : nat) (v : A) : list A :=
  match a, i with
  | [], _ => []
  | _ :: a', O => v :: a'
  | x :: a', S i' => x :: upd a' i' v
  end.

(** [a[i] = v] as a statement. *)
Definition set {A : Type} (a : list A) (i : Z) (v : A) : res (list A) :=
  if (0 <=? i) && (i <? len a) then Ok (upd a (Z.to_nat i) v) else Panic.

(** [make([]T, n)]: a negative length panics. *)
Definition make (n : Z) : res (list Z) :=
  if n <? 0 then Panic else Ok (repeat 0 (Z.to_nat n)).

(** [a[p:]] as an expression. *)
Definition slice_from {A : Type} (a : list A) (p : Z) : res (list A) :=
  if (0 <=? p) && (p <=? len a) then Ok (skipn (Z.to_nat p) a) else Panic.

Definition byteZ (c : byte) : Z := Z.of_N (Byte.to_N c).

(** ** The arrays of a sort *)

Record store : Type := mkStore {
  arrI : list Z;
  arrV : list Z;
  arrV2 : list Z
}.

(** The slice a parameter [V] or [V2] of [split] refers to. *)
Inductive vref : Type := RefV | RefV2.

Definition vref_eqb (a b : vref) : bool :=
  match a, b with
  | RefV, RefV => true
  | RefV2, RefV2 => true
  | _, _ => false
  end.

Definition rd (r : vref) (s : store) : list Z :=
  match r with RefV => arrV s | RefV2 => arrV2 s end.

Definition wr (r : vref) (s : store) (a : list Z) : store :=
  match r with
  | RefV => mkStore (arrI s) a (arrV2 s)
  | RefV2 => mkStore (arrI s) (arrV s) a
  end.

Definition withI (s : store) (a : list Z) : store :=
  mkStore a (arrV s) (arrV2 s).

Definition getI (s : store) (i : Z) : res Z := get (arrI s) i.

Definition setI (s : store) (i v : Z) : res store :=
  a <- set (arrI s) i v ;; Ok (withI s a).

Definition getV (r : vref) (s : store) (i : Z) : res Z := get (rd r s) i.

Definition setV (r : vref) (s : store) (i v : Z) : res store :=
  a <- set (rd r s) i v ;; Ok (wr r s a).

(** [I[a], I[b] = I[b], I[a]]: both operands are read, then [I[a]] and
    [I[b]] are assigned in this order. *)
Definition swapI (s : store) (a b : Z) : res store :=
  x <- getI s b ;;
  y <- getI s a ;;
  s1 <- setI s a x ;;
  setI s1 b y.

Record mark : Type := mkMark { index : Z; value : Z }.

Record sortTask : Type := mkTask { start : Z; length_ : Z; h_ : Z }.

Section Width.

(** The width of an index: 32 for [split], [qsufsort], [matchlen] and
    [search], 64 for [split64], [qsufsort64], [matchlen64] and [search64].
    The two families are the same text up to the integer type. *)
Variable w : Z.

Definition wadd (a b : Z) : Z := wrap w (a + b).
Definition wsub (a b : Z) : Z := wrap w (a - b).
Definition wneg (a : Z) : Z := wrap w (- a).
Definition wquot (a b : Z) : Z := wrap w (Z.quot a b).

(** The key of the suffix in slot [i]: [V[I[i]+h]]. *)
Definition key (v : vref) (h : Z) (s : store) (i : Z) : res Z :=
  p <- getI s i ;; getV v s (wadd p h).

(** *** split *)

(** The scan of one selection-sort round: [for i = 1; k+i < start+length; i++]. *)
Definition sel_scan (fuel : nat) (v : vref) (start length h k : Z)
    (st : Z * Z * Z * store) : res (Z * Z * Z * store) :=
  while fuel
    (fun '(i, j, x, s) => Ok (wadd k i <? wadd start length))
    (fun '(i, j, x, s) =>
       c1 <- key v h s (wadd k i) ;;
       '(x, j) <- (if c1 <? x
                   then x' <- key v h s (wadd k i) ;; Ok (x', 0)
                   else Ok (x, j)) ;;
       c2 <- key v h s (wadd k i) ;;
       '(j, s) <- (if c2 =? x
                   then s' <- swapI s (wadd k i) (wadd k j) ;; Ok (wadd j 1, s')
                   else Ok (j, s)) ;;
       Ok (wadd i 1, j, x, s))
    st.

(** [for i = 0; i < cnt; i++ { V2[I[base+i]] = g }]. *)
Definition commit (fuel : nat) (v2 : vref) (base cnt g : Z) (s : store)
    : res store :=
  '(_, s) <- while fuel
    (fun '(i, s) => Ok (i <? cnt))
    (fun '(i, s) =>
       p <- getI s (wadd base i) ;;
       s' <- setV v2 s p g ;;
       Ok (wadd i 1, s'))
    (0, s) ;;
  Ok s.

(** The branch [length < 16] of [split]. *)
Definition sel_sort (fuel : nat) (v v2 : vref) (start length h : Z)
    (s : store) : res store :=
  '(_, s) <- while fuel
    (fun '(k, s) => Ok (k <? wadd start length))
    (fun '(k, s) =>
       x <- key v h s k ;;
       '(_, j, _, s) <- sel_scan fuel v start length h k (1, 1, x, s) ;;
       s <- commit fuel v2 k j (wsub (wadd k j) 1) s ;;
       s <- (if j =? 1 then setI s k (-1) else Ok s) ;;
       Ok (wadd k j, s))
    (start, s) ;;
  Ok s.

(** The first scan of the partition: the sizes of the [<] and [=] buckets. *)
Definition count_lt_eq (fuel : nat) (v : vref) (start length h x : Z)
    (s : store) : res (Z * Z) :=
  '(_, jj, kk) <- while fuel
    (fun '(i, jj, kk) => Ok (i <? wadd start length))
    (fun '(i, jj, kk) =>
       c1 <- key v h s i ;;
       let jj := if c1 <? x then wadd jj 1 else jj in
       c2 <- key v h s i ;;
       let kk := if c2 =? x then wadd kk 1 else kk in
       Ok (wadd i 1, jj, kk))
    (start, 0, 0) ;;
  Ok (jj, kk).

(** [for i < jj { ... }]: fills the [<] bucket. *)
Definition walk_lt (fuel : nat) (v : vref) (h x jj kk : Z)
    (st : Z * Z * Z * store) : res (Z * Z * Z * store) :=
  while fuel
    (fun '(i, j, k, s) => Ok (i <? jj))
    (fun '(i, j, k, s) =>
       c1 <- key v h s i ;;
       if c1 <? x then Ok (wadd i 1, j, k, s)
       else
         c2 <- key v h s i ;;
         if c2 =? x
         then s' <- swapI s i (wadd jj j) ;; Ok (i, wadd j 1, k, s')
         else s' <- swapI s i (wadd kk k) ;; Ok (i, j, wadd k 1, s'))
    st.

(** [for jj+j < kk { ... }]: fills the [=] bucket. *)
Definition walk_eq (fuel : nat) (v : vref) (h x jj kk : Z)
    (st : Z * Z * store) : res (Z * Z * store) :=
  while fuel
    (fun '(j, k, s) => Ok (wadd jj j <? kk))
    (fun '(j, k, s) =>
       c <- key v h s (wadd jj j) ;;
       if c =? x then Ok (wadd j 1, k, s)
       else s' <- swapI s (wadd jj j) (wadd kk k) ;; Ok (j, wadd k 1, s'))
    st.

Fixpoint split (fuel : nat) (v v2 : vref) (start length h : Z) (s : store)
    : res store :=
  match fuel with
  | O => Timeout
  | S fuel' =>
      if length <? 16 then sel_sort fuel' v v2 start length h s
      else
        x <- key v h s (wadd start (wquot length 2)) ;;
        '(jj, kk) <- count_lt_eq fuel' v start length h x s ;;
        let jj := wadd jj start in
        let kk := wadd kk jj in
        '(_, j, k, s) <- walk_lt fuel' v h x jj kk (start, 0, 0, s) ;;
        '(_, _, s) <- walk_eq fuel' v h x jj kk (j, k, s) ;;
        s <- (if jj >? start
              then split fuel' v v2 start (wsub jj start) h s
              else Ok s) ;;
        s <- commit fuel' v2 jj (wsub kk jj) (wsub kk 1) s ;;
        s <- (if jj =? wsub kk 1 then setI s jj (-1) else Ok s) ;;
        if wadd start length >? kk
        then split fuel' v v2 kk (wsub (wadd start length) kk) h s
        else Ok s
  end.

(** *** qsufsort *)

(** The bucket array [var buckets [256]int32]; a byte is always a valid
    index, so these accesses cannot panic. *)
Definition bget (bk : list Z) (c : Z) : Z := nth (Z.to_nat c) bk 0.
Definition bset (bk : list Z) (c v : Z) : list Z := upd bk (Z.to_nat c) v.
Definition binc (bk : list Z) (c : byte) : list Z :=
  bset bk (byteZ c) (wadd (bget bk (byteZ c)) 1).

(** [for _, c := range obuf { buckets[c]++ }] *)
Definition count_bytes (obuf : list byte) (bk : list Z) : list Z :=
  fold_left binc obuf bk.

(** The indices of [for i = 1; i < 256; i++]. *)
Definition bucket_range : list Z := map Z.of_nat (seq 1 255).

(** [for i = 1; i < 256; i++ { buckets[i] += buckets[i-1] }] *)
Definition prefix_sums (bk : list Z) : list Z :=
  fold_left (fun bk i => bset bk i (wadd (bget bk i) (bget bk (i - 1))))
    bucket_range bk.

(** [copy(dst, src)], which moves [min(len(dst), len(src))] elements as
    if through a temporary. *)
Definition copy (dst src : list Z) : list Z :=
  firstn (length dst) src ++ skipn (length src) dst.

(** [copy(buckets[1:], buckets[:])] then [buckets[0] = 0]. *)
Definition shift_buckets (bk : list Z) : list Z :=
  bset (firstn 1 bk ++ copy (skipn 1 bk) bk) 0 0.

(** [for i, c := range obuf { buckets[c]++; I[buckets[c]] = int32(i) }] *)
Fixpoint fill_I (obuf : list byte) (i : Z) (bk I : list Z)
    : res (list Z * list Z) :=
  match obuf with
  | [] => Ok (bk, I)
  | c :: rest =>
      let bk := binc bk c in
      I <- set I (bget bk (byteZ c)) (wrap w i) ;;
      fill_I rest (i + 1) bk I
  end.

(** [for i, c := range obuf { V[i] = buckets[c] }] *)
Fixpoint fill_V (obuf : list byte) (i : Z) (bk V : list Z) : res (list Z) :=
  match obuf with
  | [] => Ok V
  | c :: rest =>
      V <- set V i (bget bk (byteZ c)) ;;
      fill_V rest (i + 1) bk V
  end.

(** [for i = 1; i < 256; i++ { if buckets[i] == buckets[i-1]+1 { I[buckets[i]] = -1 } }] *)
Fixpoint mark_singles (idx : list Z) (bk I : list Z) : res (list Z) :=
  match idx with
  | [] => Ok I
  | i :: rest =>
      I <- (if bget bk i =? wadd (bget bk (i - 1)) 1
            then set I (bget bk i) (-1) else Ok I) ;;
      mark_singles rest bk I
  end.

(** The arrays [I] and [V] before the first pass. *)
Definition init (obuf : list byte) : res (list Z * list Z) :=
  let obuflen := wrap w (len obuf) in
  I <- make (wadd obuflen 1) ;;
  V <- make (wadd obuflen 1) ;;
  let bk := repeat 0 256%nat in
  let bk := count_bytes obuf bk in
  let bk := prefix_sums bk in
  let bk := shift_buckets bk in
  '(bk, I1) <- fill_I obuf 0 bk I ;;
  I <- set I1 0 obuflen ;;
  V <- fill_V obuf 0 bk V ;;
  V <- set V obuflen 0 ;;
  I <- mark_singles bucket_range bk I ;;
  I <- set I 0 (-1) ;;
  Ok (I, V).

(** The worker pool.  A task sent on the channel is run by some worker at
    a moment the driver does not control.  A task reads and writes only
    its own slots of [I], writes only the [V2] slots of the suffixes in
    them and reads [V], which nobody writes during a pass; the model runs
    a task in one piece, at a moment a schedule chooses: [sched h i] lists
    the queued tasks (by their position in the queue) that complete just
    before the driver looks at [I[i]] in the pass of order [h], and
    [sched h (obuflen+1)] those that complete first when the driver waits
    for the workers. *)
Variable sched : Z -> Z -> list nat.

Fixpoint remove_nth {A : Type} (k : nat) (l : list A) : list A :=
  match l, k with
  | [], _ => []
  | _ :: l', O => l'
  | x :: l', S k' => x :: remove_nth k' l'
  end.

Definition run_task (fuel : nat) (t : sortTask) (s : store) : res store :=
  split fuel RefV RefV2 (start t) (length_ t) (h_ t) s.

Fixpoint run_picks (fuel : nat) (picks : list nat) (tasks : list sortTask)
    (s : store) : res (list sortTask * store) :=
  match picks with
  | [] => Ok (tasks, s)
  | k :: picks' =>
      match nth_error tasks k with
      | None => run_picks fuel picks' tasks s
      | Some t =>
          s' <- run_task fuel t s ;;
          run_picks fuel picks' (remove_nth k tasks) s'
      end
  end.

(** [close(tasks)] and the wait for every worker: the queue drains. *)
Fixpoint drain (fuel : nat) (tasks : list sortTask) (s : store) : res store :=
  match tasks with
  | [] => Ok s
  | t :: tasks' => s' <- run_task fuel t s ;; drain fuel tasks' s'
  end.

(** [for _, mark := range marks { I[mark.index] = mark.value }] *)
Fixpoint apply_marks (marks : list mark) (s : store) : res store :=
  match marks with
  | [] => Ok s
  | m :: marks' => s' <- setI s (index m) (value m) ;; apply_marks marks' s'
  end.

Record sweep : Type := mkSweep {
  sw_i : Z;
  sw_n : Z;
  sw_marks : list mark;
  sw_tasks : list sortTask;
  sw_store : store
}.

(** One turn of [for i = 0; i < obuflen+1; { ... }].  The progress report
    (a float division and a call of the consumer) touches no array and is
    left out, and so is the counter [nTotal], which is never read. *)
Definition sweep_step (fuel : nat) (parallel : bool) (numWorkers h : Z)
    (st : sweep) : res sweep :=
  let i := sw_i st in
  let n := sw_n st in
  '(tasks, s) <- run_picks fuel (sched h i) (sw_tasks st) (sw_store st) ;;
  Ii <- getI s i ;;
  if Ii <? 0 then
    Ii' <- getI s i ;;
    let n := wsub n Ii in
    Ok (mkSweep (wsub i Ii') n (sw_marks st) tasks s)
  else
    '(marks, s) <-
      (if n =? 0 then Ok (sw_marks st, s)
       else if parallel
            then Ok (sw_marks st ++ [mkMark (wsub i n) (wneg n)], s)
            else s' <- setI s (wsub i n) (wneg n) ;; Ok (sw_marks st, s')) ;;
    p <- getI s i ;;
    g <- getV RefV s p ;;
    let n := wsub (wadd g 1) i in
    '(tasks, s) <-
      (if parallel && (n >? 128)
       then if numWorkers <? 1 then Deadlock
            else Ok (tasks ++ [mkTask i n h], s)
       else if parallel
            then s' <- split fuel RefV RefV2 i n h s ;; Ok (tasks, s')
            else s' <- split fuel RefV RefV i n h s ;; Ok (tasks, s')) ;;
    Ok (mkSweep (wadd i n) 0 marks tasks s).

(** The body of [for h = 1; I[0] != -(obuflen + 1); h += h]. *)
Definition pass (fuel : nat) (parallel : bool) (numWorkers taskBufferSize : Z)
    (obuflen h : Z) (s : store) : res store :=
  (* make(chan sortTask, taskBufferSize) *)
  _ <- (if taskBufferSize <? 0 then Panic else Ok tt) ;;
  st <- while fuel
          (fun st => Ok (sw_i st <? wadd obuflen 1))
          (sweep_step fuel parallel numWorkers h)
          (mkSweep 0 0 [] [] s) ;;
  s <- (if parallel
        then '(tasks, s) <- run_picks fuel (sched h (wadd obuflen 1))
                              (sw_tasks st) (sw_store st) ;;
             s <- drain fuel tasks s ;;
             apply_marks (sw_marks st) s
        else Ok (sw_store st)) ;;
  s <- (if sw_n st =? 0 then Ok s
        else setI s (wsub (sw_i st) (sw_n st)) (wneg (sw_n st))) ;;
  if parallel then Ok (wr RefV s (copy (arrV s) (arrV2 s))) else Ok s.

(** The doubling loop; it returns the last [h] with the arrays. *)
Definition passes (fuel : nat) (parallel : bool) (numWorkers taskBufferSize : Z)
    (obuflen : Z) (s : store) : res (Z * store) :=
  while fuel
    (fun '(h, s) =>
       I0 <- getI s 0 ;; Ok (negb (I0 =? wneg (wadd obuflen 1))))
    (fun '(h, s) =>
       s' <- pass fuel parallel numWorkers taskBufferSize obuflen h s ;;
       Ok (wadd h h, s'))
    (1, s).

(** [for i = 0; i < obuflen+1; i++ { I[V[i]] = i }] *)
Definition invert (fuel : nat) (obuflen : Z) (s : store) : res store :=
  '(_, s) <- while fuel
    (fun '(i, s) => Ok (i <? wadd obuflen 1))
    (fun '(i, s) =>
       g <- getV RefV s i ;;
       s' <- setI s g i ;;
       Ok (wadd i 1, s'))
    (0, s) ;;
  Ok s.

(** The width of Go's [int] on the 64-bit targets. *)
Definition int_bits : Z := 64.

(** [qsufsort obuf ctx consumer], with [conc] for
    [ctx.SuffixSortConcurrency] and [ncpu] for [runtime.NumCPU()].  The
    consumer only receives debug and progress messages. *)
Definition qsufsort_gen (fuel : nat) (conc ncpu : Z) (obuf : list byte)
    : res (list Z) :=
  let parallel := negb (conc =? 0) in
  let numWorkers := if conc <? 1 then wrap int_bits (conc + ncpu) else conc in
  let obuflen := wrap w (len obuf) in
  '(I0, V) <- init obuf ;;
  let V2 := if parallel then V else [] in
  let taskBufferSize := wrap int_bits (numWorkers * 4) in
  '(_, s) <- passes fuel parallel numWorkers taskBufferSize obuflen
               (mkStore I0 V V2) ;;
  s <- invert fuel obuflen s ;;
  Ok (arrI s).

(** *** matchlen and search *)

Definition matchlen_gen (fuel : nat) (a b : list byte) : res Z :=
  let alen := wrap w (len a) in
  let blen := wrap w (len b) in
  while fuel
    (fun i =>
       if negb (i <? alen) then Ok false
       else if negb (i <? blen) then Ok false
       else x <- get a i ;; y <- get b i ;; Ok (Byte.eqb x y))
    (fun i => Ok (wadd i 1))
    0.

(** [bytes.Compare] of Go's standard library: -1, 0 or 1 as [a] is
    lexicographically less than, equal to or greater than [b]. *)
Fixpoint bytes_compare (a b : list byte) : Z :=
  match a, b with
  | [], [] => 0
  | [], _ :: _ => -1
  | _ :: _, [] => 1
  | x :: a', y :: b' =>
      if byteZ x <? byteZ y then -1
      else if byteZ y <? byteZ x then 1
      else bytes_compare a' b'
  end.

Fixpoint search_gen (fuel : nat) (I : list Z) (obuf nbuf : list byte)
    (st en : Z) : res (Z * Z) :=
  match fuel with
  | O => Timeout
  | S fuel' =>
      if wsub en st <? 2 then
        Ist <- get I st ;;
        sa <- slice_from obuf Ist ;;
        x <- matchlen_gen fuel' sa nbuf ;;
        Ien <- get I en ;;
        sb <- slice_from obuf Ien ;;
        y <- matchlen_gen fuel' sb nbuf ;;
        if x >? y then Ist' <- get I st ;; Ok (Ist', x)
        else Ien' <- get I en ;; Ok (Ien', y)
      else
        let x := wadd st (wquot (wsub en st) 2) in
        Ix <- get I x ;;
        sx <- slice_from obuf Ix ;;
        if bytes_compare sx nbuf <? 0
        then search_gen fuel' I obuf nbuf x en
        else search_gen fuel' I obuf nbuf st x
  end.

End Width.

(** ** The two index widths *)

Definition qsufsort := qsufsort_gen 32.
Definition qsufsort64 := qsufsort_gen 64.
Definition matchlen := matchlen_gen 32.
Definition matchlen64 := matchlen_gen 64.
Definition search := search_gen 32.
Definition search64 := search_gen 64.


(** ** Specification-level notions *)

(** The value of [a[i]] when [i] is in range. *)
Definition idx (a : list Z) (i : Z) : Z := nth (Z.to_nat i) a 0.

Notation "a .[ i ]" := (idx a i) (at level 1, left associativity,
  format "a .[ i ]").

Definition updZ (a : list Z) (i v : Z) : list Z := upd a (Z.to_nat i) v.

(** Strict lexicographic order of byte strings; a proper prefix is less. *)
Inductive lex_lt : list byte -> list byte -> Prop :=
| lex_lt_nil : forall y b, lex_lt [] (y :: b)
| lex_lt_head : forall x a y b, byteZ x < byteZ y -> lex_lt (x :: a) (y :: b)
| lex_lt_tail : forall x a b, lex_lt a b -> lex_lt (x :: a) (x :: b).

Definition lex_le (a b : list byte) : Prop := a = b \/ lex_lt a b.

(** The length of the longest common prefix. *)
Fixpoint lcp (a b : list byte) : nat :=
  match a, b with
  | x :: a', y :: b' => if Byte.eqb x y then S (lcp a' b') else O
  | _, _ => O
  end.

(** The suffix of [b] that starts at [p]. *)
Definition suffix (b : list byte) (p : Z) : list byte := skipn (Z.to_nat p) b.


(** An index array over a buffer of length [n]: [n+1] entries, each the
    start of a suffix. *)
Definition index_array (n : Z) (I : list Z) : Prop :=
  len I = n + 1 /\ forall i, 0 <= i <= n -> 0 <= I.[i] <= n.

(** The law of the common prefix length, as the specification words it. *)
Definition matchlen_law (a b : list byte) (k : Z) : Prop :=
  0 <= k /\
  firstn (Z.to_nat k) a = firstn (Z.to_nat k) b /\
  (k = len a \/ k = len b \/
   nth_error a (Z.to_nat k) <> nth_error b (Z.to_nat k)).

(** ** The invariants of the sort *)

(** A ghost array [P] names the suffix that stands in each slot of [I],
    also where [I] holds a negative mark.  Exchanging two slots: *)
Definition swapf (P : Z -> Z) (x y : Z) : Z -> Z :=
  fun t => if t =? x then P y else if t =? y then P x else P t.

(** The array after [I[x], I[y] = I[y], I[x]]. *)
Definition swapA (I : list Z) (x y : Z) : list Z :=
  updZ (updZ I x I.[y]) y I.[x].

(** The number of slots [t] of [[a, c)] with [f t = true]. *)
Fixpoint cnt_from (f : Z -> bool) (a : Z) (m : nat) : Z :=
  match m with
  | O => 0
  | S m' => (if f a then 1 else 0) + cnt_from f (a + 1) m'
  end.

Definition cnt (f : Z -> bool) (a c : Z) : Z := cnt_from f a (Z.to_nat (c - a)).

Section Invariants.

Variable b : list byte.
Local Abbreviation n := (len b).

(** Suffix [p] is less than suffix [q]. *)
Definition slt (p q : Z) : Prop := lex_lt (suffix b p) (suffix b q).

(** Suffixes [p] and [q] have [h] symbols each and the same first [h]
    ones, or are the same suffix. *)
Definition agree (h p q : Z) : Prop :=
  p = q \/
  (p + h <= n /\ q + h <= n /\
   firstn (Z.to_nat h) (suffix b p) = firstn (Z.to_nat h) (suffix b q)).

Definition inr (p : Z) : Prop := 0 <= p <= n.

(** [P] is a permutation of [[0, n]]. *)
Definition permP (P : Z -> Z) : Prop :=
  (forall j, inr j -> inr (P j)) /\
  (forall j j', inr j -> inr j' -> P j = P j' -> j = j') /\
  (forall p, inr p -> exists j, inr j /\ P j = p).

(** The group number of a suffix is the last slot of its group, and a
    group is a run of slots. *)
Definition GS (W : list Z) (P : Z -> Z) : Prop :=
  forall j, inr j ->
    j <= W.[P j] <= n /\
    forall j', j <= j' <= W.[P j] -> W.[P j'] = W.[P j].

(** Group numbers respect the order of the suffixes. *)
Definition Mono (W : list Z) : Prop :=
  forall p q, inr p -> inr q -> W.[p] < W.[q] -> slt p q.

(** Suffixes of one group agree on [h] symbols. *)
Definition AgreeW (h : Z) (W : list Z) : Prop :=
  forall p q, inr p -> inr q -> W.[p] = W.[q] -> agree h p q.

(** The tiling of the slots [[i, m)] of [I] by runs of sorted suffixes,
    announced by a negative length, and by groups still to sort, whose
    suffixes agree on [h] symbols. *)
Inductive parse (h : Z) (I W : list Z) (P : Z -> Z) : Z -> Z -> Prop :=
| parse_nil : forall i, parse h I W P i i
| parse_run : forall i k m,
    0 < k -> I.[i] = - k ->
    (forall j, i <= j < i + k -> W.[P j] = j) ->
    parse h I W P (i + k) m ->
    parse h I W P i m
| parse_grp : forall i e m,
    i <= e -> 0 <= I.[i] ->
    (forall j, i <= j <= e -> I.[j] = P j /\ W.[P j] = e /\ P j + h <= n) ->
    (forall j j', i <= j <= e -> i <= j' <= e -> agree h (P j) (P j')) ->
    parse h I W P (e + 1) m ->
    parse h I W P i m.

(** What holds of the arrays throughout a pass of order [h]: [K] is the
    array the keys are read from, [W] the one the group numbers are
    written to. *)
Definition ginv (h : Z) (I K W : list Z) (P : Z -> Z) : Prop :=
  len I = n + 1 /\ len K = n + 1 /\ len W = n + 1 /\
  permP P /\ GS W P /\ Mono W /\ AgreeW h W /\ Mono K /\ AgreeW h K.

(** The slots [[a, c)] hold suffixes of the group that ends at [e], not
    yet split in this pass; all slots before [a] are done with. *)
Definition active (h : Z) (I W : list Z) (P : Z -> Z) (a c e : Z) : Prop :=
  0 <= a <= c /\ c - 1 <= e <= n /\
  (forall j, a <= j < c -> I.[j] = P j /\ W.[P j] = e /\ P j + h <= n) /\
  (forall j, 0 <= j < a -> W.[P j] < a) /\
  (forall j j', a <= j < c -> c <= j' <= n -> W.[P j'] = e ->
     slt (P j) (P j')).

(** Nothing changed outside the slots [[a, c)]. *)
Definition same_outside (a c : Z) (I W : list Z) (P : Z -> Z)
    (I' W' : list Z) (P' : Z -> Z) : Prop :=
  forall j, inr j -> ~ (a <= j < c) ->
    P' j = P j /\ I'.[j] = I.[j] /\ W'.[P j] = W.[P j].

(** The group numbers of the slots [[a, c)] lie in [[a, c)]. *)
Definition confined (W : list Z) (P : Z -> Z) (a c : Z) : Prop :=
  forall j, a <= j < c -> a <= W.[P j] < c.

(** The key of the suffix in slot [t]. *)
Definition keyof (h : Z) (K : list Z) (P : Z -> Z) (t : Z) : Z :=
  K.[P t + h].

(** The final array is sorted. *)
Definition suffix_sorted (I : list Z) : Prop :=
  forall i, 0 <= i < n -> lex_le (suffix b I.[i]) (suffix b I.[i + 1]).

End Invariants.

(** [I] holds each of [0, ..., n] once. *)
Definition is_perm (n : Z) (I : list Z) : Prop :=
  Permutation I (map Z.of_nat (seq 0 (Z.to_nat (n + 1)))).

(** The suffix array of [b]: the suffixes [0, ..., n], each once, in
    strictly increasing order. *)
Definition suffix_array (b : list byte) (I : list Z) : Prop :=
  len I = len b + 1 /\ permP b (idx I) /\
  forall j j', 0 <= j < j' -> j' <= len b -> slt b I.[j] I.[j'].

(** The concurrency settings under which workers exist when they are
    asked for and the capacity of the task queue is not negative. *)
Definition workers_ok (conc ncpu : Z) : Prop :=
  1 <= ncpu < 2 ^ 61 /\ - ncpu < conc < 2 ^ 61.

(** ** The bookkeeping of a pass *)

(** The slots already swept in a pass fall into segments: those parsed
    anew ([KDone]), the large groups sent to the workers and not yet split
    ([KPend]), and the runs of sorted suffixes whose common mark waits for
    the end of the pass ([KMark]). *)
Inductive kind : Type := KDone | KPend | KMark.

Definition seg : Type := (Z * Z * kind)%type.

Definition tasks_of (h : Z) (segs : list seg) : list sortTask :=
  flat_map (fun sg : seg =>
              let '(x, y, k) := sg in
              match k with KPend => [mkTask x (y - x) h] | _ => [] end) segs.

Definition marks_of (segs : list seg) : list mark :=
  flat_map (fun sg : seg =>
              let '(x, y, k) := sg in
              match k with KMark => [mkMark x (- (y - x))] | _ => [] end) segs.

(** Segments that follow one another from [lo] to [hi]. *)
Inductive chain : list seg -> Z -> Z -> Prop :=
| chain_nil : forall lo, chain [] lo lo
| chain_cons : forall x y k r hi,
    x < y -> chain r y hi -> chain ((x, y, k) :: r) x hi.

Section PassInvariants.

Variable b : list byte.
Local Abbreviation n := (len b).

(** The slots [[x, y)] hold one whole group of order [h], untouched. *)
Definition group_at (h : Z) (I W : list Z) (P : Z -> Z) (x y : Z) : Prop :=
  forall j, x <= j < y -> I.[j] = P j /\ W.[P j] = y - 1 /\ P j + h <= n.

(** The slots [[x, y)] hold sorted suffixes. *)
Definition sorted_at (W : list Z) (P : Z -> Z) (x y : Z) : Prop :=
  forall j, x <= j < y -> W.[P j] = j.

Definition seg_ok (h : Z) (I W : list Z) (P : Z -> Z) (sg : seg) : Prop :=
  let '(x, y, k) := sg in
  0 <= x /\ x < y <= n + 1 /\ confined W P x y /\
  match k with
  | KDone => parse b (h + h) I W P x y
  | KPend => group_at h I W P x y
  | KMark => sorted_at W P x y
  end.

(** The state of a pass of order [h] when the sweep stands at slot [hi]
    and the sorted suffixes of [[lo, hi)] wait to be merged: [K] is the
    array [V] and [W] the array the group numbers are written to. *)
Definition core (h : Z) (I K W : list Z) (P : Z -> Z) (segs : list seg)
    (lo hi : Z) : Prop :=
  0 <= lo <= hi /\ hi <= n + 1 /\
  ginv b h I K W P /\
  chain segs 0 lo /\ Forall (seg_ok h I W P) segs /\
  sorted_at W P lo hi /\
  parse b h I K P hi (n + 1) /\
  (forall j, hi <= j <= n -> W.[P j] = K.[P j]).

(** The arrays between two passes. *)
Definition between (h : Z) (s : store) (P : Z -> Z) : Prop :=
  0 < h /\
  ginv b h (arrI s) (arrV s) (arrV s) P /\
  parse b h (arrI s) (arrV s) P 0 (n + 1).

End PassInvariants.

(** ** The buckets of the first pass *)

Definition cntb (f : byte -> bool) (l : list byte) : Z :=
  Z.of_nat (length (filter f l)).

(** The number of bytes of [b] less than [c], and equal to [c]. *)
Definition nlt (b : list byte) (c : Z) : Z := cntb (fun x => byteZ x <? c) b.
Definition neq (b : list byte) (c : Z) : Z := cntb (fun x => byteZ x =? c) b.

(** The byte at position [p]. *)
Definition byte_at (b : list byte) (p : Z) : Z :=
  byteZ (nth (Z.to_nat p) b x00).

(** The slot of suffix [p] after the bucket sort: after the smaller bytes
    and the earlier occurrences of its own first byte. *)
Definition rank (b : list byte) (p : Z) : Z :=
  nlt b (byte_at b p) + neq (firstn (Z.to_nat p + 1) b) (byte_at b p).

(** The arrays during the bucket sort, when the bytes [pre] are placed. *)
Definition filled (b pre : list byte) (bk I : list Z) : Prop :=
  length bk = 256%nat /\ len I = len b + 1 /\
  (forall c, 0 <= c < 256 -> bget bk c = nlt b c + neq pre c) /\
  (forall p, 0 <= p < len pre -> I.[rank b p] = p) /\
  (forall c j, 0 <= c < 256 -> nlt b c < j <= bget bk c ->
     exists p, 0 <= p < len pre /\ byte_at b p = c /\ j = rank b p).

(** The ghost array before the first pass. *)
Definition init_P (b : list byte) (I : list Z) : Z -> Z :=
  fun j => if j =? 0 then len b else I.[j].

(** ** Sample inputs *)

(** The buffer [banana], and the schedule that leaves every task to the
    end of its pass. *)
Definition banana : list byte := [x62; x61; x6e; x61; x6e; x61].

Definition idle : Z -> Z -> list nat := fun _ _ => [].
(** ** Basic facts *)

Lemma bind_ok {A B : Type} (m : res A) (f : A -> res B) (a : A) :
  m = Ok a -> bind m f = f a.
Proof. intros ->; reflexivity. Qed.

Lemma bind_inv {A B : Type} (m : res A) (f : A -> res B) (b : B) :
  bind m f = Ok b -> exists a, m = Ok a /\ f a = Ok b.
Proof. destruct m; simpl; intros H; try discriminate; eauto. Qed.

Lemma wrap_small (w z : Z) :
  0 < w -> - 2 ^ (w - 1) <= z < 2 ^ (w - 1) -> wrap w z = z.
Proof.
  intros Hw Hz. unfold wrap.
  assert (E : 2 ^ w = 2 * 2 ^ (w - 1)).
  { replace w with (Z.succ (w - 1)) at 1 by lia. apply Z.pow_succ_r. lia. }
  rewrite E. rewrite Z.mod_small by lia. lia.
Qed.

Lemma len_nonneg {A : Type} (l : list A) : 0 <= len l.
Proof. unfold len; lia. Qed.

Lemma upd_length {A : Type} (a : list A) i (v : A) : length (upd a i v) = length a.
Proof. revert i; induction a; destruct i; simpl; auto. Qed.

Lemma len_updZ a i v : len (updZ a i v) = len a.
Proof. unfold len, updZ. now rewrite upd_length. Qed.

Lemma nth_upd_same {A : Type} (a : list A) i (v d : A) :
  (i < length a)%nat -> nth i (upd a i v) d = v.
Proof.
  revert i; induction a; destruct i; simpl; intros; try lia; auto.
  apply IHa; lia.
Qed.

Lemma nth_upd_other {A : Type} (a : list A) i j (v d : A) :
  i <> j -> nth j (upd a i v) d = nth j a d.
Proof.
  revert i j; induction a; destruct i, j; simpl; intros; try congruence; auto.
Qed.

Lemma idx_updZ_same a i v : 0 <= i < len a -> (updZ a i v).[i] = v.
Proof. unfold idx, updZ, len. intros. apply nth_upd_same. lia. Qed.

Lemma idx_updZ_other a i j v :
  0 <= i -> 0 <= j -> i <> j -> (updZ a i v).[j] = a.[j].
Proof. unfold idx, updZ. intros. apply nth_upd_other. lia. Qed.

Lemma idx_updZ a i j v :
  0 <= i < len a -> 0 <= j ->
  (updZ a i v).[j] = if j =? i then v else a.[j].
Proof.
  intros. destruct (Z.eqb_spec j i).
  - subst. now apply idx_updZ_same.
  - apply idx_updZ_other; lia.
Qed.

Lemma get_ok (a : list Z) i : 0 <= i < len a -> get a i = Ok a.[i].
Proof.
  unfold get, idx, len. intros H.
  destruct (Z.ltb_spec i 0); [lia|].
  destruct (nth_error a (Z.to_nat i)) eqn:E.
  - now rewrite (nth_error_nth _ _ _ E).
  - apply nth_error_None in E. lia.
Qed.

Lemma set_ok (a : list Z) i v : 0 <= i < len a -> set a i v = Ok (updZ a i v).
Proof.
  unfold set. intros H.
  destruct (Z.leb_spec 0 i); [|lia].
  destruct (Z.ltb_spec i (len a)); [|lia]. reflexivity.
Qed.

(** The rule of a loop: an invariant and a measure that the fuel exceeds. *)
Lemma while_rule {S : Type} (Inv : S -> Prop) (m : S -> Z)
    (cond : S -> res bool) (body : S -> res S) :
  (forall s, Inv s -> 0 <= m s) ->
  (forall s, Inv s -> exists c, cond s = Ok c /\
     (c = true -> exists s', body s = Ok s' /\ Inv s' /\ m s' < m s)) ->
  forall fuel s, Inv s -> m s < Z.of_nat fuel ->
  exists s', while fuel cond body s = Ok s' /\ Inv s' /\ cond s' = Ok false.
Proof.
  intros Hm Hstep. induction fuel as [|fuel IH]; intros s HI Hf.
  - specialize (Hm s HI). lia.
  - destruct (Hstep s HI) as (c & Hc & Hb). simpl. rewrite Hc. simpl.
    destruct c.
    + destruct (Hb eq_refl) as (s' & Hs' & HI' & Hlt).
      rewrite Hs'. simpl. apply IH; auto. lia.
    + exists s. auto.
Qed.

(** ** matchlen *)

Lemma while_fuel_mono {St : Type} (cond : St -> res bool) (body : St -> res St) :
  forall fuel s r, while fuel cond body s = Ok r ->
  while (S fuel) cond body s = Ok r.
Proof.
  induction fuel as [|fuel IH]; intros s r H; [discriminate|].
  simpl in H. apply bind_inv in H. destruct H as (c & Hc & H).
  change (while (S (S fuel)) cond body s)
    with (c <- cond s ;; if c then s' <- body s ;; while (S fuel) cond body s'
                         else Ok s).
  rewrite Hc. cbn [bind]. destruct c; auto.
  apply bind_inv in H. destruct H as (s' & Hs' & H).
  rewrite Hs'. cbn [bind]. auto.
Qed.

Lemma while_fuel_le {St : Type} (cond : St -> res bool) (body : St -> res St) :
  forall f f' s r, (f <= f')%nat -> while f cond body s = Ok r ->
  while f' cond body s = Ok r.
Proof.
  intros f f' s r Hle H. induction Hle; auto using while_fuel_mono.
Qed.

Lemma get_some {A : Type} (a : list A) i x :
  0 <= i -> nth_error a (Z.to_nat i) = Some x -> get a i = Ok x.
Proof.
  intros Hi E. unfold get. destruct (Z.ltb_spec i 0); [lia|]. now rewrite E.
Qed.

Lemma lcp_le_l a b : (lcp a b <= length a)%nat.
Proof.
  revert b; induction a as [|x a IH]; intros [|y b]; simpl; try lia.
  destruct (Byte.eqb x y); [specialize (IH b)|]; lia.
Qed.

Lemma lcp_le_r a b : (lcp a b <= length b)%nat.
Proof.
  revert b; induction a as [|x a IH]; intros [|y b]; simpl; try lia.
  destruct (Byte.eqb x y); [specialize (IH b)|]; lia.
Qed.

Lemma byte_eqb_eq x y : Byte.eqb x y = true <-> x = y.
Proof.
  split.
  - apply Byte.byte_dec_bl.
  - apply Byte.byte_dec_lb.
Qed.

Lemma lcp_sym a b : lcp a b = lcp b a.
Proof.
  revert b; induction a as [|x a IH]; intros [|y b]; simpl; auto.
  destruct (Byte.eqb x y) eqn:E.
  - apply byte_eqb_eq in E. subst. rewrite (proj2 (byte_eqb_eq y y) eq_refl).
    now rewrite IH.
  - destruct (Byte.eqb y x) eqn:E'; auto.
    apply byte_eqb_eq in E'. subst.
    rewrite (proj2 (byte_eqb_eq x x) eq_refl) in E. discriminate.
Qed.

Lemma lcp_nth a b i :
  (i < lcp a b)%nat ->
  exists x, nth_error a i = Some x /\ nth_error b i = Some x.
Proof.
  revert b i; induction a as [|x a IH]; intros [|y b] i; simpl; try lia.
  destruct (Byte.eqb x y) eqn:E; [|lia].
  apply byte_eqb_eq in E. subst.
  destruct i; simpl; eauto. intros. apply IH. lia.
Qed.

Lemma lcp_stop a b x y :
  nth_error a (lcp a b) = Some x -> nth_error b (lcp a b) = Some y -> x <> y.
Proof.
  revert b; induction a as [|x0 a IH]; intros [|y0 b]; simpl; try discriminate.
  destruct (Byte.eqb x0 y0) eqn:E; simpl.
  - apply IH.
  - intros [= ->] [= ->] ->.
    rewrite (proj2 (byte_eqb_eq y y) eq_refl) in E. discriminate.
Qed.

(** [lcp] is the one number that satisfies the law. *)
Lemma lcp_firstn a b : firstn (lcp a b) a = firstn (lcp a b) b.
Proof.
  revert b; induction a as [|x a IH]; intros [|y b]; simpl; auto.
  destruct (Byte.eqb x y) eqn:E; simpl; auto.
  apply byte_eqb_eq in E. subst. now rewrite IH.
Qed.

Lemma firstn_eq_lcp a b k :
  (k <= length a)%nat -> (k <= length b)%nat ->
  firstn k a = firstn k b -> (k <= lcp a b)%nat.
Proof.
  revert a b; induction k as [|k IH]; intros [|x a] [|y b]; simpl; try lia.
  intros Ha Hb [= -> E]. rewrite (proj2 (byte_eqb_eq y y) eq_refl).
  specialize (IH a b ltac:(lia) ltac:(lia) E). lia.
Qed.

Lemma law_lcp_nat a b k :
  firstn k a = firstn k b ->
  k = length a \/ k = length b \/ nth_error a k <> nth_error b k ->
  k = lcp a b.
Proof.
  revert a b; induction k as [|k IH]; intros [|x a] [|y b]; simpl;
    intros Hf Hd; try discriminate; auto.
  - destruct (Byte.eqb x y) eqn:E; auto.
    apply byte_eqb_eq in E. subst.
    destruct Hd as [H|[H|H]]; try discriminate. congruence.
  - destruct Hd as [H|[H|H]]; try discriminate. congruence.
  - injection Hf as -> E. rewrite (proj2 (byte_eqb_eq y y) eq_refl).
    f_equal. apply IH; auto.
    destruct Hd as [H|[H|H]]; [left; lia|right; left; lia|right; right; exact H].
Qed.

Lemma lcp_law a b : matchlen_law a b (Z.of_nat (lcp a b)).
Proof.
  unfold matchlen_law. rewrite Nat2Z.id. split; [lia|]. split.
  - apply lcp_firstn.
  - pose proof (lcp_le_l a b). pose proof (lcp_le_r a b).
    destruct (Nat.eq_dec (lcp a b) (length a)); [left; unfold len; lia|].
    destruct (Nat.eq_dec (lcp a b) (length b)); [right; left; unfold len; lia|].
    right; right.
    destruct (nth_error a (lcp a b)) eqn:Ea.
    2:{ apply nth_error_None in Ea. lia. }
    destruct (nth_error b (lcp a b)) eqn:Eb.
    2:{ apply nth_error_None in Eb. lia. }
    intros [= ->]. eapply lcp_stop; eauto.
Qed.

Lemma law_lcp a b k : matchlen_law a b k -> k = Z.of_nat (lcp a b).
Proof.
  intros (Hk & Hf & Hd).
  rewrite <- (law_lcp_nat a b (Z.to_nat k)); [lia|auto|].
  unfold len in Hd. destruct Hd as [H|[H|H]]; [left|right;left|right;right]; auto; lia.
Qed.

Lemma matchlen_cond (a b : list byte) (i : Z) :
  0 <= i <= Z.of_nat (lcp a b) ->
  (if negb (i <? len a) then Ok false
   else if negb (i <? len b) then Ok false
   else x <- get a i ;; y <- get b i ;; Ok (Byte.eqb x y))
  = Ok (i <? Z.of_nat (lcp a b)).
Proof.
  intros Hi. unfold len.
  pose proof (lcp_le_l a b) as Hla. pose proof (lcp_le_r a b) as Hlb.
  destruct (Z.ltb_spec i (Z.of_nat (lcp a b))) as [Hlt|Hge].
  - destruct (lcp_nth a b (Z.to_nat i)) as (x & Ea & Eb); [lia|].
    destruct (Z.ltb_spec i (Z.of_nat (length a))); [|lia].
    destruct (Z.ltb_spec i (Z.of_nat (length b))); [|lia]. simpl.
    rewrite (get_some a i x), (get_some b i x); auto; try lia. simpl.
    now rewrite (proj2 (byte_eqb_eq x x) eq_refl).
  - assert (i = Z.of_nat (lcp a b)) by lia. subst i.
    destruct (Z.ltb_spec (Z.of_nat (lcp a b)) (Z.of_nat (length a))); auto.
    destruct (Z.ltb_spec (Z.of_nat (lcp a b)) (Z.of_nat (length b))); auto.
    simpl.
    destruct (nth_error a (lcp a b)) as [x|] eqn:Ea.
    2:{ apply nth_error_None in Ea. lia. }
    destruct (nth_error b (lcp a b)) as [y|] eqn:Eb.
    2:{ apply nth_error_None in Eb. lia. }
    rewrite (get_some a _ x), (get_some b _ y);
      rewrite ?Nat2Z.id; auto; try lia. simpl.
    destruct (Byte.eqb x y) eqn:E; auto.
    apply byte_eqb_eq in E. exfalso. eapply lcp_stop; eauto.
Qed.

Section MatchWidth.

Variable w : Z.
Hypothesis w_pos : 0 < w.

Lemma matchlen_gen_ok (fuel : nat) (a b : list byte) :
  len a < 2 ^ (w - 1) -> len b < 2 ^ (w - 1) ->
  (lcp a b < fuel)%nat ->
  matchlen_gen w fuel a b = Ok (Z.of_nat (lcp a b)).
Proof.
  intros Ha Hb Hf. unfold matchlen_gen.
  pose proof (len_nonneg a). pose proof (len_nonneg b).
  pose proof (lcp_le_l a b) as Hla. pose proof (lcp_le_r a b) as Hlb.
  assert (Hp : 0 < 2 ^ (w - 1)) by (apply Z.pow_pos_nonneg; lia).
  rewrite !wrap_small by lia.
  set (cond := fun i : Z => _). set (body := fun i : Z => _).
  destruct (@while_rule Z (fun i => 0 <= i <= Z.of_nat (lcp a b))
              (fun i => Z.of_nat (lcp a b) - i) cond body) with
      (fuel := fuel) (s := 0) as (i & Hw & Hi & Hc); try lia.
  - intros i Hi.
    eexists; split; [exact (matchlen_cond a b i Hi)|]. intros Hlt.
    apply Z.ltb_lt in Hlt. exists (i + 1). unfold body, wadd.
    rewrite wrap_small by (unfold len in *; lia). repeat split; lia.
  - rewrite Hw. f_equal.
    unfold cond in Hc. rewrite (matchlen_cond a b i Hi) in Hc.
    injection Hc as Hc. apply Z.ltb_ge in Hc. lia.
Qed.

End MatchWidth.

(** ** search *)

Lemma byteZ_inj x y : byteZ x = byteZ y -> x = y.
Proof.
  unfold byteZ. intros H. apply N2Z.inj in H.
  assert (E : Some x = Some y) by (rewrite <- !Byte.of_to_N; now rewrite H).
  now injection E.
Qed.

Lemma lex_lt_irrefl a : ~ lex_lt a a.
Proof.
  induction a as [|x a IH]; intros H; inversion H; subst; auto. lia.
Qed.

Lemma bytes_compare_lt a b :
  (bytes_compare a b <? 0) = true <-> lex_lt a b.
Proof.
  revert b; induction a as [|x a IH]; intros [|y b]; simpl.
  - split; [discriminate|]. intros H; inversion H.
  - split; [constructor|reflexivity].
  - split; [discriminate|]. intros H; inversion H.
  - destruct (Z.ltb_spec (byteZ x) (byteZ y)) as [Hlt|Hge].
    + split; [constructor; auto|reflexivity].
    + destruct (Z.ltb_spec (byteZ y) (byteZ x)) as [Hgt|Hle].
      * split; [discriminate|]. intros H; inversion H; subst; lia.
      * assert (Exy : x = y) by (apply byteZ_inj; lia). subst y.
        rewrite IH. split; [intros Hab; now apply lex_lt_tail|].
        intros Hab; inversion Hab; subst; auto; lia.
Qed.

Lemma slice_from_ok (a : list byte) p :
  0 <= p <= len a -> slice_from a p = Ok (suffix a p).
Proof.
  intros H. unfold slice_from, suffix.
  destruct (Z.leb_spec 0 p); [|lia]. destruct (Z.leb_spec p (len a)); [|lia].
  reflexivity.
Qed.

Lemma suffix_length (a : list byte) p :
  0 <= p <= len a -> len (suffix a p) = len a - p.
Proof. unfold suffix, len. intros. rewrite length_skipn. lia. Qed.

Section SearchWidth.

Variable w : Z.
Hypothesis w_pos : 0 < w.

Variables (obuf nbuf : list byte) (I : list Z).
Hypothesis obuf_fits : len obuf + 1 < 2 ^ (w - 1).
Hypothesis nbuf_fits : len nbuf < 2 ^ (w - 1).
Hypothesis I_valid : index_array (len obuf) I.

Lemma search_matchlen (fuel : nat) (p : Z) :
  0 <= p <= len obuf -> (length obuf < fuel)%nat ->
  matchlen_gen w fuel (suffix obuf p) nbuf
  = Ok (Z.of_nat (lcp (suffix obuf p) nbuf)).
Proof.
  intros Hp Hf. pose proof (suffix_length obuf p Hp) as Hl.
  pose proof (lcp_le_l (suffix obuf p) nbuf). unfold len in *.
  apply matchlen_gen_ok; auto; unfold len; lia.
Qed.

(** The terminal window of [search]. *)
Lemma search_terminal (fuel : nat) (st en : Z) :
  0 <= st <= en -> en <= len obuf -> en - st < 2 ->
  (length obuf < fuel)%nat ->
  let x := Z.of_nat (lcp (suffix obuf I.[st]) nbuf) in
  let y := Z.of_nat (lcp (suffix obuf I.[en]) nbuf) in
  search_gen w (S fuel) I obuf nbuf st en
  = Ok (if x >? y then (I.[st], x) else (I.[en], y)).
Proof.
  intros Hst Hen Hd Hf x y. destruct I_valid as (HlI & HI).
  pose proof (HI st ltac:(lia)). pose proof (HI en ltac:(lia)).
  simpl. unfold wsub. rewrite wrap_small by lia.
  destruct (Z.ltb_spec (en - st) 2); [|lia].
  rewrite !get_ok by lia. simpl.
  rewrite !slice_from_ok by lia. simpl.
  rewrite !search_matchlen by (auto; lia). simpl.
  fold x y. destruct (x >? y); reflexivity.
Qed.

(** The recursive case of [search]. *)
Lemma search_recursive (fuel : nat) (st en : Z) :
  0 <= st <= en -> en <= len obuf -> 2 <= en - st ->
  let mid := st + (en - st) / 2 in
  search_gen w (S fuel) I obuf nbuf st en
  = if bytes_compare (suffix obuf I.[mid]) nbuf <? 0
    then search_gen w fuel I obuf nbuf mid en
    else search_gen w fuel I obuf nbuf st mid.
Proof.
  intros Hst Hen Hd mid. destruct I_valid as (HlI & HI).
  assert (Hq : Z.quot (en - st) 2 = (en - st) / 2) by (apply Z.quot_div_nonneg; lia).
  assert (Hm : st < mid < en).
  { unfold mid. pose proof (Z.div_pos (en - st) 2).
    assert (1 <= (en - st) / 2) by (apply Z.div_le_lower_bound; lia).
    assert ((en - st) / 2 < en - st) by (apply Z.div_lt; lia). lia. }
  pose proof (HI mid ltac:(lia)).
  simpl. unfold wsub, wadd, wquot. rewrite (wrap_small w (en - st)) by lia.
  destruct (Z.ltb_spec (en - st) 2); [lia|].
  rewrite Hq. rewrite (wrap_small w ((en - st) / 2)) by (fold mid in Hm; lia).
  fold mid. rewrite (wrap_small w mid) by lia.
  rewrite get_ok by lia. simpl. rewrite slice_from_ok by lia. simpl.
  reflexivity.
Qed.

Lemma search_gen_ok (fuel : nat) :
  forall st en, 0 <= st <= en -> en <= len obuf ->
  (Z.to_nat (en - st) + length obuf + 1 < fuel)%nat ->
  exists j, st <= j <= en /\
    search_gen w fuel I obuf nbuf st en
    = Ok (I.[j], Z.of_nat (lcp (suffix obuf I.[j]) nbuf)) /\
    (st < en -> st < j \/ (0 < lcp (suffix obuf I.[j]) nbuf)%nat).
Proof.
  induction fuel as [|fuel IH]; intros st en Hst Hen Hf; [lia|].
  destruct (Z.lt_ge_cases (en - st) 2) as [Hd|Hd].
  - rewrite search_terminal by (auto; lia). cbv zeta.
    destruct (Z.gtb_spec (Z.of_nat (lcp (suffix obuf I.[st]) nbuf))
                (Z.of_nat (lcp (suffix obuf I.[en]) nbuf))).
    + exists st. split; [lia|]. split; [reflexivity|]. intros _. right. lia.
    + exists en. split; [lia|]. split; [reflexivity|]. intros. left. lia.
  - rewrite search_recursive by (auto; lia). cbv zeta.
    set (mid := st + (en - st) / 2).
    assert (Hm : st < mid < en).
    { unfold mid. assert (1 <= (en - st) / 2) by (apply Z.div_le_lower_bound; lia).
      assert ((en - st) / 2 < en - st) by (apply Z.div_lt; lia). lia. }
    destruct (bytes_compare (suffix obuf I.[mid]) nbuf <? 0).
    + destruct (IH mid en) as (j & Hj & E & Hk); try lia.
      exists j. split; [lia|]. split; [exact E|]. intros _. left. lia.
    + destruct (IH st mid) as (j & Hj & E & Hk); try lia.
      exists j. split; [lia|]. split; [exact E|]. intros _. apply Hk. lia.
Qed.

End SearchWidth.

(** ** The order of suffixes *)

Lemma lex_lt_trans a b c : lex_lt a b -> lex_lt b c -> lex_lt a c.
Proof.
  intros H; revert c. induction H; intros c Hc; inversion Hc; subst.
  - constructor.
  - constructor.
  - constructor. lia.
  - constructor. auto.
  - constructor. auto.
  - apply lex_lt_tail. auto.
Qed.

Lemma lex_lt_app c a b : lex_lt (c ++ a) (c ++ b) <-> lex_lt a b.
Proof.
  induction c as [|x c IH]; simpl; [tauto|].
  rewrite <- IH. split; intros H.
  - inversion H; subst; auto. lia.
  - now apply lex_lt_tail.
Qed.

Lemma suffix_add (b : list byte) p h :
  0 <= p -> 0 <= h -> suffix b (p + h) = skipn (Z.to_nat h) (suffix b p).
Proof.
  intros. unfold suffix. rewrite skipn_skipn. f_equal. lia.
Qed.

Lemma suffix_split (b : list byte) p h :
  0 <= p -> 0 <= h ->
  suffix b p = firstn (Z.to_nat h) (suffix b p) ++ suffix b (p + h).
Proof.
  intros. rewrite suffix_add by lia. now rewrite firstn_skipn.
Qed.

Lemma firstn_plus {A : Type} (l : list A) (x y : nat) :
  firstn (x + y) l = firstn x l ++ firstn y (skipn x l).
Proof.
  revert l; induction x as [|x IH]; intros [|u l]; simpl; auto.
  - now rewrite firstn_nil.
  - now rewrite IH.
Qed.

Lemma suffix_nil (b : list byte) p :
  0 <= p -> suffix b p = [] <-> len b <= p.
Proof.
  intros Hp. unfold suffix, len. split; intros H.
  - assert (E : length (skipn (Z.to_nat p) b) = 0%nat) by now rewrite H.
    rewrite length_skipn in E. lia.
  - apply skipn_all2. lia.
Qed.

Lemma suffix_cons (b : list byte) p :
  0 <= p < len b ->
  exists x, nth_error b (Z.to_nat p) = Some x /\
            suffix b p = x :: suffix b (p + 1).
Proof.
  intros Hp. unfold suffix, len in *.
  destruct (nth_error b (Z.to_nat p)) as [x|] eqn:E.
  2:{ apply nth_error_None in E. lia. }
  exists x. split; auto.
  replace (Z.to_nat (p + 1)) with (S (Z.to_nat p)) by lia.
  clear Hp. revert E. generalize (Z.to_nat p) as k.
  induction b as [|y b IH]; intros [|k] E; simpl in *; try discriminate.
  - congruence.
  - apply IH in E. destruct b; auto.
Qed.

Section Order.

Variable b : list byte.
Local Abbreviation n := (len b).

Lemma slt_irrefl p : ~ slt b p p.
Proof. apply lex_lt_irrefl. Qed.

Lemma slt_trans p q r : slt b p q -> slt b q r -> slt b p r.
Proof. apply lex_lt_trans. Qed.

Lemma slt_asym p q : slt b p q -> slt b q p -> False.
Proof. intros H1 H2. exact (slt_irrefl p (slt_trans p q p H1 H2)). Qed.

(** Suffixes that agree on [h] symbols compare as their rests do. *)
Lemma agree_slt h p q :
  0 <= h -> 0 <= p -> 0 <= q -> p <> q ->
  agree b h p q -> slt b (p + h) (q + h) -> slt b p q.
Proof.
  intros Hh Hp Hq Hne [E|(Hph & Hqh & E)] Hlt; [congruence|].
  unfold slt. rewrite (suffix_split b p h), (suffix_split b q h) by lia.
  rewrite E. now apply lex_lt_app.
Qed.

Lemma agree_refl h p : agree b h p p.
Proof. now left. Qed.

Lemma agree_double h p q :
  0 <= h -> 0 <= p -> 0 <= q ->
  agree b h p q -> agree b h (p + h) (q + h) -> agree b (h + h) p q.
Proof.
  intros Hh Hp Hq [E|(Hph & Hqh & E)] H2; [now left|].
  destruct H2 as [E2|(Hph2 & Hqh2 & E2)]; [left; lia|].
  right. split; [lia|]. split; [lia|].
  rewrite Z2Nat.inj_add by lia. rewrite !firstn_plus.
  rewrite <- !suffix_add by lia. now rewrite E, E2.
Qed.

Lemma agree_bound h p q : p <> q -> agree b h p q -> p + h <= n /\ q + h <= n.
Proof. intros Hne [E|(H1 & H2 & _)]; [congruence|auto]. Qed.

End Order.

(** ** Counting the slots of a range *)

Lemma cnt_from_bounds f a m : 0 <= cnt_from f a m <= Z.of_nat m.
Proof.
  revert a; induction m as [|m IH]; intros a; simpl; [lia|].
  specialize (IH (a + 1)). destruct (f a); lia.
Qed.

Lemma cnt_from_app f a m1 m2 :
  cnt_from f a (m1 + m2) = cnt_from f a m1 + cnt_from f (a + Z.of_nat m1) m2.
Proof.
  revert a; induction m1 as [|m1 IH]; intros a.
  - simpl. f_equal. lia.
  - cbn [Nat.add cnt_from]. rewrite IH. replace (a + 1 + Z.of_nat m1) with (a + Z.of_nat (S m1)) by lia. lia.
Qed.

Lemma cnt_from_ext f g a m :
  (forall t, a <= t < a + Z.of_nat m -> f t = g t) ->
  cnt_from f a m = cnt_from g a m.
Proof.
  revert a; induction m as [|m IH]; intros a H; simpl; auto.
  rewrite (H a) by lia. rewrite (IH (a + 1)); auto.
  intros t Ht. apply H. lia.
Qed.

Lemma cnt_bounds f a c : a <= c -> 0 <= cnt f a c <= c - a.
Proof. intros H. unfold cnt. pose proof (cnt_from_bounds f a (Z.to_nat (c - a))). lia. Qed.

Lemma cnt_empty f a : cnt f a a = 0.
Proof. unfold cnt. now rewrite Z.sub_diag. Qed.

Lemma cnt_split f a m c : a <= m <= c -> cnt f a c = cnt f a m + cnt f m c.
Proof.
  intros H. unfold cnt.
  replace (Z.to_nat (c - a)) with (Z.to_nat (m - a) + Z.to_nat (c - m))%nat by lia.
  rewrite cnt_from_app. do 2 f_equal. lia.
Qed.

Lemma cnt_one f a : cnt f a (a + 1) = if f a then 1 else 0.
Proof.
  unfold cnt. replace (a + 1 - a) with 1 by lia. simpl. destruct (f a); lia.
Qed.

Lemma cnt_ext f g a c :
  (forall t, a <= t < c -> f t = g t) -> cnt f a c = cnt g a c.
Proof.
  intros H. unfold cnt. apply cnt_from_ext. intros t Ht. apply H. lia.
Qed.

Lemma cnt_snoc f a c :
  a <= c -> cnt f a (c + 1) = cnt f a c + if f c then 1 else 0.
Proof.
  intros H. rewrite (cnt_split f a c (c + 1)) by lia. now rewrite cnt_one.
Qed.

(** A slot that satisfies [f] counts. *)
Lemma cnt_has f a c t : a <= t < c -> f t = true -> 1 <= cnt f a c.
Proof.
  intros Ht Hf. rewrite (cnt_split f a t c) by lia.
  rewrite (cnt_split f t (t + 1) c) by lia. rewrite cnt_one, Hf.
  pose proof (cnt_bounds f a t). pose proof (cnt_bounds f (t + 1) c). lia.
Qed.

Lemma cnt_all f a c :
  a <= c -> (forall t, a <= t < c -> f t = true) -> cnt f a c = c - a.
Proof.
  intros Hac H. unfold cnt.
  remember (Z.to_nat (c - a)) as m eqn:Em.
  assert (Hm : c = a + Z.of_nat m) by lia. clear Em. subst c.
  clear Hac. revert a H. induction m as [|m IH]; intros a H; simpl; [lia|].
  rewrite H by lia. rewrite IH; [lia|]. intros t Ht. apply H. lia.
Qed.

Lemma cnt_zero f a c t : cnt f a c = 0 -> a <= t < c -> f t = false.
Proof.
  intros H Ht. destruct (f t) eqn:E; auto.
  pose proof (cnt_has f a c t Ht E). lia.
Qed.

Lemma cnt_full f a c t : cnt f a c = c - a -> a <= t < c -> f t = true.
Proof.
  intros H Ht. destruct (f t) eqn:E; auto.
  rewrite (cnt_split f a t c) in H by lia.
  rewrite (cnt_split f t (t + 1) c) in H by lia. rewrite cnt_one, E in H.
  pose proof (cnt_bounds f a t). pose proof (cnt_bounds f (t + 1) c). lia.
Qed.

(** Exchanging two slots of a range keeps its counts. *)
Lemma cnt_swapf (g : Z -> bool) (P : Z -> Z) a c x y :
  a <= x < c -> a <= y < c ->
  cnt (fun t => g (swapf P x y t)) a c = cnt (fun t => g (P t)) a c.
Proof.
  assert (Hord : forall x y, a <= x < c -> a <= y < c -> x < y ->
    cnt (fun t => g (swapf P x y t)) a c = cnt (fun t => g (P t)) a c).
  { clear x y. intros x y Hx Hy Hlt.
    rewrite (cnt_split _ a x c), (cnt_split _ x (x + 1) c),
      (cnt_split _ (x + 1) y c), (cnt_split _ y (y + 1) c) by lia.
    rewrite (cnt_split (fun t => g (P t)) a x c),
      (cnt_split (fun t => g (P t)) x (x + 1) c),
      (cnt_split (fun t => g (P t)) (x + 1) y c),
      (cnt_split (fun t => g (P t)) y (y + 1) c) by lia.
    rewrite !cnt_one.
    rewrite (cnt_ext (fun t => g (swapf P x y t)) (fun t => g (P t)) a x).
    2:{ intros t Ht. unfold swapf.
        destruct (Z.eqb_spec t x); [lia|]. destruct (Z.eqb_spec t y); [lia|]. auto. }
    rewrite (cnt_ext (fun t => g (swapf P x y t)) (fun t => g (P t)) (x + 1) y).
    2:{ intros t Ht. unfold swapf.
        destruct (Z.eqb_spec t x); [lia|]. destruct (Z.eqb_spec t y); [lia|]. auto. }
    rewrite (cnt_ext (fun t => g (swapf P x y t)) (fun t => g (P t)) (y + 1) c).
    2:{ intros t Ht. unfold swapf.
        destruct (Z.eqb_spec t x); [lia|]. destruct (Z.eqb_spec t y); [lia|]. auto. }
    unfold swapf. rewrite !Z.eqb_refl.
    destruct (Z.eqb_spec y x); [lia|].
    destruct (g (P x)), (g (P y)); lia. }
  intros Hx Hy.
  destruct (Z.lt_trichotomy x y) as [Hlt|[Heq|Hgt]].
  - now apply Hord.
  - subst y. apply cnt_ext. intros t Ht. unfold swapf.
    destruct (Z.eqb_spec t x); subst; auto.
  - rewrite <- (Hord y x) by lia. apply cnt_ext. intros t Ht. unfold swapf.
    destruct (Z.eqb_spec t x), (Z.eqb_spec t y); subst; auto; lia.
Qed.

(** A slot and a later range that all satisfy [f]. *)
Lemma cnt_lower f a c i lo hi :
  a <= i < lo -> lo <= hi <= c -> f i = true ->
  (forall t, lo <= t < hi -> f t = true) ->
  hi - lo + 1 <= cnt f a c.
Proof.
  intros Hi Hlo Hfi Hall.
  rewrite (cnt_split f a i c), (cnt_split f i (i + 1) c),
    (cnt_split f (i + 1) lo c), (cnt_split f lo hi c) by lia.
  rewrite cnt_one, Hfi, (cnt_all f lo hi) by (auto; lia).
  pose proof (cnt_bounds f a i). pose proof (cnt_bounds f (i + 1) lo).
  pose proof (cnt_bounds f hi c). lia.
Qed.

(** Each slot is less than, equal to or greater than the pivot. *)
Lemma cnt_tri (kf : Z -> Z) x a c :
  a <= c ->
  cnt (fun t => kf t <? x) a c + cnt (fun t => kf t =? x) a c
  + cnt (fun t => x <? kf t) a c = c - a.
Proof.
  intros Hac. unfold cnt.
  remember (Z.to_nat (c - a)) as m eqn:Em.
  assert (Hm : c - a = Z.of_nat m) by lia. rewrite Hm. clear Em Hm Hac c.
  revert a. induction m as [|m IH]; intros a; [reflexivity|].
  cbn [cnt_from]. specialize (IH (a + 1)).
  destruct (Z.ltb_spec (kf a) x), (Z.eqb_spec (kf a) x), (Z.ltb_spec x (kf a));
    lia.
Qed.

(** ** Arrays and stores *)

Lemma rd_wr v v2 s a : rd v (wr v2 s a) = if vref_eqb v v2 then a else rd v s.
Proof. destruct v, v2; reflexivity. Qed.

Lemma rd_wr_same v s a : rd v (wr v s a) = a.
Proof. destruct v; reflexivity. Qed.

Lemma rd_withI v s a : rd v (withI s a) = rd v s.
Proof. destruct v; reflexivity. Qed.

Lemma arrI_wr v s a : arrI (wr v s a) = arrI s.
Proof. destruct v; reflexivity. Qed.

Lemma arrI_withI s a : arrI (withI s a) = a.
Proof. reflexivity. Qed.

Lemma withI_withI s a a' : withI (withI s a) a' = withI s a'.
Proof. reflexivity. Qed.

Lemma withI_arrI s : withI s (arrI s) = s.
Proof. destruct s; reflexivity. Qed.

Lemma wr_withI v s a a' : wr v (withI s a) a' = withI (wr v s a') a.
Proof. destruct v; reflexivity. Qed.

Lemma getI_ok s i : 0 <= i < len (arrI s) -> getI s i = Ok (arrI s).[i].
Proof. apply get_ok. Qed.

Lemma setI_ok s i x :
  0 <= i < len (arrI s) -> setI s i x = Ok (withI s (updZ (arrI s) i x)).
Proof. intros H. unfold setI. now rewrite set_ok. Qed.

Lemma getV_ok v s i : 0 <= i < len (rd v s) -> getV v s i = Ok (rd v s).[i].
Proof. apply get_ok. Qed.

Lemma setV_ok v s i x :
  0 <= i < len (rd v s) -> setV v s i x = Ok (wr v s (updZ (rd v s) i x)).
Proof. intros H. unfold setV. now rewrite set_ok. Qed.

Lemma swapI_ok s x y :
  0 <= x < len (arrI s) -> 0 <= y < len (arrI s) ->
  swapI s x y = Ok (withI s (swapA (arrI s) x y)).
Proof.
  intros Hx Hy. unfold swapI. rewrite !getI_ok by auto. simpl.
  rewrite setI_ok by auto. simpl. rewrite setI_ok.
  - reflexivity.
  - rewrite arrI_withI, len_updZ. auto.
Qed.

Lemma len_swapA I x y : len (swapA I x y) = len I.
Proof. unfold swapA. now rewrite !len_updZ. Qed.

Lemma idx_swapA I x y t :
  0 <= x < len I -> 0 <= y < len I -> 0 <= t ->
  (swapA I x y).[t] = if t =? x then I.[y] else if t =? y then I.[x] else I.[t].
Proof.
  intros Hx Hy Ht. unfold swapA.
  rewrite idx_updZ by (rewrite ?len_updZ; lia).
  destruct (Z.eqb_spec t y) as [->|Hty].
  - destruct (Z.eqb_spec y x) as [->|]; auto.
  - rewrite idx_updZ by lia. reflexivity.
Qed.

(** ** The invariants under the steps of [split] *)

Section SplitSem.

Variable b : list byte.
Local Abbreviation n := (len b).
Variable h : Z.
Hypothesis h_pos : 0 < h.

Lemma permP_swapf P x y :
  permP b P -> inr b x -> inr b y -> permP b (swapf P x y).
Proof.
  intros (Hr & Hi & Hs) Hx Hy. unfold swapf. split; [|split].
  - intros j Hj. destruct (j =? x); [auto|]. destruct (j =? y); auto.
  - intros j j' Hj Hj'.
    destruct (Z.eqb_spec j x), (Z.eqb_spec j y), (Z.eqb_spec j' x),
      (Z.eqb_spec j' y); subst; intros E; auto;
      try (apply Hi in E; auto; congruence).
  - intros p Hp. destruct (Hs p Hp) as (j & Hj & E).
    destruct (Z.eqb_spec j x) as [->|Hjx].
    + exists y. split; auto. destruct (Z.eqb_spec y x); [congruence|].
      now rewrite Z.eqb_refl.
    + destruct (Z.eqb_spec j y) as [->|Hjy].
      * exists x. split; auto. now rewrite Z.eqb_refl.
      * exists j. split; auto.
        destruct (Z.eqb_spec j x); [congruence|].
        destruct (Z.eqb_spec j y); [congruence|]. auto.
Qed.

Lemma GS_ext W P P' :
  GS b W P -> (forall j, inr b j -> W.[P' j] = W.[P j]) -> GS b W P'.
Proof.
  intros HG HE j Hj. destruct (HG j Hj) as (H1 & H2).
  rewrite HE by auto. split; auto.
  intros j' Hj'. rewrite HE by (unfold inr in *; lia). auto.
Qed.

Lemma GS_le W P j j' :
  GS b W P -> inr b j -> inr b j' -> j <= j' -> W.[P j] <= W.[P j'].
Proof.
  intros HG Hj Hj' Hle. destruct (HG j Hj) as (H1 & H2).
  destruct (HG j' Hj') as (H3 & _).
  destruct (Z.le_gt_cases j' W.[P j]).
  - rewrite (H2 j') by lia. lia.
  - lia.
Qed.

Lemma swap_inv I K W P a c e x y :
  ginv b h I K W P -> active b h I W P a c e ->
  a <= x < c -> a <= y < c ->
  ginv b h (swapA I x y) K W (swapf P x y) /\
  active b h (swapA I x y) W (swapf P x y) a c e /\
  same_outside b a c I W P (swapA I x y) W (swapf P x y).
Proof.
  intros (HlI & HlK & HlW & HP & HG & HMW & HAW & HMK & HAK)
         (Hac & Hce & Hin & Hbef & Haft) Hx Hy.
  assert (Hsw : forall t, a <= t < c ->
            (swapA I x y).[t] = swapf P x y t /\ W.[swapf P x y t] = e /\
            swapf P x y t + h <= n).
  { intros t Ht. rewrite idx_swapA by lia. unfold swapf.
    destruct (Z.eqb_spec t x); [apply Hin; lia|].
    destruct (Z.eqb_spec t y); apply Hin; lia. }
  assert (Hout : forall t, ~ (a <= t < c) -> swapf P x y t = P t).
  { intros t Ht. unfold swapf.
    destruct (Z.eqb_spec t x); [lia|]. destruct (Z.eqb_spec t y); [lia|]. auto. }
  assert (HW : forall j, inr b j -> W.[swapf P x y j] = W.[P j]).
  { intros j Hj. destruct (Z_lt_dec j a); [now rewrite Hout by lia|].
    destruct (Z_lt_dec j c); [|now rewrite Hout by lia].
    destruct (Hsw j ltac:(lia)) as (_ & -> & _).
    symmetry. apply Hin. lia. }
  split; [|split].
  - unfold ginv. rewrite len_swapA.
    split; [auto|]. split; [auto|]. split; [auto|]. split.
    + apply permP_swapf; auto; unfold inr; lia.
    + split; [eapply GS_ext; eauto|auto].
  - unfold active. split; [auto|]. split; [auto|]. split; [auto|]. split.
    + intros j Hj. rewrite Hout by lia. auto.
    + intros j j' Hj Hj'. rewrite (Hout j') by lia. intros He.
      unfold swapf. destruct (Z.eqb_spec j x); [apply Haft; auto; lia|].
      destruct (Z.eqb_spec j y); apply Haft; auto; lia.
  - intros j Hj Hnot. rewrite Hout by auto. split; auto. split; auto.
    rewrite idx_swapA by (unfold inr in *; lia).
    destruct (Z.eqb_spec j x); [lia|]. destruct (Z.eqb_spec j y); [lia|]. auto.
Qed.

Lemma active_inr I W P a c e t :
  permP b P -> active b h I W P a c e -> a <= t < c ->
  inr b t /\ inr b (P t) /\ inr b (P t + h).
Proof.
  intros (Hr & _) (Hac & Hce & Hin & _) Ht.
  assert (Hit : inr b t) by (unfold inr; lia).
  pose proof (Hr t Hit) as Hp. destruct (Hin t Ht) as (_ & _ & Hb).
  unfold inr in *. repeat split; lia.
Qed.

(** A smaller key means a smaller suffix. *)
Lemma key_lt_slt I K W P a c e t t' :
  ginv b h I K W P -> active b h I W P a c e ->
  a <= t < c -> a <= t' < c ->
  keyof h K P t < keyof h K P t' -> slt b (P t) (P t').
Proof.
  intros Hg Ha Ht Ht' Hk.
  pose proof Hg as (HlI & HlK & HlW & HP & HG & HMW & HAW & HMK & HAK).
  destruct (active_inr I W P a c e t HP Ha Ht) as (H1 & H2 & H3).
  destruct (active_inr I W P a c e t' HP Ha Ht') as (H1' & H2' & H3').
  destruct Ha as (Hac & Hce & Hin & _).
  unfold keyof in Hk.
  assert (Hne : P t <> P t') by (intros E; rewrite E in Hk; lia).
  apply agree_slt with (h := h); unfold inr in *; try lia.
  - apply HAW; unfold inr; try lia.
    destruct (Hin t Ht) as (_ & -> & _). destruct (Hin t' Ht') as (_ & -> & _). auto.
  - apply HMK; unfold inr; auto.
Qed.

(** Equal keys mean agreement on twice as many symbols. *)
Lemma key_eq_agree I K W P a c e t t' :
  ginv b h I K W P -> active b h I W P a c e ->
  a <= t < c -> a <= t' < c ->
  keyof h K P t = keyof h K P t' -> agree b (h + h) (P t) (P t').
Proof.
  intros Hg Ha Ht Ht' Hk.
  pose proof Hg as (HlI & HlK & HlW & HP & HG & HMW & HAW & HMK & HAK).
  destruct (active_inr I W P a c e t HP Ha Ht) as (H1 & H2 & H3).
  destruct (active_inr I W P a c e t' HP Ha Ht') as (H1' & H2' & H3').
  destruct Ha as (Hac & Hce & Hin & _).
  apply agree_double; unfold inr in *; try lia.
  - apply HAW; unfold inr; try lia.
    destruct (Hin t Ht) as (_ & -> & _). destruct (Hin t' Ht') as (_ & -> & _). auto.
  - apply HAK; unfold inr; auto.
Qed.

(** Committing the group number of the first [m] slots of an active
    range, which hold its least suffixes. *)
Lemma commit_sem I K W P a c e m W' K' :
  ginv b h I K W P -> active b h I W P a c e ->
  1 <= m -> a + m <= c ->
  (forall j j', a <= j < a + m -> a + m <= j' < c -> slt b (P j) (P j')) ->
  len W' = n + 1 ->
  (forall t, inr b t ->
     W'.[P t] = if (a <=? t) && (t <? a + m) then a + m - 1 else W.[P t]) ->
  K' = K \/ K' = W' ->
  ginv b h I K' W' P /\ active b h I W' P (a + m) c e.
Proof.
  intros (HlI & HlK & HlW & HP & HG & HMW & HAW & HMK & HAK)
         (Hac & Hce & Hin & Hbef & Haft) Hm Hamc Hsel HlW' HW' HK'.
  pose proof HP as (Hr & Hi & Hs).
  assert (Hlo : forall t, inr b t -> t < a -> W'.[P t] = W.[P t] /\ W.[P t] < a).
  { intros t Ht Hlt. rewrite HW' by auto.
    destruct (Z.leb_spec a t); [lia|]. simpl. split; auto. apply Hbef.
    unfold inr in *; lia. }
  assert (Hmid : forall t, a <= t < a + m -> W'.[P t] = a + m - 1 /\ W.[P t] = e).
  { intros t Ht. rewrite HW' by (unfold inr; lia).
    destruct (Z.leb_spec a t); [|lia]. destruct (Z.ltb_spec t (a + m)); [|lia].
    simpl. split; auto. apply Hin. lia. }
  assert (Hhi : forall t, inr b t -> a + m <= t -> W'.[P t] = W.[P t] /\ e <= W.[P t]).
  { intros t Ht Hge. rewrite HW' by auto.
    destruct (Z.ltb_spec t (a + m)); [lia|]. rewrite andb_false_r. split; auto.
    destruct (Hin (a + m - 1) ltac:(lia)) as (_ & <- & _).
    apply GS_le; auto; unfold inr in *; lia. }
  assert (HGS' : GS b W' P).
  { intros j Hj. destruct (HG j Hj) as (G1 & G2).
    destruct (Z_lt_dec j a) as [Hja|Hja].
    - destruct (Hlo j Hj Hja) as (E & Hlt). rewrite E. split; auto.
      intros j' Hj'. destruct (Hlo j') as (E' & _); unfold inr in *; try lia.
      rewrite E'. apply G2. lia.
    - destruct (Z_lt_dec j (a + m)) as [Hjm|Hjm].
      + destruct (Hmid j ltac:(lia)) as (E & _). rewrite E. split; [lia|].
        intros j' Hj'. now destruct (Hmid j' ltac:(lia)) as (-> & _).
      + destruct (Hhi j Hj ltac:(lia)) as (E & Hge). rewrite E. split; auto.
        intros j' Hj'. destruct (Hhi j') as (E' & _); unfold inr in *; try lia.
        rewrite E'. apply G2. lia. }
  assert (HMW' : Mono b W').
  { intros p q Hp Hq Hlt.
    destruct (Hs p Hp) as (j & Hj & <-). destruct (Hs q Hq) as (j' & Hj' & <-).
    destruct (Z_lt_dec j a) as [Hja|Hja].
    - destruct (Hlo j Hj Hja) as (E & Hb1). rewrite E in Hlt.
      destruct (Z_lt_dec j' a) as [Hja'|Hja'].
      + destruct (Hlo j' Hj' Hja') as (E' & _). rewrite E' in Hlt. auto.
      + destruct (Z_lt_dec j' (a + m)) as [Hjm'|Hjm'].
        * destruct (Hmid j' ltac:(lia)) as (_ & E'). apply HMW; auto. lia.
        * destruct (Hhi j' Hj' ltac:(lia)) as (E' & _). rewrite E' in Hlt. auto.
    - destruct (Z_lt_dec j (a + m)) as [Hjm|Hjm].
      + destruct (Hmid j ltac:(lia)) as (E & Ee). rewrite E in Hlt.
        destruct (Z_lt_dec j' a) as [Hja'|Hja'].
        * destruct (Hlo j' Hj' Hja') as (E' & Hb'). lia.
        * destruct (Z_lt_dec j' (a + m)) as [Hjm'|Hjm'].
          -- destruct (Hmid j' ltac:(lia)) as (E' & _). lia.
          -- destruct (Hhi j' Hj' ltac:(lia)) as (E' & Hge'). rewrite E' in Hlt.
             destruct (Z_lt_dec j' c) as [Hjc'|Hjc'].
             ++ apply Hsel; lia.
             ++ destruct (Z.eq_dec W.[P j'] e) as [Heq|Hne].
                ** apply Haft; auto; unfold inr in *; lia.
                ** apply HMW; auto. lia.
      + destruct (Hhi j Hj ltac:(lia)) as (E & Hge). rewrite E in Hlt.
        destruct (Z_lt_dec j' a) as [Hja'|Hja'].
        * destruct (Hlo j' Hj' Hja') as (E' & Hb'). rewrite E' in Hlt. auto.
        * destruct (Z_lt_dec j' (a + m)) as [Hjm'|Hjm'].
          -- destruct (Hmid j' ltac:(lia)) as (E' & _). lia.
          -- destruct (Hhi j' Hj' ltac:(lia)) as (E' & _). rewrite E' in Hlt. auto. }
  assert (HAW' : AgreeW b h W').
  { intros p q Hp Hq Heq. apply HAW; auto.
    destruct (Hs p Hp) as (j & Hj & <-). destruct (Hs q Hq) as (j' & Hj' & <-).
    destruct (Z_lt_dec j a) as [Hja|Hja].
    - destruct (Hlo j Hj Hja) as (E & Hb1). rewrite E in Heq.
      destruct (Z_lt_dec j' a) as [Hja'|Hja'].
      + destruct (Hlo j' Hj' Hja') as (E' & _). now rewrite E' in Heq.
      + destruct (Z_lt_dec j' (a + m)) as [Hjm'|Hjm'].
        * destruct (Hmid j' ltac:(lia)) as (E' & _). lia.
        * destruct (Hhi j' Hj' ltac:(lia)) as (E' & _). now rewrite E' in Heq.
    - destruct (Z_lt_dec j (a + m)) as [Hjm|Hjm].
      + destruct (Hmid j ltac:(lia)) as (E & Ee). rewrite E in Heq.
        destruct (Z_lt_dec j' a) as [Hja'|Hja'].
        * destruct (Hlo j' Hj' Hja') as (E' & Hb'). lia.
        * destruct (Z_lt_dec j' (a + m)) as [Hjm'|Hjm'].
          -- destruct (Hmid j' ltac:(lia)) as (_ & Ee'). lia.
          -- destruct (Hhi j' Hj' ltac:(lia)) as (E' & Hge'). lia.
      + destruct (Hhi j Hj ltac:(lia)) as (E & Hge). rewrite E in Heq.
        destruct (Z_lt_dec j' a) as [Hja'|Hja'].
        * destruct (Hlo j' Hj' Hja') as (E' & Hb'). now rewrite E' in Heq.
        * destruct (Z_lt_dec j' (a + m)) as [Hjm'|Hjm'].
          -- destruct (Hmid j' ltac:(lia)) as (E' & Ee'). lia.
          -- destruct (Hhi j' Hj' ltac:(lia)) as (E' & _). now rewrite E' in Heq. }
  split.
  - unfold ginv. split; [auto|].
    split; [destruct HK' as [->| ->]; auto|]. split; [auto|].
    split; [auto|]. split; [auto|]. split; [auto|]. split; [auto|].
    destruct HK' as [->| ->]; auto.
  - unfold active. split; [lia|]. split; [lia|]. split; [|split].
    + intros j Hj. destruct (Hin j ltac:(lia)) as (I1 & I2 & I3).
      destruct (Hhi j ltac:(unfold inr; lia) ltac:(lia)) as (E & _).
      rewrite E. auto.
    + intros j Hj. destruct (Z_lt_dec j a) as [Hja|Hja].
      * destruct (Hlo j ltac:(unfold inr; lia) ltac:(lia)) as (E & Hlt). lia.
      * destruct (Hmid j ltac:(lia)) as (E & _). lia.
    + intros j j' Hj Hj' He. apply Haft; auto; try lia.
      destruct (Hhi j' ltac:(unfold inr; lia) ltac:(lia)) as (E & _).
      now rewrite <- E.
Qed.

Lemma same_outside_refl a c I W P : same_outside b a c I W P I W P.
Proof. intros j _ _. auto. Qed.

Lemma same_outside_trans a c I W P I1 W1 P1 I2 W2 P2 :
  same_outside b a c I W P I1 W1 P1 ->
  same_outside b a c I1 W1 P1 I2 W2 P2 ->
  same_outside b a c I W P I2 W2 P2.
Proof.
  intros H1 H2 j Hj Hn. destruct (H1 j Hj Hn) as (A1 & A2 & A3).
  destruct (H2 j Hj Hn) as (B1 & B2 & B3).
  split; [congruence|]. split; [congruence|].
  rewrite A1 in B3. congruence.
Qed.

Lemma same_outside_weaken a c a' c' I W P I1 W1 P1 :
  a <= a' -> c' <= c ->
  same_outside b a' c' I W P I1 W1 P1 -> same_outside b a c I W P I1 W1 P1.
Proof. intros Ha Hc H j Hj Hn. apply H; auto. lia. Qed.

Lemma keyof_swapf K P x y t :
  keyof h K (swapf P x y) t
  = if t =? x then keyof h K P y
    else if t =? y then keyof h K P x else keyof h K P t.
Proof.
  unfold keyof, swapf. destruct (t =? x); auto. destruct (t =? y); auto.
Qed.

Lemma parse_le hh I W P i m : parse b hh I W P i m -> i <= m.
Proof. induction 1; lia. Qed.

Lemma parse_app hh I W P i m r :
  parse b hh I W P i m -> parse b hh I W P m r -> parse b hh I W P i r.
Proof.
  induction 1; intros Hr; auto.
  - eapply parse_run; eauto.
  - eapply parse_grp; eauto.
Qed.

Lemma parse_frame hh I W P I' W' P' i m :
  parse b hh I W P i m ->
  (forall j, i <= j < m -> I'.[j] = I.[j] /\ P' j = P j /\ W'.[P j] = W.[P j]) ->
  parse b hh I' W' P' i m.
Proof.
  induction 1 as [i|i k m Hk HI Hr Hp IH|i e m Hie HI Hg Ha Hp IH]; intros HF.
  - constructor.
  - pose proof (parse_le _ _ _ _ _ _ Hp) as Hle.
    apply parse_run with (k := k); auto.
    + destruct (HF i ltac:(lia)) as (-> & _). auto.
    + intros j Hj. destruct (HF j ltac:(lia)) as (_ & -> & ->). auto.
    + apply IH. intros j Hj. apply HF. lia.
  - pose proof (parse_le _ _ _ _ _ _ Hp) as Hle.
    apply parse_grp with (e := e); auto.
    + destruct (HF i ltac:(lia)) as (-> & _). auto.
    + intros j Hj. destruct (HF j ltac:(lia)) as (-> & -> & ->). auto.
    + intros j j' Hj Hj'.
      destruct (HF j ltac:(lia)) as (_ & -> & _).
      destruct (HF j' ltac:(lia)) as (_ & -> & _). auto.
    + apply IH. intros j Hj. apply HF. lia.
Qed.

(** The block that a committed group leaves in [I]. *)
Lemma parse_block I' W' P a m :
  permP b P -> 0 <= a -> 1 <= m -> a + m <= n + 1 ->
  (forall j, a <= j < a + m -> W'.[P j] = a + m - 1) ->
  (forall j j', a <= j < a + m -> a <= j' < a + m ->
     agree b (h + h) (P j) (P j')) ->
  (forall j, a < j < a + m -> I'.[j] = P j) ->
  I'.[a] = (if m =? 1 then -1 else P a) ->
  parse b (h + h) I' W' P a (a + m).
Proof.
  intros (Hr & Hi & Hs) Ha Hm Hn HW Hag HI HIa.
  destruct (Z.eqb_spec m 1) as [->|Hm1].
  - apply parse_run with (k := 1); auto; try lia.
    + intros j Hj. rewrite HW by lia. lia.
    + constructor.
  - replace (a + m) with (a + m - 1 + 1) by lia.
    apply parse_grp with (e := a + m - 1); try lia.
    + rewrite HIa. apply Hr. unfold inr. lia.
    + intros j Hj.
      assert (HIj : I'.[j] = P j).
      { destruct (Z.eq_dec j a) as [->|]; auto. apply HI. lia. }
      split; auto. split; [apply HW; lia|].
      set (j' := if Z.eq_dec j a then a + 1 else a).
      assert (Hj' : a <= j' < a + m /\ j' <> j).
      { unfold j'. destruct (Z.eq_dec j a); lia. }
      assert (Hne : P j <> P j').
      { intros E. apply Hi in E; unfold inr; lia. }
      apply (agree_bound b (h + h) (P j) (P j') Hne). apply Hag; lia.
    + intros j j' Hj Hj'. apply Hag; lia.
    + constructor.
Qed.

End SplitSem.

(** ** The loops of [split] *)

Section SplitModel.

Variable w : Z.
Hypothesis w_pos : 0 < w.
Variable b : list byte.
Local Abbreviation n := (len b).
Hypothesis fits : n + 1 < 2 ^ (w - 1).
Variable h : Z.
Hypothesis h_pos : 0 < h.
Variables v v2 : vref.

Local Abbreviation sinv s P := (ginv b h (arrI s) (rd v s) (rd v2 s) P).
Local Abbreviation sact s P a c e := (active b h (arrI s) (rd v2 s) P a c e).
Local Abbreviation sout a c s P s' P' :=
  (same_outside b a c (arrI s) (rd v2 s) P (arrI s') (rd v2 s') P').
Local Abbreviation skey s P t := (keyof h (rd v s) P t).
Local Abbreviation vfix s s' := (arrV s' = arrV s /\ arrV2 s' = arrV2 s).

Lemma ws z : - (n + 1) <= z <= n + 1 -> wrap w z = z.
Proof. intros H. apply wrap_small; auto. lia. Qed.

Ltac unw :=
  unfold wadd, wsub, wneg, wquot;
  repeat match goal with
         | |- context [wrap w ?z] => rewrite (ws z) by lia
         end.

Ltac unw_in H :=
  unfold wadd, wsub, wneg, wquot in H;
  repeat match type of H with
         | context [wrap w ?z] => rewrite (ws z) in H by lia
         end.

Lemma rd_vfix r s s' : vfix s s' -> rd r s' = rd r s.
Proof. intros (H1 & H2). destruct r; simpl; auto. Qed.

Lemma key_ok s P a c e t :
  sinv s P -> sact s P a c e -> a <= t < c ->
  key w v h s t = Ok (skey s P t).
Proof.
  intros Hg Ha Ht.
  pose proof Hg as (HlI & HlK & HlW & HP & _).
  destruct (active_inr b h h_pos _ _ P a c e t HP Ha Ht) as (H1 & H2 & H3).
  destruct Ha as (Hac & Hce & Hin & _). destruct (Hin t Ht) as (E & _).
  unfold inr in *. unfold key.
  rewrite getI_ok by lia. simpl. rewrite E. unfold wadd. rewrite ws by lia.
  rewrite getV_ok by lia. reflexivity.
Qed.

Lemma swap_store s P a c e x y :
  sinv s P -> sact s P a c e -> a <= x < c -> a <= y < c ->
  exists s', swapI s x y = Ok s' /\ vfix s s' /\
    sinv s' (swapf P x y) /\ sact s' (swapf P x y) a c e /\
    sout a c s P s' (swapf P x y).
Proof.
  intros Hg Ha Hx Hy.
  pose proof Hg as (HlI & _). pose proof Ha as (Hac & Hce & _).
  exists (withI s (swapA (arrI s) x y)).
  split; [apply swapI_ok; lia|]. split; [split; reflexivity|].
  rewrite arrI_withI, !rd_withI. apply swap_inv; auto.
Qed.

Lemma sel_scan_ok fuel s P st_ ln k c e :
  0 <= st_ -> 0 <= ln -> st_ + ln = c ->
  sinv s P -> sact s P k c e -> k < c ->
  c - k < Z.of_nat fuel ->
  exists i j x s' P',
    sel_scan w fuel v st_ ln h k (1, 1, skey s P k, s) = Ok (i, j, x, s') /\
    vfix s s' /\ 1 <= j /\ k + j <= c /\
    sinv s' P' /\ sact s' P' k c e /\ sout k c s P s' P' /\
    (forall t, k <= t < k + j -> skey s' P' t = x) /\
    (forall t, k + j <= t < c -> x < skey s' P' t).
Proof.
  intros Hst Hln Hc Hg Ha Hkc Hf.
  pose proof Ha as (Hac & Hce & _).
  pose (Inv := fun st : Z * Z * Z * store =>
    let '(i, j, x, s') := st in
    exists P', vfix s s' /\ 1 <= i /\ k + i <= c /\ 1 <= j <= i /\
      sinv s' P' /\ sact s' P' k c e /\ sout k c s P s' P' /\
      (forall t, k <= t < k + j -> skey s' P' t = x) /\
      (forall t, k + j <= t < k + i -> x < skey s' P' t)).
  unfold sel_scan.
  match goal with |- context [while fuel ?cd ?bd _] =>
    destruct (while_rule Inv (fun st => let '(i, _, _, _) := st in c - k - i)
                cd bd) with (fuel := fuel) (s := (1, 1, skey s P k, s))
      as ([[[i j] x] s'] & Hw & HI & Hcond)
  end.
  - intros [[[i j] x] s'] (P' & _ & Hi & Hki & _). lia.
  - intros [[[i j] x] s'] (P' & Hv & Hi & Hki & Hj & Hg' & Ha' & Ho & Heq & Hgt).
    unw. eexists; split; [reflexivity|].
    intros Hlt. apply Z.ltb_lt in Hlt.
    rewrite !(key_ok s' P' k c e (k + i)) by (auto; lia).
    set (c1 := skey s' P' (k + i)). cbn [bind].
    assert (Hxk : skey s' P' k = x) by (apply Heq; lia).
    destruct (Z.ltb_spec c1 x) as [Hc1|Hc1].
    + (* a new minimum *)
      cbn [bind]. rewrite Z.eqb_refl.
      destruct (swap_store s' P' k c e (k + i) (k + 0) Hg' Ha')
        as (s'' & Hsw & Hv' & Hg'' & Ha'' & Ho''); try lia.
      unw. rewrite Hsw. cbn [bind].
      unw.
      eexists; split; [reflexivity|]. split; [|lia].
      exists (swapf P' (k + i) (k + 0)).
      split; [destruct Hv, Hv'; split; congruence|].
      split; [lia|]. split; [lia|]. split; [lia|].
      split; [auto|]. split; [auto|].
      split; [eapply same_outside_trans; eauto|].
      rewrite (rd_vfix v s' s'' Hv').
      split; intros t Ht; rewrite keyof_swapf.
      * destruct (Z.eqb_spec t (k + i)); [lia|].
        destruct (Z.eqb_spec t (k + 0)); [reflexivity|lia].
      * destruct (Z.eqb_spec t (k + i)).
        { replace (k + 0) with k by lia. lia. }
        destruct (Z.eqb_spec t (k + 0)); [lia|].
        destruct (Z_lt_dec t (k + j)).
        -- rewrite Heq by lia. lia.
        -- specialize (Hgt t ltac:(lia)). lia.
    + cbn [bind].
      destruct (Z.eqb_spec c1 x) as [Hc1x|Hc1x].
      * destruct (swap_store s' P' k c e (k + i) (k + j) Hg' Ha')
          as (s'' & Hsw & Hv' & Hg'' & Ha'' & Ho''); try lia.
        unw. rewrite Hsw. cbn [bind].
        unw.
        eexists; split; [reflexivity|]. split; [|lia].
        exists (swapf P' (k + i) (k + j)).
        split; [destruct Hv, Hv'; split; congruence|].
        split; [lia|]. split; [lia|]. split; [lia|].
        split; [auto|]. split; [auto|].
        split; [eapply same_outside_trans; eauto|].
        rewrite (rd_vfix v s' s'' Hv').
        split; intros t Ht; rewrite keyof_swapf.
        -- destruct (Z.eqb_spec t (k + i)).
           { replace j with i by lia. exact Hc1x. }
           destruct (Z.eqb_spec t (k + j)); [exact Hc1x|]. apply Heq. lia.
        -- destruct (Z.eqb_spec t (k + i)); [apply Hgt; lia|].
           destruct (Z.eqb_spec t (k + j)); [lia|]. apply Hgt. lia.
      * cbn [bind]. unw.
        eexists; split; [reflexivity|]. split; [|lia].
        exists P'. split; [auto|].
        split; [lia|]. split; [lia|]. split; [lia|].
        split; [auto|]. split; [auto|]. split; [auto|].
        split; [auto|]. intros t Ht.
        destruct (Z.eq_dec t (k + i)); [subst; fold c1; lia|]. apply Hgt. lia.
  - exists P. split; [auto|]. split; [lia|]. split; [lia|]. split; [lia|].
    split; [auto|]. split; [auto|]. split; [apply same_outside_refl|].
    split.
    + intros t Ht. replace t with k by lia. reflexivity.
    + intros t Ht. lia.
  - simpl. lia.
  - destruct HI as (P' & Hv & Hi & Hki & Hj & Hg' & Ha' & Ho & Heq & Hgt).
    unw_in Hcond.
    injection Hcond as Hcond. apply Z.ltb_ge in Hcond.
    exists i, j, x, s', P'. split; [exact Hw|].
    split; [auto|]. split; [lia|]. split; [lia|].
    split; [auto|]. split; [auto|]. split; [auto|].
    split; [auto|]. intros t Ht. apply Hgt. lia.
Qed.

Lemma wr_wr r s a a' : wr r (wr r s a) a' = wr r s a'.
Proof. destruct r; reflexivity. Qed.

Lemma wr_rd r s : wr r s (rd r s) = s.
Proof. destruct r, s; reflexivity. Qed.

Lemma rd_wr_other s a : v <> v2 -> rd v (wr v2 s a) = rd v s.
Proof. intros H. destruct v, v2; try congruence; reflexivity. Qed.

Lemma commit_ok fuel s P base m g :
  len (arrI s) = n + 1 -> len (rd v2 s) = n + 1 -> permP b P ->
  0 <= base -> 0 <= m -> base + m <= n + 1 ->
  (forall t, base <= t < base + m -> (arrI s).[t] = P t) ->
  m < Z.of_nat fuel ->
  exists W',
    commit w fuel v2 base m g s = Ok (wr v2 s W') /\ len W' = n + 1 /\
    (forall t, inr b t ->
       W'.[P t] = if (base <=? t) && (t <? base + m) then g
                  else (rd v2 s).[P t]).
Proof.
  intros HlI HlW (Hr & Hi & Hs) Hb Hm Hbm HI Hf.
  pose (Inv := fun st : Z * store =>
    let '(i, s') := st in
    exists Wi, s' = wr v2 s Wi /\ 0 <= i <= m /\ len Wi = n + 1 /\
      forall t, inr b t ->
        Wi.[P t] = if (base <=? t) && (t <? base + i) then g
                   else (rd v2 s).[P t]).
  unfold commit.
  match goal with |- context [while fuel ?cd ?bd _] =>
    destruct (while_rule Inv (fun st => let '(i, _) := st in m - i)
                cd bd) with (fuel := fuel) (s := (0, s))
      as ([i s'] & Hw & HInv & Hcond)
  end.
  - intros [i s'] (Wi & _ & Hi' & _). lia.
  - intros [i s'] (Wi & -> & Hi' & HlWi & HWi).
    eexists; split; [reflexivity|]. intros Hlt. apply Z.ltb_lt in Hlt.
    unw.
    rewrite getI_ok by (rewrite arrI_wr; lia). cbn [bind].
    rewrite arrI_wr, HI by lia.
    assert (Hp : inr b (P (base + i))) by (apply Hr; unfold inr; lia).
    rewrite setV_ok by (rewrite rd_wr_same; unfold inr in Hp; lia).
    cbn [bind]. rewrite rd_wr_same, wr_wr.
    eexists; split; [reflexivity|]. split; [|lia].
    exists (updZ Wi (P (base + i)) g). split; [reflexivity|].
    split; [lia|]. split; [now rewrite len_updZ|].
    intros t Ht. pose proof (Hr t Ht) as Hpt.
    rewrite idx_updZ by (unfold inr in *; lia). rewrite HWi by auto.
    destruct (Z.eqb_spec (P t) (P (base + i))) as [E|E].
    + apply Hi in E; auto; [|unfold inr; lia]. subst t.
      destruct (Z.leb_spec base (base + i)); [|lia].
      destruct (Z.ltb_spec (base + i) (base + (i + 1))); [|lia]. reflexivity.
    + assert (t <> base + i) by congruence.
      destruct (Z.leb_spec base t); simpl; auto.
      destruct (Z.ltb_spec t (base + i)), (Z.ltb_spec t (base + (i + 1)));
        auto; lia.
  - exists (rd v2 s). split; [now rewrite wr_rd|]. split; [lia|]. split; [auto|].
    intros t Ht. destruct (Z.leb_spec base t); simpl; auto.
    destruct (Z.ltb_spec t (base + 0)); auto; lia.
  - simpl. lia.
  - destruct HInv as (Wi & -> & Hi' & HlWi & HWi).
    injection Hcond as Hcond. apply Z.ltb_ge in Hcond.
    exists Wi. rewrite Hw. cbn [bind]. split; [reflexivity|]. split; [auto|].
    replace m with i by lia. exact HWi.
Qed.

(** One group is committed and, when it has one suffix, marked. *)
Lemma commit_block fuel s P a c e m :
  sinv s P -> sact s P a c e -> 1 <= m -> a + m <= c ->
  (forall t t', a <= t < a + m -> a + m <= t' < c -> slt b (P t) (P t')) ->
  (forall t t', a <= t < a + m -> a <= t' < a + m ->
     agree b (h + h) (P t) (P t')) ->
  m < Z.of_nat fuel ->
  exists s1 s',
    commit w fuel v2 a m (a + m - 1) s = Ok s1 /\
    (if m =? 1 then setI s1 a (-1) else Ok s1) = Ok s' /\
    sinv s' P /\ sact s' P (a + m) c e /\ sout a (a + m) s P s' P /\
    parse b (h + h) (arrI s') (rd v2 s') P a (a + m) /\
    confined (rd v2 s') P a (a + m) /\
    (v <> v2 -> rd v s' = rd v s).
Proof.
  intros Hg Ha Hm Hamc Hsel Hag Hf.
  pose proof Hg as (HlI & HlK & HlW & HP & HG & HMW & HAW & HMK & HAK).
  pose proof Ha as (Hac & Hce & Hin & Hbef & Haft).
  destruct (commit_ok fuel s P a m (a + m - 1)) as (W' & Hcm & HlW' & HW');
    auto; try lia.
  { intros t Ht. apply Hin. lia. }
  destruct (commit_sem b h (arrI s) (rd v s) (rd v2 s) P a c e m W'
              (rd v (wr v2 s W'))) as (Hg1 & Ha1); auto.
  { rewrite rd_wr. destruct (vref_eqb v v2); auto. }
  assert (HWin : forall t, a <= t < a + m -> W'.[P t] = a + m - 1).
  { intros t Ht. rewrite HW' by (unfold inr; lia).
    destruct (Z.leb_spec a t); [|lia]. destruct (Z.ltb_spec t (a + m)); [|lia].
    reflexivity. }
  assert (HWout : forall t, inr b t -> ~ (a <= t < a + m) ->
            W'.[P t] = (rd v2 s).[P t]).
  { intros t Ht Hn. rewrite HW' by auto.
    destruct (Z.leb_spec a t); simpl; auto.
    destruct (Z.ltb_spec t (a + m)); auto. lia. }
  exists (wr v2 s W').
  exists (if m =? 1 then withI (wr v2 s W') (updZ (arrI s) a (-1))
          else wr v2 s W').
  split; [exact Hcm|]. split.
  { destruct (m =? 1); auto. rewrite setI_ok by (rewrite arrI_wr; lia).
    now rewrite arrI_wr. }
  set (I' := if m =? 1 then updZ (arrI s) a (-1) else arrI s).
  assert (EI : arrI (if m =? 1 then withI (wr v2 s W') (updZ (arrI s) a (-1))
                     else wr v2 s W') = I').
  { unfold I'. destruct (m =? 1); [reflexivity|apply arrI_wr]. }
  assert (EW : forall r, rd r (if m =? 1
                  then withI (wr v2 s W') (updZ (arrI s) a (-1))
                  else wr v2 s W') = rd r (wr v2 s W')).
  { intros r. destruct (m =? 1); [apply rd_withI|reflexivity]. }
  rewrite EI, !EW, rd_wr_same.
  assert (HlI' : len I' = n + 1).
  { unfold I'. destruct (m =? 1); [rewrite len_updZ|]; auto. }
  assert (HI' : forall t, 0 <= t -> t <> a -> I'.[t] = (arrI s).[t]).
  { intros t Ht Hne. unfold I'. destruct (m =? 1); auto.
    apply idx_updZ_other; lia. }
  split; [|split; [|split; [|split; [|split]]]].
  - destruct Hg1 as (_ & G). split; auto.
  - destruct Ha1 as (A1 & A2 & A3 & A4). split; [auto|]. split; [auto|].
    split; [|auto]. intros j Hj. rewrite HI' by lia. apply A3. auto.
  - intros j Hj Hn. split; [auto|]. split.
    + apply HI'; unfold inr in *; lia.
    + apply HWout; auto.
  - apply parse_block; auto; try lia.
    + intros j Hj. rewrite HI' by lia. apply Hin. lia.
    + unfold I'. destruct (Z.eqb_spec m 1).
      * apply idx_updZ_same. lia.
      * apply Hin. lia.
  - intros j Hj. rewrite HWin by lia. lia.
  - intros Hne. now apply rd_wr_other.
Qed.

(** What is known of a range after its first slots were split. *)
Lemma active_suffix s P s' P' a m c e :
  sact s P a c e -> a <= m <= c ->
  sout a m s P s' P' -> confined (rd v2 s') P' a m ->
  sact s' P' m c e.
Proof.
  intros (Hac & Hce & Hin & Hbef & Haft) Hm Ho Hcf.
  assert (Hsame : forall j, inr b j -> m <= j ->
            P' j = P j /\ (arrI s').[j] = (arrI s).[j] /\
            (rd v2 s').[P j] = (rd v2 s).[P j]).
  { intros j Hj Hge. apply Ho; auto. lia. }
  split; [lia|]. split; [lia|]. split; [|split].
  - intros j Hj. destruct (Hsame j ltac:(unfold inr; lia) ltac:(lia)) as (-> & -> & ->).
    apply Hin. lia.
  - intros j Hj. destruct (Z_lt_dec j a) as [Hja|Hja].
    + destruct (Ho j ltac:(unfold inr; lia) ltac:(lia)) as (-> & _ & ->).
      specialize (Hbef j ltac:(lia)). lia.
    + specialize (Hcf j ltac:(lia)). lia.
  - intros j j' Hj Hj'.
    destruct (Hsame j ltac:(unfold inr; lia) ltac:(lia)) as (-> & _ & _).
    destruct (Hsame j' ltac:(unfold inr; lia) ltac:(lia)) as (-> & _ & ->).
    apply Haft; lia.
Qed.

(** The parsed slots stay parsed when later slots change. *)
Lemma parse_keep hh s P s' P' a k c :
  parse b hh (arrI s) (rd v2 s) P a k -> a <= k ->
  sout k c s P s' P' -> 0 <= a -> k <= n + 1 ->
  parse b hh (arrI s') (rd v2 s') P' a k.
Proof.
  intros Hp Hak Ho Ha Hk. eapply parse_frame; eauto.
  intros j Hj. destruct (Ho j ltac:(unfold inr; lia) ltac:(lia)) as (-> & -> & ->).
  auto.
Qed.

Lemma confined_keep s P s' P' a k c :
  confined (rd v2 s) P a k -> sout k c s P s' P' -> 0 <= a -> k <= n + 1 ->
  confined (rd v2 s') P' a k.
Proof.
  intros Hcf Ho Ha Hk j Hj.
  destruct (Ho j ltac:(unfold inr; lia) ltac:(lia)) as (-> & _ & ->).
  apply Hcf. lia.
Qed.

Lemma confined_app W P a k c :
  confined W P a k -> confined W P k c -> a <= k <= c -> confined W P a c.
Proof.
  intros H1 H2 Hk j Hj. destruct (Z_lt_dec j k).
  - specialize (H1 j ltac:(lia)). lia.
  - specialize (H2 j ltac:(lia)). lia.
Qed.

Lemma sel_sort_ok fuel s P a ln c e :
  0 <= ln -> a + ln = c -> sinv s P -> sact s P a c e ->
  c - a < Z.of_nat fuel ->
  exists s' P',
    sel_sort w fuel v v2 a ln h s = Ok s' /\
    sinv s' P' /\ sout a c s P s' P' /\
    parse b (h + h) (arrI s') (rd v2 s') P' a c /\
    confined (rd v2 s') P' a c /\
    (v <> v2 -> rd v s' = rd v s).
Proof.
  intros Hln Hc Hg Ha Hf.
  pose proof Ha as (Hac & Hce & _).
  pose (Inv := fun st : Z * store =>
    let '(k, s') := st in
    exists P', a <= k <= c /\ sinv s' P' /\ sact s' P' k c e /\
      sout a c s P s' P' /\
      parse b (h + h) (arrI s') (rd v2 s') P' a k /\
      confined (rd v2 s') P' a k /\
      (v <> v2 -> rd v s' = rd v s)).
  unfold sel_sort.
  match goal with |- context [while fuel ?cd ?bd _] =>
    destruct (while_rule Inv (fun st => let '(k, _) := st in c - k)
                cd bd) with (fuel := fuel) (s := (a, s))
      as ([k s'] & Hw & HInv & Hcond)
  end.
  - intros [k s'] (P' & Hk & _). lia.
  - intros [k s'] (P' & Hk & Hg' & Ha' & Ho & Hp & Hcf & Hv).
    unw. rewrite Hc.
    eexists; split; [reflexivity|]. intros Hlt. apply Z.ltb_lt in Hlt.
    rewrite (key_ok s' P' k c e k) by (auto; lia). cbn [bind].
    destruct (sel_scan_ok fuel s' P' a ln k c e)
      as (i & j & x & s1 & P1 & Hsc & Hv1 & Hj & Hkj & Hg1 & Ha1 & Ho1 & Heq & Hgt);
      auto; try lia.
    rewrite Hsc. cbn [bind].
    destruct (commit_block fuel s1 P1 k c e j)
      as (s2 & s3 & Hcm & Hmk & Hg3 & Ha3 & Ho3 & Hp3 & Hcf3 & Hv3);
      auto; try lia.
    { intros t t' Ht Ht'.
      apply (key_lt_slt b h h_pos (arrI s1) (rd v s1) (rd v2 s1) P1 k c e);
        auto; try lia.
      rewrite (Heq t Ht). apply Hgt. lia. }
    { intros t t' Ht Ht'.
      apply (key_eq_agree b h h_pos (arrI s1) (rd v s1) (rd v2 s1) P1 k c e);
        auto; try lia.
      rewrite (Heq t Ht), (Heq t' Ht'). reflexivity. }
    unw.
    rewrite Hcm. cbn [bind]. rewrite Hmk. cbn [bind].
    eexists; split; [reflexivity|]. split; [|lia].
    exists P1.
    assert (Ho13 : sout k c s' P' s3 P1).
    { eapply same_outside_trans; [exact Ho1|].
      eapply same_outside_weaken; [| |exact Ho3]; lia. }
    split; [lia|]. split; [auto|]. split; [auto|].
    split; [eapply same_outside_trans; [exact Ho|];
            eapply same_outside_weaken; [| |exact Ho13]; lia|].
    split. { eapply parse_app; [|exact Hp3].
             eapply parse_keep; eauto; lia. }
    split. { eapply confined_app; [|exact Hcf3|lia].
             eapply confined_keep; eauto; lia. }
    intros Hne. rewrite Hv3, (rd_vfix v s' s1 Hv1) by auto. auto.
  - exists P. split; [lia|]. split; [auto|]. split; [auto|].
    split; [apply same_outside_refl|]. split; [constructor|].
    split; [intros j Hj; lia|]. auto.
  - simpl. lia.
  - destruct HInv as (P' & Hk & Hg' & Ha' & Ho & Hp & Hcf & Hv).
    unw_in Hcond.
    rewrite Hc in Hcond.
    injection Hcond as Hcond. apply Z.ltb_ge in Hcond.
    assert (k = c) by lia. subst k.
    rewrite Hw. cbn [bind]. exists s', P'.
    split; [reflexivity|]. auto.
Qed.

Lemma active_prefix s P a m c e :
  sact s P a c e -> a <= m <= c ->
  (forall t t', a <= t < m -> m <= t' < c -> slt b (P t) (P t')) ->
  sact s P a m e.
Proof.
  intros (Hac & Hce & Hin & Hbef & Haft) Hm HF.
  split; [lia|]. split; [lia|]. split; [|split]; auto.
  - intros j Hj. apply Hin. lia.
  - intros j j' Hj Hj' He. destruct (Z_lt_dec j' c).
    + apply HF; lia.
    + apply Haft; auto; lia.
Qed.

Lemma count_ok fuel s P a ln c e x :
  0 <= ln -> a + ln = c -> sinv s P -> sact s P a c e ->
  c - a < Z.of_nat fuel ->
  count_lt_eq w fuel v a ln h x s
  = Ok (cnt (fun t => skey s P t <? x) a c,
        cnt (fun t => skey s P t =? x) a c).
Proof.
  intros Hln Hc Hg Ha Hf. pose proof Ha as (Hac & Hce & _).
  pose (Inv := fun st : Z * Z * Z =>
    let '(i, jj, kk) := st in
    a <= i <= c /\ jj = cnt (fun t => skey s P t <? x) a i /\
    kk = cnt (fun t => skey s P t =? x) a i).
  unfold count_lt_eq.
  match goal with |- context [while fuel ?cd ?bd _] =>
    destruct (while_rule Inv (fun st => let '(i, _, _) := st in c - i)
                cd bd) with (fuel := fuel) (s := (a, 0, 0))
      as ([[i jj] kk] & Hw & HInv & Hcond)
  end.
  - intros [[i jj] kk] (Hi & _). lia.
  - intros [[i jj] kk] (Hi & Hjj & Hkk). unw. rewrite Hc.
    eexists; split; [reflexivity|]. intros Hlt. apply Z.ltb_lt in Hlt.
    rewrite !(key_ok s P a c e i) by (auto; lia). cbn [bind].
    pose proof (cnt_bounds (fun t => skey s P t <? x) a i ltac:(lia)).
    pose proof (cnt_bounds (fun t => skey s P t =? x) a i ltac:(lia)).
    unw.
    eexists; split; [reflexivity|]. split; [|lia].
    split; [lia|]. rewrite !cnt_snoc by lia. subst jj kk.
    split; [destruct (skey s P i <? x)|destruct (skey s P i =? x)]; lia.
  - split; [lia|]. now rewrite !cnt_empty.
  - simpl. lia.
  - destruct HInv as (Hi & Hjj & Hkk). unw_in Hcond. rewrite Hc in Hcond.
    injection Hcond as Hcond. apply Z.ltb_ge in Hcond.
    assert (i = c) by lia. subst i.
    rewrite Hw. cbn [bind]. now subst.
Qed.

Lemma cnt_key_swap (cmp : Z -> bool) K P x y a c :
  a <= x < c -> a <= y < c ->
  cnt (fun t => cmp (keyof h K (swapf P x y) t)) a c
  = cnt (fun t => cmp (keyof h K P t)) a c.
Proof.
  intros Hx Hy. exact (cnt_swapf (fun p => cmp K.[p + h]) P a c x y Hx Hy).
Qed.

Lemma walk_lt_ok fuel s P a c e x jj kk :
  sinv s P -> sact s P a c e ->
  cnt (fun t => skey s P t <? x) a c = jj - a ->
  cnt (fun t => skey s P t =? x) a c = kk - jj ->
  a <= jj -> jj <= kk -> kk <= c ->
  c - a < Z.of_nat fuel ->
  exists j k s' P',
    walk_lt w fuel v h x jj kk (a, 0, 0, s) = Ok (jj, j, k, s') /\
    vfix s s' /\ sinv s' P' /\ sact s' P' a c e /\ sout a c s P s' P' /\
    cnt (fun t => skey s' P' t <? x) a c = jj - a /\
    cnt (fun t => skey s' P' t =? x) a c = kk - jj /\
    0 <= j /\ jj + j <= kk /\ 0 <= k /\ kk + k <= c /\
    (forall t, a <= t < jj -> skey s' P' t < x) /\
    (forall t, jj <= t < jj + j -> skey s' P' t = x) /\
    (forall t, kk <= t < kk + k -> x < skey s' P' t).
Proof.
  intros Hg Ha Hcl Hce' Hajj Hjk Hkc Hf.
  pose proof Ha as (Hac & Hce & _).
  pose (Inv := fun st : Z * Z * Z * store =>
    let '(i, j, k, s') := st in
    exists P', vfix s s' /\ a <= i <= jj /\ 0 <= j /\ jj + j <= kk /\
      0 <= k /\ kk + k <= c /\
      sinv s' P' /\ sact s' P' a c e /\ sout a c s P s' P' /\
      cnt (fun t => skey s' P' t <? x) a c = jj - a /\
      cnt (fun t => skey s' P' t =? x) a c = kk - jj /\
      (forall t, a <= t < i -> skey s' P' t < x) /\
      (forall t, jj <= t < jj + j -> skey s' P' t = x) /\
      (forall t, kk <= t < kk + k -> x < skey s' P' t)).
  unfold walk_lt.
  match goal with |- context [while fuel ?cd ?bd _] =>
    destruct (while_rule Inv
                (fun st => let '(i, j, k, _) := st in
                           (jj - i) + (kk - jj - j) + (c - kk - k))
                cd bd) with (fuel := fuel) (s := (a, 0, 0, s))
      as ([[[i j] k] s'] & Hw & HInv & Hcond)
  end.
  - intros [[[i j] k] s'] (P' & _ & Hi & Hj & Hjk' & Hk & Hkc' & _). lia.
  - intros [[[i j] k] s']
      (P' & Hv & Hi & Hj & Hjk' & Hk & Hkc' & Hg' & Ha' & Ho & Hcl' & Hce'' &
       Rlt & Req & Rgt).
    eexists; split; [reflexivity|]. intros Hlt. apply Z.ltb_lt in Hlt.
    rewrite !(key_ok s' P' a c e i) by (auto; lia).
    set (c1 := skey s' P' i). cbn [bind].
    destruct (Z.ltb_spec c1 x) as [Hc1|Hc1].
    + unw. eexists; split; [reflexivity|]. split; [|lia].
      exists P'. split; [auto|]. split; [lia|].
      do 4 (split; [lia|]). do 5 (split; [auto|]).
      split; [|auto]. intros t Ht.
      destruct (Z.eq_dec t i); [subst; exact Hc1|apply Rlt; lia].
    + destruct (Z.eqb_spec c1 x) as [Hc1x|Hc1x].
      * (* an equal key goes to the middle *)
        assert (Hroom : jj + j < kk).
        { pose proof (cnt_lower (fun t => skey s' P' t =? x) a c i jj (jj + j)
                        ltac:(lia) ltac:(lia)) as Hlow.
          rewrite Hce'' in Hlow. specialize (Hlow (proj2 (Z.eqb_eq _ _) Hc1x)).
          assert (forall t, jj <= t < jj + j -> (skey s' P' t =? x) = true).
          { intros t Ht. apply Z.eqb_eq. auto. }
          specialize (Hlow H). lia. }
        destruct (swap_store s' P' a c e i (jj + j) Hg' Ha')
          as (s'' & Hsw & Hv' & Hg'' & Ha'' & Ho''); try lia.
        unw. rewrite Hsw. cbn [bind].
        eexists; split; [reflexivity|]. split; [|lia].
        exists (swapf P' i (jj + j)).
        split; [destruct Hv, Hv'; split; congruence|].
        split; [lia|]. do 4 (split; [lia|]).
        split; [auto|]. split; [auto|].
        split; [eapply same_outside_trans; eauto|].
        rewrite (rd_vfix v s' s'' Hv').
        split; [rewrite (cnt_key_swap (fun z => z <? x)) by lia; auto|].
        split; [rewrite (cnt_key_swap (fun z => z =? x)) by lia; auto|].
        split; [|split]; intros t Ht; rewrite keyof_swapf.
        -- destruct (Z.eqb_spec t i); [lia|].
           destruct (Z.eqb_spec t (jj + j)); [lia|]. apply Rlt; lia.
        -- destruct (Z.eqb_spec t i); [lia|].
           destruct (Z.eqb_spec t (jj + j)); [exact Hc1x|]. apply Req; lia.
        -- destruct (Z.eqb_spec t i); [lia|].
           destruct (Z.eqb_spec t (jj + j)); [lia|]. apply Rgt; lia.
      * (* a greater key goes to the end *)
        assert (Hroom : kk + k < c).
        { pose proof (cnt_tri (fun t => skey s' P' t) x a c ltac:(lia)) as Htri.
          cbv beta in Htri.
          pose proof (cnt_lower (fun t => x <? skey s' P' t) a c i kk (kk + k)
                        ltac:(lia) ltac:(lia)) as Hlow.
          assert (Hi1 : (x <? skey s' P' i) = true) by (apply Z.ltb_lt; fold c1; lia).
          assert (forall t, kk <= t < kk + k -> (x <? skey s' P' t) = true).
          { intros t Ht. apply Z.ltb_lt. auto. }
          specialize (Hlow Hi1 H). lia. }
        destruct (swap_store s' P' a c e i (kk + k) Hg' Ha')
          as (s'' & Hsw & Hv' & Hg'' & Ha'' & Ho''); try lia.
        unw. rewrite Hsw. cbn [bind].
        eexists; split; [reflexivity|]. split; [|lia].
        exists (swapf P' i (kk + k)).
        split; [destruct Hv, Hv'; split; congruence|].
        split; [lia|]. do 4 (split; [lia|]).
        split; [auto|]. split; [auto|].
        split; [eapply same_outside_trans; eauto|].
        rewrite (rd_vfix v s' s'' Hv').
        split; [rewrite (cnt_key_swap (fun z => z <? x)) by lia; auto|].
        split; [rewrite (cnt_key_swap (fun z => z =? x)) by lia; auto|].
        split; [|split]; intros t Ht; rewrite keyof_swapf.
        -- destruct (Z.eqb_spec t i); [lia|].
           destruct (Z.eqb_spec t (kk + k)); [lia|]. apply Rlt; lia.
        -- destruct (Z.eqb_spec t i); [lia|].
           destruct (Z.eqb_spec t (kk + k)); [lia|]. apply Req; lia.
        -- destruct (Z.eqb_spec t i); [lia|].
           destruct (Z.eqb_spec t (kk + k)); [fold c1; lia|]. apply Rgt; lia.
  - exists P. split; [auto|]. split; [lia|]. do 4 (split; [lia|]).
    split; [auto|]. split; [auto|]. split; [apply same_outside_refl|].
    split; [auto|]. split; [auto|].
    split; [|split]; intros t Ht; lia.
  - simpl. lia.
  - destruct HInv as
      (P' & Hv & Hi & Hj & Hjk' & Hk & Hkc' & Hg' & Ha' & Ho & Hcl' & Hce'' &
       Rlt & Req & Rgt).
    injection Hcond as Hcond. apply Z.ltb_ge in Hcond.
    assert (i = jj) by lia. subst i.
    exists j, k, s', P'. split; [exact Hw|]. auto 20.
Qed.

(** When the [<] bucket is full of smaller keys, no later key is smaller. *)
Lemma no_lt_after (kf : Z -> Z) x a jj c t :
  a <= jj <= c ->
  cnt (fun t => kf t <? x) a c = jj - a ->
  (forall t, a <= t < jj -> kf t < x) ->
  jj <= t < c -> x <= kf t.
Proof.
  intros Hjj Hcnt Hall Ht.
  rewrite (cnt_split _ a jj c) in Hcnt by lia.
  rewrite (cnt_all _ a jj) in Hcnt.
  2: lia.
  2:{ intros u Hu. apply Z.ltb_lt. auto. }
  assert (Hz : cnt (fun t => kf t <? x) jj c = 0) by lia.
  pose proof (cnt_zero _ jj c t Hz Ht) as Hf. cbv beta in Hf.
  apply Z.ltb_ge in Hf. exact Hf.
Qed.

Lemma walk_eq_ok fuel s P a c e x jj kk j0 k0 :
  sinv s P -> sact s P a c e ->
  cnt (fun t => skey s P t <? x) a c = jj - a ->
  cnt (fun t => skey s P t =? x) a c = kk - jj ->
  a <= jj -> 0 <= j0 -> jj + j0 <= kk -> 0 <= k0 -> kk + k0 <= c ->
  (forall t, a <= t < jj -> skey s P t < x) ->
  (forall t, jj <= t < jj + j0 -> skey s P t = x) ->
  (forall t, kk <= t < kk + k0 -> x < skey s P t) ->
  c - a < Z.of_nat fuel ->
  exists j k s' P',
    walk_eq w fuel v h x jj kk (j0, k0, s) = Ok (j, k, s') /\
    vfix s s' /\ sinv s' P' /\ sact s' P' a c e /\ sout a c s P s' P' /\
    (forall t, a <= t < jj -> skey s' P' t < x) /\
    (forall t, jj <= t < kk -> skey s' P' t = x) /\
    (forall t, kk <= t < c -> x < skey s' P' t).
Proof.
  intros Hg Ha Hcl Hce' Hajj Hj0 Hjk0 Hk0 Hkc0 Rlt0 Req0 Rgt0 Hf.
  pose proof Ha as (Hac & Hce & _).
  pose (Inv := fun st : Z * Z * store =>
    let '(j, k, s') := st in
    exists P', vfix s s' /\ 0 <= j /\ jj + j <= kk /\
      0 <= k /\ kk + k <= c /\
      sinv s' P' /\ sact s' P' a c e /\ sout a c s P s' P' /\
      cnt (fun t => skey s' P' t <? x) a c = jj - a /\
      cnt (fun t => skey s' P' t =? x) a c = kk - jj /\
      (forall t, a <= t < jj -> skey s' P' t < x) /\
      (forall t, jj <= t < jj + j -> skey s' P' t = x) /\
      (forall t, kk <= t < kk + k -> x < skey s' P' t)).
  unfold walk_eq.
  match goal with |- context [while fuel ?cd ?bd _] =>
    destruct (while_rule Inv
                (fun st => let '(j, k, _) := st in
                           (kk - jj - j) + (c - kk - k))
                cd bd) with (fuel := fuel) (s := (j0, k0, s))
      as ([[j k] s'] & Hw & HInv & Hcond)
  end.
  - intros [[j k] s'] (P' & _ & Hj & Hjk' & Hk & Hkc' & _). lia.
  - intros [[j k] s']
      (P' & Hv & Hj & Hjk' & Hk & Hkc' & Hg' & Ha' & Ho & Hcl' & Hce'' &
       Rlt & Req & Rgt).
    unw. eexists; split; [reflexivity|]. intros Hlt. apply Z.ltb_lt in Hlt.
    rewrite !(key_ok s' P' a c e (jj + j)) by (auto; lia).
    set (c1 := skey s' P' (jj + j)). cbn [bind].
    destruct (Z.eqb_spec c1 x) as [Hc1x|Hc1x].
    + unw. eexists; split; [reflexivity|]. split; [|lia].
      exists P'. split; [auto|].
      do 4 (split; [lia|]). do 6 (split; [auto|]).
      split; [|auto]. intros t Ht.
      destruct (Z.eq_dec t (jj + j)) as [->|]; [exact Hc1x|apply Req; lia].
    + assert (Hge : x <= c1).
      { apply (no_lt_after (fun t => skey s' P' t) x a jj c (jj + j)); auto; lia. }
      assert (Hroom : kk + k < c).
      { pose proof (cnt_tri (fun t => skey s' P' t) x a c ltac:(lia)) as Htri.
        cbv beta in Htri.
        pose proof (cnt_lower (fun t => x <? skey s' P' t) a c (jj + j) kk
                      (kk + k) ltac:(lia) ltac:(lia)) as Hlow.
        assert (Hi1 : (x <? skey s' P' (jj + j)) = true)
          by (apply Z.ltb_lt; fold c1; lia).
        assert (H : forall t, kk <= t < kk + k -> (x <? skey s' P' t) = true).
        { intros t Ht. apply Z.ltb_lt. auto. }
        specialize (Hlow Hi1 H). lia. }
      destruct (swap_store s' P' a c e (jj + j) (kk + k) Hg' Ha')
        as (s'' & Hsw & Hv' & Hg'' & Ha'' & Ho''); try lia.
      unw. rewrite Hsw. cbn [bind].
      eexists; split; [reflexivity|]. split; [|lia].
      exists (swapf P' (jj + j) (kk + k)).
      split; [destruct Hv, Hv'; split; congruence|].
      do 4 (split; [lia|]).
      split; [auto|]. split; [auto|].
      split; [eapply same_outside_trans; eauto|].
      rewrite (rd_vfix v s' s'' Hv').
      split; [rewrite (cnt_key_swap (fun z => z <? x)) by lia; auto|].
      split; [rewrite (cnt_key_swap (fun z => z =? x)) by lia; auto|].
      split; [|split]; intros t Ht; rewrite keyof_swapf.
      * destruct (Z.eqb_spec t (jj + j)); [lia|].
        destruct (Z.eqb_spec t (kk + k)); [lia|]. apply Rlt; lia.
      * destruct (Z.eqb_spec t (jj + j)); [lia|].
        destruct (Z.eqb_spec t (kk + k)); [lia|]. apply Req; lia.
      * destruct (Z.eqb_spec t (jj + j)); [lia|].
        destruct (Z.eqb_spec t (kk + k)); [fold c1; lia|]. apply Rgt; lia.
  - exists P. split; [auto|]. do 4 (split; [lia|]).
    split; [auto|]. split; [auto|]. split; [apply same_outside_refl|].
    auto 10.
  - simpl. lia.
  - destruct HInv as
      (P' & Hv & Hj & Hjk' & Hk & Hkc' & Hg' & Ha' & Ho & Hcl' & Hce'' &
       Rlt & Req & Rgt).
    unw_in Hcond.
    injection Hcond as Hcond. apply Z.ltb_ge in Hcond.
    assert (Hjk : jj + j = kk) by lia.
    exists j, k, s', P'. split; [exact Hw|].
    do 5 (split; [auto|]).
    split; [intros t Ht; apply Req; lia|].
    intros t Ht.
    assert (Hge : x <= skey s' P' t).
    { apply (no_lt_after (fun t => skey s' P' t) x a jj c t); auto; lia. }
    assert (Hne : skey s' P' t <> x).
    { rewrite (cnt_split _ a jj c), (cnt_split _ jj kk c) in Hce'' by lia.
      rewrite (cnt_all _ jj kk) in Hce''.
      2: lia.
      2:{ intros u Hu. apply Z.eqb_eq. apply Req. lia. }
      pose proof (cnt_bounds (fun t => skey s' P' t =? x) a jj ltac:(lia)).
      pose proof (cnt_bounds (fun t => skey s' P' t =? x) kk c ltac:(lia)).
      assert (Hz : cnt (fun t => skey s' P' t =? x) kk c = 0) by lia.
      pose proof (cnt_zero _ kk c t Hz Ht) as Hfz. cbv beta in Hfz.
      apply Z.eqb_neq in Hfz. exact Hfz. }
    lia.
Qed.

(** [split] on a range of an unsorted group: the range is parsed into
    groups of order [h + h], sorted among themselves. *)
Lemma split_ok fuel :
  forall s P a ln c e,
  1 <= ln -> a + ln = c -> sinv s P -> sact s P a c e ->
  ln + 1 < Z.of_nat fuel ->
  exists s' P',
    split w fuel v v2 a ln h s = Ok s' /\
    sinv s' P' /\ sout a c s P s' P' /\
    parse b (h + h) (arrI s') (rd v2 s') P' a c /\
    confined (rd v2 s') P' a c /\
    (v <> v2 -> rd v s' = rd v s).
Proof.
  induction fuel as [|f IH]; intros s P a ln c e Hln Hc Hg Ha Hf; [lia|].
  pose proof Ha as (Hac & Hce & _).
  cbn [split]. destruct (Z.ltb_spec ln 16) as [Hsmall|Hbig].
  { apply sel_sort_ok with (e := e); auto; lia. }
  (* the pivot *)
  assert (Hq : Z.quot ln 2 = ln / 2) by (apply Z.quot_div_nonneg; lia).
  assert (Hmid : 0 <= ln / 2 < ln).
  { split; [apply Z.div_pos; lia|apply Z.div_lt; lia]. }
  unfold wquot. rewrite Hq. unw.
  rewrite (key_ok s P a c e (a + ln / 2)) by (auto; lia).
  set (x := skey s P (a + ln / 2)). cbn [bind].
  rewrite (count_ok f s P a ln c e x) by (auto; lia). cbn [bind].
  set (TL := cnt (fun t => skey s P t <? x) a c).
  set (TE := cnt (fun t => skey s P t =? x) a c).
  assert (HTL : 0 <= TL) by (apply cnt_bounds; lia).
  assert (HTE : 1 <= TE).
  { apply (cnt_has _ a c (a + ln / 2)); [lia|]. apply Z.eqb_eq. reflexivity. }
  assert (Hsum : TL + TE <= c - a).
  { pose proof (cnt_tri (fun t => skey s P t) x a c ltac:(lia)) as Htri.
    cbv beta in Htri. fold TL TE in Htri.
    pose proof (cnt_bounds (fun t => x <? skey s P t) a c ltac:(lia)). lia. }
  unw. set (jj := TL + a). set (kk := TE + jj).
  destruct (walk_lt_ok f s P a c e x jj kk)
    as (j & k & s1 & P1 & Hwl & Hv1 & Hg1 & Ha1 & Ho1 & Hcl1 & Hce1 & Hj & Hjk &
        Hk & Hkc & Rlt1 & Req1 & Rgt1); auto; try (unfold jj, kk; lia).
  rewrite Hwl. cbn [bind].
  destruct (walk_eq_ok f s1 P1 a c e x jj kk j k)
    as (j' & k' & s2 & P2 & Hwe & Hv2 & Hg2 & Ha2 & Ho2 & Rlt & Req & Rgt);
    auto; try (unfold jj, kk; lia).
  rewrite Hwe. cbn [bind].
  assert (Hjj : a <= jj) by (unfold jj; lia).
  assert (Hjk2 : jj + 1 <= kk) by (unfold kk; lia).
  assert (Hkc2 : kk <= c) by (unfold kk, jj; lia).
  assert (Ho02 : sout a c s P s2 P2) by (eapply same_outside_trans; eauto).
  assert (Hvv : v <> v2 -> rd v s2 = rd v s).
  { intros _. rewrite (rd_vfix v s1 s2 Hv2). apply (rd_vfix v s s1 Hv1). }
  (* what the keys tell about the three buckets *)
  assert (F1 : forall t t', a <= t < jj -> jj <= t' < c -> slt b (P2 t) (P2 t')).
  { intros t t' Ht Ht'.
    apply (key_lt_slt b h h_pos (arrI s2) (rd v s2) (rd v2 s2) P2 a c e);
      auto; try lia.
    specialize (Rlt t Ht). destruct (Z_lt_dec t' kk).
    - rewrite (Req t') by lia. lia.
    - specialize (Rgt t' ltac:(lia)). lia. }
  assert (F2 : forall t t', jj <= t < kk -> kk <= t' < c -> slt b (P2 t) (P2 t')).
  { intros t t' Ht Ht'.
    apply (key_lt_slt b h h_pos (arrI s2) (rd v s2) (rd v2 s2) P2 a c e);
      auto; try lia.
    rewrite (Req t Ht). apply Rgt. lia. }
  assert (F3 : forall t t', jj <= t < kk -> jj <= t' < kk ->
            agree b (h + h) (P2 t) (P2 t')).
  { intros t t' Ht Ht'.
    apply (key_eq_agree b h h_pos (arrI s2) (rd v s2) (rd v2 s2) P2 a c e);
      auto; try lia.
    rewrite (Req t Ht), (Req t' Ht'). reflexivity. }
  (* the [<] bucket *)
  assert (Hlt : exists s3 P3,
    (if jj >? a then split w f v v2 a (jj - a) h s2 else Ok s2) = Ok s3 /\
    sinv s3 P3 /\ sout a jj s2 P2 s3 P3 /\
    parse b (h + h) (arrI s3) (rd v2 s3) P3 a jj /\
    confined (rd v2 s3) P3 a jj /\
    (v <> v2 -> rd v s3 = rd v s2)).
  { destruct (Z.gtb_spec jj a) as [Hgt|Hle].
    - apply IH with (e := e); auto; try lia.
      apply active_prefix with (c := c); auto. lia.
    - assert (jj = a) by lia.
      exists s2, P2. split; [reflexivity|]. split; [auto|].
      split; [apply same_outside_refl|].
      replace jj with a by lia.
      split; [constructor|]. split; [intros t Ht; lia|auto]. }
  destruct Hlt as (s3 & P3 & Hs3 & Hg3 & Ho3 & Hp3 & Hcf3 & Hv3).
  rewrite Hs3. cbn [bind].
  assert (Ha3 : sact s3 P3 jj c e).
  { apply (active_suffix s2 P2 s3 P3 a jj c e); auto. lia. }
  assert (HP3 : forall t, jj <= t < c -> P3 t = P2 t).
  { intros t Ht. apply Ho3; [unfold inr; lia|lia]. }
  (* the [=] bucket *)
  destruct (commit_block f s3 P3 jj c e (kk - jj))
    as (s4 & s5 & Hcm & Hmk & Hg5 & Ha5 & Ho5 & Hp5 & Hcf5 & Hv5);
    auto; try lia.
  { intros t t' Ht Ht'. rewrite !HP3 by lia. apply F2; lia. }
  { intros t t' Ht Ht'. rewrite !HP3 by lia. apply F3; lia. }
  replace (jj + (kk - jj) - 1) with (kk - 1) in Hcm by lia.
  replace (jj + (kk - jj)) with kk in * by lia.
  rewrite Hcm. cbn [bind].
  replace (jj =? kk - 1) with (kk - jj =? 1).
  2:{ destruct (Z.eqb_spec (kk - jj) 1), (Z.eqb_spec jj (kk - 1)); auto; lia. }
  rewrite Hmk. cbn [bind].
  (* the [>] bucket *)
  assert (Hgt : exists s6 P6,
    (if c >? kk then split w f v v2 kk (c - kk) h s5 else Ok s5) = Ok s6 /\
    sinv s6 P6 /\ sout kk c s5 P3 s6 P6 /\
    parse b (h + h) (arrI s6) (rd v2 s6) P6 kk c /\
    confined (rd v2 s6) P6 kk c /\
    (v <> v2 -> rd v s6 = rd v s5)).
  { destruct (Z.gtb_spec c kk) as [Hgt|Hle].
    - apply IH with (e := e); auto; try lia.
    - assert (kk = c) by lia.
      exists s5, P3. split; [reflexivity|]. split; [auto|].
      split; [apply same_outside_refl|].
      replace kk with c by lia.
      split; [constructor|]. split; [intros t Ht; lia|auto]. }
  destruct Hgt as (s6 & P6 & Hs6 & Hg6 & Ho6 & Hp6 & Hcf6 & Hv6).
  rewrite Hc. rewrite Hs6.
  exists s6, P6. split; [reflexivity|]. split; [auto|].
  assert (Ho36 : sout jj c s3 P3 s6 P6).
  { eapply same_outside_trans.
    - eapply same_outside_weaken; [| |exact Ho5]; lia.
    - eapply same_outside_weaken; [| |exact Ho6]; lia. }
  split.
  { eapply same_outside_trans; [exact Ho02|].
    eapply same_outside_trans.
    - eapply same_outside_weaken; [| |exact Ho3]; lia.
    - eapply same_outside_weaken; [| |exact Ho36]; lia. }
  split.
  { eapply parse_app; [eapply parse_keep; [exact Hp3| |exact Ho36| |]; lia|].
    eapply parse_app; [eapply parse_keep; [exact Hp5| |exact Ho6| |]; lia|].
    exact Hp6. }
  split.
  { eapply confined_app; [eapply confined_keep; [exact Hcf3|exact Ho36| |]; lia| |lia].
    eapply confined_app; [eapply confined_keep; [exact Hcf5|exact Ho6| |]; lia| |lia].
    exact Hcf6. }
  intros Hne. rewrite Hv6, Hv5, Hv3 by auto. auto.
Qed.

End SplitModel.

(** ** The bucket sort that starts [qsufsort] *)

Lemma byteZ_range x : 0 <= byteZ x < 256.
Proof.
  unfold byteZ. pose proof (Byte.to_N_bounded x). lia.
Qed.

Lemma cntb_nil f : cntb f [] = 0.
Proof. reflexivity. Qed.

Lemma cntb_cons f x l : cntb f (x :: l) = (if f x then 1 else 0) + cntb f l.
Proof.
  unfold cntb. cbn [filter]. destruct (f x); cbn [length]; lia.
Qed.

Lemma cntb_app f l1 l2 : cntb f (l1 ++ l2) = cntb f l1 + cntb f l2.
Proof.
  induction l1 as [|x l1 IH]; [reflexivity|].
  simpl app. rewrite !cntb_cons, IH. lia.
Qed.

Lemma cntb_bounds f l : 0 <= cntb f l <= len l.
Proof.
  induction l as [|x l IH]; [rewrite cntb_nil; unfold len; simpl; lia|].
  rewrite cntb_cons. unfold len in *. cbn [length]. destruct (f x); lia.
Qed.

Lemma nlt_succ b c : nlt b (c + 1) = nlt b c + neq b c.
Proof.
  unfold nlt, neq. induction b as [|x b IH]; [reflexivity|].
  rewrite !cntb_cons, IH.
  destruct (Z.ltb_spec (byteZ x) (c + 1)), (Z.ltb_spec (byteZ x) c),
    (Z.eqb_spec (byteZ x) c); lia.
Qed.

Lemma nlt_0 b : nlt b 0 = 0.
Proof.
  unfold nlt. induction b as [|x b IH]; [reflexivity|].
  rewrite cntb_cons, IH. pose proof (byteZ_range x).
  destruct (Z.ltb_spec (byteZ x) 0); lia.
Qed.

Lemma nlt_256 b : nlt b 256 = len b.
Proof.
  unfold nlt. induction b as [|x b IH]; [reflexivity|].
  rewrite cntb_cons, IH. pose proof (byteZ_range x).
  destruct (Z.ltb_spec (byteZ x) 256); unfold len; cbn [length]; lia.
Qed.

Lemma nlt_mono b c c' : c <= c' -> nlt b c <= nlt b c'.
Proof.
  intros H. unfold nlt. induction b as [|x b IH]; [reflexivity|].
  rewrite !cntb_cons.
  destruct (Z.ltb_spec (byteZ x) c), (Z.ltb_spec (byteZ x) c'); lia.
Qed.

Lemma neq_bounds b c : 0 <= neq b c <= len b.
Proof. apply cntb_bounds. Qed.

Lemma nlt_bounds b c : 0 <= nlt b c <= len b.
Proof. apply cntb_bounds. Qed.

Lemma nlt_succ_le b c : nlt b (c + 1) <= len b.
Proof. apply nlt_bounds. Qed.

(** The buckets of two bytes do not overlap. *)
Lemma bucket_disjoint b c c' j :
  nlt b c < j <= nlt b (c + 1) -> nlt b c' < j <= nlt b (c' + 1) -> c = c'.
Proof.
  intros H1 H2. destruct (Z.lt_trichotomy c c') as [Hlt|[E|Hgt]]; auto.
  - pose proof (nlt_mono b (c + 1) c' ltac:(lia)). lia.
  - pose proof (nlt_mono b (c' + 1) c ltac:(lia)). lia.
Qed.

(** Every slot from 1 on lies in the bucket of some byte. *)
Lemma bucket_find b j :
  1 <= j <= len b -> exists c, 0 <= c < 256 /\ nlt b c < j <= nlt b (c + 1).
Proof.
  intros Hj.
  assert (H : forall m : nat, j <= nlt b (Z.of_nat m) ->
            exists c, 0 <= c < Z.of_nat m /\ nlt b c < j <= nlt b (c + 1)).
  { induction m as [|m IH]; intros Hm.
    - simpl in Hm. rewrite nlt_0 in Hm. lia.
    - destruct (Z_le_gt_dec j (nlt b (Z.of_nat m))) as [Hle|Hgt].
      + destruct (IH Hle) as (c & Hc & Hb). exists c. split; [lia|auto].
      + exists (Z.of_nat m). split; [lia|].
        rewrite Nat2Z.inj_succ in Hm. unfold Z.succ in Hm. lia. }
  destruct (H 256%nat) as (c & Hc & Hb).
  - change (Z.of_nat 256) with 256. rewrite nlt_256. lia.
  - exists c. split; [lia|auto].
Qed.

Lemma byte_at_app_r (pre : list byte) (x : byte) (rest : list byte) :
  byte_at (pre ++ x :: rest) (len pre) = byteZ x.
Proof.
  unfold byte_at, len. rewrite Nat2Z.id. rewrite app_nth2 by lia.
  now rewrite Nat.sub_diag.
Qed.

Lemma byte_at_range b p : 0 <= byte_at b p < 256.
Proof. apply byteZ_range. Qed.

Lemma firstn_succ_app (pre : list byte) (x : byte) (rest : list byte) :
  firstn (Z.to_nat (len pre) + 1) (pre ++ x :: rest) = pre ++ [x].
Proof.
  unfold len. rewrite Nat2Z.id.
  induction pre as [|y pre IH]; simpl; [reflexivity|]. now rewrite IH.
Qed.

Lemma neq_firstn_le b k c : neq (firstn k b) c <= neq b c.
Proof.
  unfold neq. rewrite <- (firstn_skipn k b) at 2. rewrite cntb_app.
  pose proof (cntb_bounds (fun x => byteZ x =? c) (skipn k b)). lia.
Qed.

Lemma neq_firstn_mono b k k' c :
  (k <= k')%nat -> neq (firstn k b) c <= neq (firstn k' b) c.
Proof.
  intros H. replace k with (Nat.min k k') by lia.
  rewrite <- firstn_firstn. apply neq_firstn_le.
Qed.

Lemma suffix_byte b p :
  0 <= p < len b ->
  exists x, byte_at b p = byteZ x /\ suffix b p = x :: suffix b (p + 1).
Proof.
  intros Hp. destruct (suffix_cons b p Hp) as (x & E & Es).
  exists x. split; [|exact Es]. unfold byte_at.
  now rewrite (nth_error_nth _ _ _ E).
Qed.

(** The slot of a suffix lies in the bucket of its first byte. *)
Lemma rank_bucket b p :
  0 <= p < len b ->
  nlt b (byte_at b p) < rank b p <= nlt b (byte_at b p + 1).
Proof.
  intros Hp. unfold rank. rewrite nlt_succ.
  pose proof (neq_firstn_le b (Z.to_nat p + 1) (byte_at b p)).
  split; [|lia].
  assert (1 <= neq (firstn (Z.to_nat p + 1) b) (byte_at b p)); [|lia].
  destruct (suffix_byte b p Hp) as (x & Ex & Es).
  unfold suffix in Es.
  rewrite <- (firstn_skipn (Z.to_nat p) b) at 1.
  rewrite Es. rewrite Ex.
  assert (El : length (firstn (Z.to_nat p) b) = Z.to_nat p).
  { rewrite length_firstn. unfold len in Hp. lia. }
  rewrite <- El at 1. rewrite firstn_app_2. simpl firstn.
  unfold neq. rewrite cntb_app, cntb_cons, Z.eqb_refl.
  pose proof (cntb_bounds (fun y => byteZ y =? byteZ x) (firstn (Z.to_nat p) b)).
  pose proof (cntb_bounds (fun y => byteZ y =? byteZ x)
                (firstn 0 (skipn (S (Z.to_nat p)) b))).
  simpl firstn in *. rewrite cntb_nil. lia.
Qed.

Lemma bget_bset bk c v c' :
  0 <= c < len bk -> 0 <= c' ->
  bget (bset bk c v) c' = if c' =? c then v else bget bk c'.
Proof. intros. unfold bget, bset. now apply idx_updZ. Qed.

Lemma bset_length bk c v : length (bset bk c v) = length bk.
Proof. unfold bset. apply upd_length. Qed.

Lemma bget_repeat c : 0 <= c -> bget (repeat 0 256%nat) c = 0.
Proof. intros. unfold bget. apply nth_repeat. Qed.

Lemma classic_mark_gen (b : list byte) (i : Z) (idx : list Z) :
  (exists i2, In i2 idx /\ neq b i2 = 1 /\ nlt b (i + 1) = nlt b (i2 + 1)) \/
  ~ (exists i2, In i2 idx /\ neq b i2 = 1 /\ nlt b (i + 1) = nlt b (i2 + 1)).
Proof.
  induction idx as [|x idx IH].
  - right. intros (i2 & [] & _).
  - destruct IH as [(i2 & Hin & H)|Hno].
    + left. exists i2. split; [now right|exact H].
    + destruct (Z.eq_dec (neq b x) 1) as [E1|N1].
      * destruct (Z.eq_dec (nlt b (i + 1)) (nlt b (x + 1))) as [E2|N2].
        -- left. exists x. split; [now left|auto].
        -- right. intros (i2 & [<-|Hin] & H1 & H2); [auto|].
           apply Hno. exists i2. auto.
      * right. intros (i2 & [<-|Hin] & H1 & H2); [auto|].
        apply Hno. exists i2. auto.
Qed.

Section Init.

Variable w : Z.
Hypothesis w_pos : 0 < w.
Variable b : list byte.
Local Abbreviation n := (len b).
Hypothesis fits : n + 1 < 2 ^ (w - 1).

Local Abbreviation wsb := (ws w w_pos b fits).

Lemma count_bytes_gen l :
  forall bk, length bk = 256%nat ->
  (forall c, 0 <= c < 256 -> 0 <= bget bk c /\ bget bk c + neq l c <= n) ->
  length (fold_left (binc w) l bk) = 256%nat /\
  forall c, 0 <= c < 256 ->
    bget (fold_left (binc w) l bk) c = bget bk c + neq l c.
Proof.
  induction l as [|x l IH]; intros bk Hl Hb.
  - simpl. split; [auto|]. intros c Hc. unfold neq. rewrite cntb_nil. lia.
  - simpl fold_left. pose proof (byteZ_range x) as Hx.
    assert (Hbx : forall c, 0 <= c < 256 ->
              bget (binc w bk x) c
              = bget bk c + if byteZ x =? c then 1 else 0).
    { intros c Hc. unfold binc. rewrite bget_bset by (unfold len; lia).
      destruct (Z.eqb_spec c (byteZ x)) as [->|Hne].
      - rewrite Z.eqb_refl. unfold wadd. apply wsb.
        specialize (Hb (byteZ x) Hx). pose proof (neq_bounds (x :: l) (byteZ x)).
        lia.
      - destruct (Z.eqb_spec (byteZ x) c); [congruence|lia]. }
    destruct (IH (binc w bk x)) as (Hl' & Hv).
    + unfold binc. now rewrite bset_length.
    + intros c Hc. rewrite Hbx by auto. specialize (Hb c Hc).
      unfold neq in *. rewrite cntb_cons in Hb.
      pose proof (cntb_bounds (fun y => byteZ y =? c) l).
      destruct (Z.eqb_spec (byteZ x) c); lia.
    + split; [auto|]. intros c Hc. rewrite Hv, Hbx by auto.
      unfold neq. rewrite cntb_cons. lia.
Qed.

Lemma count_bytes_ok :
  length (count_bytes w b (repeat 0 256%nat)) = 256%nat /\
  forall c, 0 <= c < 256 ->
    bget (count_bytes w b (repeat 0 256%nat)) c = neq b c.
Proof.
  destruct (count_bytes_gen b (repeat 0 256%nat)) as (Hl & Hv).
  - apply repeat_length.
  - intros c Hc. rewrite bget_repeat by lia. pose proof (neq_bounds b c). lia.
  - split; [exact Hl|]. intros c Hc. unfold count_bytes.
    rewrite Hv by auto. rewrite bget_repeat by lia. lia.
Qed.

Lemma prefix_sums_gen bk :
  length bk = 256%nat ->
  (forall c, 0 <= c < 256 -> bget bk c = neq b c) ->
  forall m : nat, (m <= 255)%nat ->
  let bk' := fold_left
               (fun bk i => bset bk i (wadd w (bget bk i) (bget bk (i - 1))))
               (map Z.of_nat (seq 1 m)) bk in
  length bk' = 256%nat /\
  forall c, 0 <= c < 256 ->
    bget bk' c = if c <=? Z.of_nat m then nlt b (c + 1) else neq b c.
Proof.
  intros Hl Hv. induction m as [|m IH]; intros Hm; cbv zeta.
  - simpl. split; [auto|]. intros c Hc. rewrite Hv by auto.
    destruct (Z.leb_spec c 0); auto.
    replace c with 0 by lia. rewrite nlt_succ, nlt_0. lia.
  - rewrite seq_S, map_app, fold_left_app. cbn [map fold_left].
    destruct (IH ltac:(lia)) as (Hl' & Hv'). cbv zeta in Hl', Hv'.
    set (bk1 := fold_left _ (map Z.of_nat (seq 1 m)) bk) in *.
    replace (Z.of_nat (1 + m)) with (Z.of_nat m + 1) by lia.
    split; [now rewrite bset_length|].
    intros c Hc. rewrite bget_bset by (unfold len; lia).
    replace (Z.of_nat m + 1 - 1) with (Z.of_nat m) by lia.
    rewrite !Hv' by lia.
    destruct (Z.leb_spec (Z.of_nat m + 1) (Z.of_nat m)); [lia|].
    destruct (Z.leb_spec (Z.of_nat m) (Z.of_nat m)); [|lia].
    destruct (Z.eqb_spec c (Z.of_nat m + 1)) as [->|Hne].
    + destruct (Z.leb_spec (Z.of_nat m + 1) (Z.of_nat (S m))); [|lia].
      rewrite (nlt_succ b (Z.of_nat m + 1)). unfold wadd.
      pose proof (nlt_succ_le b (Z.of_nat m + 1)) as Hb.
      rewrite nlt_succ in Hb.
      pose proof (nlt_bounds b (Z.of_nat m + 1)).
      pose proof (neq_bounds b (Z.of_nat m + 1)).
      rewrite wsb by lia. lia.
    + destruct (Z.leb_spec c (Z.of_nat m)), (Z.leb_spec c (Z.of_nat (S m)));
        auto; lia.
Qed.

Lemma prefix_sums_ok bk :
  length bk = 256%nat ->
  (forall c, 0 <= c < 256 -> bget bk c = neq b c) ->
  length (prefix_sums w bk) = 256%nat /\
  forall c, 0 <= c < 256 -> bget (prefix_sums w bk) c = nlt b (c + 1).
Proof.
  intros Hl Hv. destruct (prefix_sums_gen bk Hl Hv 255%nat ltac:(lia)) as (H1 & H2).
  split; [exact H1|]. intros c Hc. unfold prefix_sums, bucket_range.
  rewrite H2 by auto. destruct (Z.leb_spec c (Z.of_nat 255)); auto. lia.
Qed.

Lemma nth_firstn_lt {A : Type} (l : list A) k c d :
  (c < k)%nat -> nth c (firstn k l) d = nth c l d.
Proof.
  revert k c; induction l as [|x l IH]; intros [|k] [|c] H; simpl; auto; try lia.
  apply IH. lia.
Qed.

Lemma shift_buckets_ok bk :
  length bk = 256%nat ->
  (forall c, 0 <= c < 256 -> bget bk c = nlt b (c + 1)) ->
  length (shift_buckets bk) = 256%nat /\
  forall c, 0 <= c < 256 -> bget (shift_buckets bk) c = nlt b c.
Proof.
  intros Hl Hv. destruct bk as [|x0 bk]; [discriminate|].
  simpl in Hl. unfold shift_buckets, copy. cbn [firstn skipn app].
  replace (length bk) with 255%nat by lia.
  assert (Hs : skipn 256 bk = []) by (apply skipn_all2; lia).
  change (skipn (length (x0 :: bk)) bk) with (skipn (S (length bk)) bk).
  replace (S (length bk)) with 256%nat by lia. rewrite Hs, app_nil_r.
  split.
  - rewrite bset_length. cbn [length]. rewrite length_firstn. cbn [length]. lia.
  - intros c Hc. unfold bget, bset, updZ. change (Z.to_nat 0) with 0%nat.
    cbn [upd]. destruct (Z.to_nat c) as [|c'] eqn:Ec.
    + simpl. replace c with 0 by lia. now rewrite nlt_0.
    + cbn [nth]. rewrite nth_firstn_lt by lia.
      specialize (Hv (c - 1) ltac:(lia)). unfold bget in Hv.
      replace (Z.to_nat (c - 1)) with c' in Hv by lia.
      rewrite Hv. f_equal. lia.
Qed.

Lemma firstn_succ_nth (l : list byte) (q : nat) :
  (q < length l)%nat -> firstn (q + 1) l = firstn q l ++ [nth q l x00].
Proof.
  revert q; induction l as [|x l IH]; intros q H; simpl in H; [lia|].
  destruct q as [|q]; simpl; [reflexivity|]. rewrite IH by lia. reflexivity.
Qed.

Lemma neq_snoc l x c :
  neq (l ++ [x]) c = neq l c + if byteZ x =? c then 1 else 0.
Proof. unfold neq. rewrite cntb_app, cntb_cons, cntb_nil. lia. Qed.

(** Two suffixes stand in different slots. *)
Lemma rank_lt_ne p q : 0 <= p < q -> q < n -> rank b p <> rank b q.
Proof.
  intros Hp Hq E.
  pose proof (rank_bucket b p ltac:(lia)) as Bp.
  pose proof (rank_bucket b q ltac:(lia)) as Bq.
  rewrite E in Bp.
  pose proof (bucket_disjoint _ _ _ _ Bp Bq) as Ec.
  unfold rank in E. rewrite Ec in E.
  replace (Z.to_nat q + 1)%nat with (Z.to_nat q + 1)%nat in E by lia.
  rewrite (firstn_succ_nth b (Z.to_nat q)) in E by (unfold len in Hq; lia).
  rewrite neq_snoc in E. fold (byte_at b q) in E. rewrite Z.eqb_refl in E.
  pose proof (neq_firstn_mono b (Z.to_nat p + 1) (Z.to_nat q) (byte_at b q)
                ltac:(lia)).
  lia.
Qed.

Lemma rank_inj p q : 0 <= p < n -> 0 <= q < n -> rank b p = rank b q -> p = q.
Proof.
  intros Hp Hq E. destruct (Z.lt_trichotomy p q) as [H|[H|H]]; auto.
  - exfalso. apply (rank_lt_ne p q); auto; lia.
  - exfalso. apply (rank_lt_ne q p); auto; lia.
Qed.

Lemma fill_I_gen rest :
  forall pre bk I, b = pre ++ rest -> filled b pre bk I ->
  exists bk' I', fill_I w rest (len pre) bk I = Ok (bk', I') /\
                 filled b b bk' I'.
Proof.
  induction rest as [|x rest IH]; intros pre bk I Eb HF.
  - rewrite app_nil_r in Eb. subst pre. exists bk, I. split; [reflexivity|auto].
  - destruct HF as (Hl & HI & Hbk & Hfw & Hbw).
    pose proof (byteZ_range x) as Hx.
    set (c := byteZ x) in *.
    assert (Ein : len pre < n).
    { rewrite Eb. unfold len. rewrite length_app. simpl. lia. }
    assert (Hpre : 0 <= len pre) by (unfold len; lia).
    assert (Eat : byte_at b (len pre) = c).
    { rewrite Eb at 1. apply byte_at_app_r. }
    assert (Efs : firstn (Z.to_nat (len pre) + 1) b = pre ++ [x]).
    { rewrite Eb at 1. apply firstn_succ_app. }
    assert (Erk : rank b (len pre) = nlt b c + neq pre c + 1).
    { unfold rank. rewrite Eat, Efs, neq_snoc. fold c. rewrite Z.eqb_refl. lia. }
    pose proof (rank_bucket b (len pre) ltac:(lia)) as Hrb. rewrite Eat in Hrb.
    pose proof (nlt_bounds b c) as Hn1. pose proof (nlt_succ_le b c) as Hn2.
    assert (Hbx : forall c', 0 <= c' < 256 ->
              bget (binc w bk x) c'
              = nlt b c' + neq (pre ++ [x]) c').
    { intros c' Hc'. unfold binc. fold c.
      rewrite bget_bset by (unfold len; lia). rewrite neq_snoc. fold c.
      destruct (Z.eqb_spec c' c) as [->|Hne].
      - rewrite Z.eqb_refl. unfold wadd. rewrite Hbk by auto.
        rewrite wsb by lia. lia.
      - destruct (Z.eqb_spec c c'); [congruence|]. rewrite Hbk by auto. lia. }
    cbn [fill_I]. fold c. rewrite (Hbx c Hx). rewrite neq_snoc. fold c.
    rewrite Z.eqb_refl. rewrite Z.add_assoc, <- Erk.
    rewrite set_ok by lia. cbn [bind].
    rewrite wsb by lia.
    replace (len pre + 1) with (len (pre ++ [x]))
      by (unfold len; rewrite length_app; simpl; lia).
    apply IH.
    + rewrite <- app_assoc. exact Eb.
    + split; [|split; [|split; [|split]]].
      * unfold binc. now rewrite bset_length.
      * now rewrite len_updZ.
      * exact Hbx.
      * intros p Hp. unfold len in Hp. rewrite length_app in Hp. simpl in Hp.
        fold (len pre) in Hpre.
        destruct (Z.eq_dec p (len pre)) as [->|Hne].
        -- apply idx_updZ_same. lia.
        -- assert (Hp' : 0 <= p < len pre) by (unfold len in *; lia).
           pose proof (rank_bucket b p ltac:(lia)).
           pose proof (nlt_bounds b (byte_at b p)).
           rewrite idx_updZ_other; [now apply Hfw|lia|lia|].
           intros E. symmetry in E. apply rank_inj in E; lia.
      * intros c' j Hc' Hj. rewrite Hbx in Hj by auto.
        rewrite neq_snoc in Hj. fold c in Hj.
        assert (Hlen : len (pre ++ [x]) = len pre + 1)
          by (unfold len; rewrite length_app; simpl; lia).
        destruct (Z.eqb_spec c c') as [<-|Hne].
        -- destruct (Z.eq_dec j (rank b (len pre))) as [->|Hj'].
           ++ exists (len pre). split; [lia|]. split; [exact Eat|reflexivity].
           ++ destruct (Hbw c j Hx) as (p & Hp & Hpc & Hpj).
              { rewrite Hbk by auto. lia. }
              exists p. split; [lia|auto].
        -- destruct (Hbw c' j Hc') as (p & Hp & Hpc & Hpj).
           { rewrite Hbk by auto. lia. }
           exists p. split; [lia|auto].
Qed.

Lemma fill_V_gen bk rest :
  forall pre V, b = pre ++ rest -> len V = n + 1 ->
  exists V', fill_V rest (len pre) bk V = Ok V' /\ len V' = n + 1 /\
    (forall p, len pre <= p < n -> V'.[p] = bget bk (byte_at b p)) /\
    (forall p, 0 <= p -> ~ (len pre <= p < n) -> V'.[p] = V.[p]).
Proof.
  induction rest as [|x rest IH]; intros pre V Eb HV.
  - rewrite app_nil_r in Eb. subst pre. exists V.
    split; [reflexivity|]. split; [auto|]. split; [intros; lia|auto].
  - assert (Ein : len pre < n).
    { rewrite Eb. unfold len. rewrite length_app. simpl. lia. }
    assert (Hpre : 0 <= len pre) by (unfold len; lia).
    assert (Eat : byte_at b (len pre) = byteZ x).
    { rewrite Eb at 1. apply byte_at_app_r. }
    cbn [fill_V]. rewrite set_ok by lia. cbn [bind].
    assert (Hlen : len (pre ++ [x]) = len pre + 1)
      by (unfold len; rewrite length_app; simpl; lia).
    rewrite <- Hlen.
    destruct (IH (pre ++ [x]) (updZ V (len pre) (bget bk (byteZ x))))
      as (V' & HV' & Hl' & Hin & Hout).
    + rewrite <- app_assoc. exact Eb.
    + now rewrite len_updZ.
    + exists V'. split; [exact HV'|]. split; [exact Hl'|]. split.
      * intros p Hp. destruct (Z.eq_dec p (len pre)) as [->|Hne].
        -- rewrite Hout by lia. rewrite idx_updZ_same by lia. now rewrite Eat.
        -- apply Hin. lia.
      * intros p Hp Hnp. rewrite Hout by lia. apply idx_updZ_other; lia.
Qed.

Lemma mark_singles_gen bk idx :
  (forall c, 0 <= c < 256 -> bget bk c = nlt b (c + 1)) ->
  (forall i, In i idx -> 1 <= i < 256) ->
  forall I, len I = n + 1 ->
  exists I', mark_singles w idx bk I = Ok I' /\ len I' = n + 1 /\
    (forall i, In i idx -> neq b i = 1 -> I'.[nlt b (i + 1)] = -1) /\
    (forall j, 0 <= j ->
       (forall i, In i idx -> neq b i = 1 -> j <> nlt b (i + 1)) ->
       I'.[j] = I.[j]).
Proof.
  intros Hbk. induction idx as [|i idx IH]; intros Hidx I HI.
  - exists I. split; [reflexivity|]. split; [auto|].
    split; [intros i []|auto].
  - pose proof (Hidx i (or_introl eq_refl)) as Hi.
    pose proof (nlt_bounds b i) as Hb1. pose proof (nlt_succ_le b i) as Hb2.
    pose proof (nlt_succ b i) as Hs.
    cbn [mark_singles]. rewrite Hbk by lia. rewrite Hbk by lia.
    replace (i - 1 + 1) with i by lia. unfold wadd. rewrite wsb by lia.
    set (I1 := if nlt b (i + 1) =? nlt b i + 1
               then updZ I (nlt b (i + 1)) (-1) else I).
    assert (E1 : (if nlt b (i + 1) =? nlt b i + 1
                  then set I (nlt b (i + 1)) (-1) else Ok I) = Ok I1).
    { unfold I1. destruct (Z.eqb_spec (nlt b (i + 1)) (nlt b i + 1)); auto.
      apply set_ok. lia. }
    rewrite E1. cbn [bind].
    assert (Hl1 : len I1 = n + 1).
    { unfold I1. destruct (_ =? _); auto. now rewrite len_updZ. }
    destruct (IH (fun i' H => Hidx i' (or_intror H)) I1 Hl1)
      as (I' & HI' & Hl' & Hm & Hu).
    exists I'. split; [exact HI'|]. split; [exact Hl'|]. split.
    + intros i' [<-|Hin] Hone; [|now apply Hm].
      destruct (classic_mark_gen b i idx) as [Hex|Hno].
      * destruct Hex as (i2 & Hin2 & Hone2 & E2). rewrite E2. now apply Hm.
      * rewrite Hu.
        -- unfold I1. destruct (Z.eqb_spec (nlt b (i + 1)) (nlt b i + 1)); [|lia].
           apply idx_updZ_same. lia.
        -- lia.
        -- intros i2 Hin2 Hone2 E2. apply Hno. exists i2. auto.
    + intros j Hj Hno. rewrite Hu.
      * unfold I1. destruct (Z.eqb_spec (nlt b (i + 1)) (nlt b i + 1)); auto.
        apply idx_updZ_other; try lia.
        intros E. apply (Hno i (or_introl eq_refl)); lia.
      * exact Hj.
      * intros i2 Hin2. apply Hno. now right.
Qed.

End Init.

(** ** The arrays after the bucket sort *)

Section Buckets.

Variable b : list byte.
Local Abbreviation n := (len b).
Variables (bk I1 V : list Z).
Hypothesis HF : filled b b bk I1.
Hypothesis HV : len V = n + 1.
Hypothesis HVp : forall p, 0 <= p < n -> V.[p] = nlt b (byte_at b p + 1).
Hypothesis HVn : V.[n] = 0.

Local Abbreviation P := (init_P b I1).

Lemma init_P_0 : P 0 = n.
Proof. reflexivity. Qed.

Lemma init_P_pos j : 1 <= j -> P j = I1.[j].
Proof. intros H. unfold init_P. destruct (Z.eqb_spec j 0); [lia|auto]. Qed.

Lemma suffix_slot p :
  0 <= p < n -> 1 <= rank b p <= n /\ P (rank b p) = p.
Proof.
  intros Hp. destruct HF as (_ & _ & _ & Hfw & _).
  pose proof (rank_bucket b p Hp). pose proof (nlt_bounds b (byte_at b p)).
  pose proof (nlt_succ_le b (byte_at b p)).
  split; [lia|]. rewrite init_P_pos by lia. now apply Hfw.
Qed.

Lemma slot_suffix j :
  1 <= j <= n -> exists p, 0 <= p < n /\ j = rank b p /\ P j = p.
Proof.
  intros Hj. destruct (bucket_find b j Hj) as (c & Hc & Hb).
  destruct HF as (_ & _ & Hbk & Hfw & Hbw).
  destruct (Hbw c j Hc) as (p & Hp & _ & Ej).
  { rewrite Hbk by auto. rewrite nlt_succ in Hb. lia. }
  exists p. split; [auto|]. split; [auto|]. subst j. now apply suffix_slot.
Qed.

Lemma slot_group j p :
  1 <= j <= n -> P j = p -> V.[p] = nlt b (byte_at b p + 1) /\
  nlt b (byte_at b p) < j <= nlt b (byte_at b p + 1).
Proof.
  intros Hj Ep. destruct (slot_suffix j Hj) as (p' & Hp' & Ej & Ep').
  rewrite Ep' in Ep. subst p. split; [now apply HVp|].
  rewrite Ej. now apply rank_bucket.
Qed.

Lemma init_perm : permP b P.
Proof.
  split; [|split].
  - intros j Hj. unfold inr in *. destruct (Z.eq_dec j 0) as [->|Hne].
    + rewrite init_P_0. lia.
    + destruct (slot_suffix j ltac:(lia)) as (p & Hp & _ & ->). lia.
  - intros j j' Hj Hj' E. unfold inr in *.
    destruct (Z.eq_dec j 0) as [->|Hne], (Z.eq_dec j' 0) as [->|Hne']; auto.
    + destruct (slot_suffix j' ltac:(lia)) as (p & Hp & _ & Ep).
      rewrite init_P_0 in E. lia.
    + destruct (slot_suffix j ltac:(lia)) as (p & Hp & _ & Ep).
      rewrite init_P_0 in E. lia.
    + destruct (slot_suffix j ltac:(lia)) as (p & Hp & Ej & Ep).
      destruct (slot_suffix j' ltac:(lia)) as (p' & Hp' & Ej' & Ep').
      congruence.
  - intros p Hp. unfold inr in *. destruct (Z.eq_dec p n) as [->|Hne].
    + exists 0. split; [lia|apply init_P_0].
    + destruct (suffix_slot p ltac:(lia)) as (Hr & Ep).
      exists (rank b p). split; [lia|auto].
Qed.

Lemma init_GS : GS b V P.
Proof.
  intros j Hj. unfold inr in Hj. destruct (Z.eq_dec j 0) as [->|Hne].
  - rewrite init_P_0, HVn. split; [lia|]. intros j' Hj'.
    replace j' with 0 by lia. now rewrite init_P_0, HVn.
  - destruct (slot_group j (P j) ltac:(lia) eq_refl) as (Ev & Hb).
    pose proof (nlt_succ_le b (byte_at b (P j) + 0)) as Hle.
    rewrite Z.add_0_r in Hle.
    pose proof (nlt_succ_le b (byte_at b (P j))).
    rewrite Ev. split; [lia|]. intros j' Hj'.
    destruct (slot_group j' (P j') ltac:(lia) eq_refl) as (Ev' & Hb').
    rewrite Ev'.
    assert (E : byte_at b (P j) = byte_at b (P j')).
    { apply (bucket_disjoint b _ _ j'); [lia|exact Hb']. }
    now rewrite E.
Qed.

Lemma byte_lt_slt p q :
  0 <= p < n -> 0 <= q < n -> byte_at b p < byte_at b q -> slt b p q.
Proof.
  intros Hp Hq Hlt. unfold slt.
  destruct (suffix_byte b p Hp) as (x & Ex & ->).
  destruct (suffix_byte b q Hq) as (y & Ey & ->).
  apply lex_lt_head. lia.
Qed.

Lemma init_V_pos p : 0 <= p < n -> 1 <= V.[p].
Proof.
  intros Hp. rewrite HVp by auto. pose proof (rank_bucket b p Hp).
  pose proof (nlt_bounds b (byte_at b p)). lia.
Qed.

Lemma init_Mono : Mono b V.
Proof.
  intros p q Hp Hq Hlt. unfold inr in *.
  destruct (Z.eq_dec q n) as [->|Hq'].
  - rewrite HVn in Hlt. destruct (Z.eq_dec p n) as [->|Hp'].
    + rewrite HVn in Hlt. lia.
    + pose proof (init_V_pos p ltac:(lia)). lia.
  - destruct (Z.eq_dec p n) as [->|Hp'].
    + unfold slt. destruct (suffix_byte b q ltac:(lia)) as (y & _ & ->).
      assert (E : suffix b n = []) by (apply suffix_nil; lia).
      rewrite E. apply lex_lt_nil.
    + apply byte_lt_slt; try lia.
      rewrite (HVp p), (HVp q) in Hlt by lia.
      destruct (Z_lt_ge_dec (byte_at b p) (byte_at b q)) as [H|H]; auto.
      pose proof (nlt_mono b (byte_at b q + 1) (byte_at b p + 1) ltac:(lia)).
      lia.
Qed.

Lemma init_Agree : AgreeW b 1 V.
Proof.
  intros p q Hp Hq E. unfold inr in *.
  destruct (Z.eq_dec p q) as [->|Hne]; [now left|]. right.
  assert (Hpn : p < n).
  { destruct (Z.eq_dec p n) as [->|]; [|lia].
    rewrite HVn in E. pose proof (init_V_pos q ltac:(lia)). lia. }
  assert (Hqn : q < n).
  { destruct (Z.eq_dec q n) as [->|]; [|lia].
    rewrite HVn in E. pose proof (init_V_pos p ltac:(lia)). lia. }
  split; [lia|]. split; [lia|].
  rewrite (HVp p), (HVp q) in E by lia.
  pose proof (rank_bucket b p ltac:(lia)) as Bp.
  pose proof (rank_bucket b q ltac:(lia)) as Bq.
  assert (Ec : byte_at b p = byte_at b q).
  { destruct (Z.lt_trichotomy (byte_at b p) (byte_at b q)) as [H|[H|H]]; auto.
    - pose proof (nlt_mono b (byte_at b p + 1) (byte_at b q) ltac:(lia)). lia.
    - pose proof (nlt_mono b (byte_at b q + 1) (byte_at b p) ltac:(lia)). lia. }
  destruct (suffix_byte b p ltac:(lia)) as (x & Ex & ->).
  destruct (suffix_byte b q ltac:(lia)) as (y & Ey & ->).
  assert (x = y) by (apply byteZ_inj; congruence). subst y. reflexivity.
Qed.

Variable I3 : list Z.
Hypothesis HI3 : len I3 = n + 1.
Hypothesis HI3_0 : I3.[0] = -1.
Hypothesis HI3_mark :
  forall i, 1 <= i < 256 -> neq b i = 1 -> I3.[nlt b (i + 1)] = -1.
Hypothesis HI3_keep :
  forall j, 1 <= j ->
    (forall i, 1 <= i < 256 -> neq b i = 1 -> j <> nlt b (i + 1)) ->
    I3.[j] = I1.[j].

Lemma init_parse_buckets (m : nat) :
  (m <= 256)%nat ->
  parse b 1 I3 V P (nlt b (256 - Z.of_nat m) + 1) (n + 1).
Proof.
  induction m as [|m IH]; intros Hm.
  - rewrite Z.sub_0_r, nlt_256. apply parse_nil.
  - specialize (IH ltac:(lia)).
    replace (256 - Z.of_nat m) with (256 - Z.of_nat (S m) + 1) in IH by lia.
    set (c := 256 - Z.of_nat (S m)) in *.
    assert (Hc : 0 <= c < 256) by (unfold c; lia).
    pose proof (nlt_succ b c) as Hs. pose proof (neq_bounds b c) as Hq.
    pose proof (nlt_bounds b c) as Hb1. pose proof (nlt_succ_le b c) as Hb2.
    assert (Hin : forall j, nlt b c < j <= nlt b (c + 1) ->
              byte_at b (P j) = c /\ V.[P j] = nlt b (c + 1) /\ 0 <= P j < n).
    { intros j Hj. destruct (slot_suffix j ltac:(lia)) as (p & Hp & Ej & Ep).
      destruct (slot_group j (P j) ltac:(lia) eq_refl) as (Ev & Hb).
      assert (E : byte_at b (P j) = c).
      { apply (bucket_disjoint b _ _ j); [exact Hb|exact Hj]. }
      rewrite Ev, E. split; [auto|]. split; [auto|]. lia. }
    destruct (Z.eq_dec (neq b c) 0) as [E0|N0].
    { replace (nlt b c) with (nlt b (c + 1)) by lia. exact IH. }
    destruct (Z.eq_dec (neq b c) 1) as [E1|N1];
      [destruct (Z.eq_dec c 0) as [C0|C0]|].
    + (* byte 0 occurs once: a group of one slot *)
      apply parse_grp with (e := nlt b (c + 1)); [lia| | | |exact IH].
      * rewrite HI3_keep; [|lia|].
        -- rewrite <- init_P_pos by lia.
           destruct (Hin (nlt b c + 1) ltac:(lia)). lia.
        -- intros i Hi Hone E.
           pose proof (nlt_mono b (c + 1) i ltac:(lia)).
           pose proof (nlt_succ b i). lia.
      * intros j Hj. destruct (Hin j ltac:(lia)) as (_ & Ev & Hp).
        split; [|split; [auto|lia]].
        rewrite HI3_keep; [now rewrite init_P_pos by lia|lia|].
        intros i Hi Hone E.
        pose proof (nlt_mono b (c + 1) i ltac:(lia)).
        pose proof (nlt_succ b i). lia.
      * intros j j' Hj Hj'. apply init_Agree.
        -- destruct (Hin j ltac:(lia)) as (_ & _ & Hp). unfold inr. lia.
        -- destruct (Hin j' ltac:(lia)) as (_ & _ & Hp). unfold inr. lia.
        -- destruct (Hin j ltac:(lia)) as (_ & -> & _).
           destruct (Hin j' ltac:(lia)) as (_ & -> & _). reflexivity.
    + (* a byte other than 0 occurs once: a sorted run of one slot *)
      apply parse_run with (k := 1); [lia| | |].
      * replace (nlt b c + 1) with (nlt b (c + 1)) by lia.
        apply HI3_mark; [lia|auto].
      * intros j Hj. destruct (Hin j ltac:(lia)) as (_ & Ev & _). lia.
      * replace (nlt b c + 1 + 1) with (nlt b (c + 1) + 1) by lia. exact IH.
    + (* a byte occurs at least twice: a group *)
      assert (Hfree : forall j, nlt b c < j <= nlt b (c + 1) ->
                forall i, 1 <= i < 256 -> neq b i = 1 -> j <> nlt b (i + 1)).
      { intros j Hj i Hi Hone E.
        assert (c = i); [|congruence].
        apply (bucket_disjoint b _ _ j); [exact Hj|].
        pose proof (nlt_succ b i). lia. }
      apply parse_grp with (e := nlt b (c + 1)); [lia| | | |exact IH].
      * rewrite HI3_keep; [|lia|apply Hfree; lia].
        rewrite <- init_P_pos by lia.
        destruct (Hin (nlt b c + 1) ltac:(lia)). lia.
      * intros j Hj. destruct (Hin j ltac:(lia)) as (_ & Ev & Hp).
        split; [|split; [auto|lia]].
        rewrite HI3_keep; [now rewrite init_P_pos by lia|lia|apply Hfree; lia].
      * intros j j' Hj Hj'. apply init_Agree.
        -- destruct (Hin j ltac:(lia)) as (_ & _ & Hp). unfold inr. lia.
        -- destruct (Hin j' ltac:(lia)) as (_ & _ & Hp). unfold inr. lia.
        -- destruct (Hin j ltac:(lia)) as (_ & -> & _).
           destruct (Hin j' ltac:(lia)) as (_ & -> & _). reflexivity.
Qed.

Lemma init_parse : parse b 1 I3 V P 0 (n + 1).
Proof.
  apply parse_run with (k := 1); [lia|exact HI3_0| |].
  - intros j Hj. replace j with 0 by lia. now rewrite init_P_0, HVn.
  - pose proof (init_parse_buckets 256 ltac:(lia)) as H.
    change (Z.of_nat 256) with 256 in H. rewrite Z.sub_diag, nlt_0 in H.
    exact H.
Qed.

Lemma init_between V2 : between b 1 (mkStore I3 V V2) P.
Proof.
  split; [lia|]. split; [|exact init_parse].
  cbn [arrI arrV]. unfold ginv.
  repeat match goal with |- _ /\ _ => split end;
    auto using init_perm, init_GS, init_Mono, init_Agree.
Qed.

End Buckets.

Lemma in_bucket_range i : In i bucket_range <-> 1 <= i < 256 .
Proof.
  unfold bucket_range. rewrite in_map_iff. split.
  - intros (k & <- & Hk). apply in_seq in Hk. lia.
  - intros H. exists (Z.to_nat i). split; [lia|]. apply in_seq. lia.
Qed.

Section InitOk.

Variable w : Z.
Hypothesis w_pos : 0 < w.
Variable b : list byte.
Local Abbreviation n := (len b).
Hypothesis fits : n + 1 < 2 ^ (w - 1).

(** The bucket sort returns arrays that satisfy the invariant of the
    passes at order 1. *)
Lemma init_ok :
  exists I V P, init w b = Ok (I, V) /\
    forall V2, between b 1 (mkStore I V V2) P.
Proof.
  pose proof (ws w w_pos b fits) as wsb.
  assert (Hn : 0 <= n) by (unfold len; lia).
  unfold init. unfold wadd. rewrite (wsb n) by lia. rewrite (wsb (n + 1)) by lia.
  unfold make. destruct (Z.ltb_spec (n + 1) 0); [lia|]. cbn [bind].
  set (I0 := repeat 0 (Z.to_nat (n + 1))).
  assert (HI0 : len I0 = n + 1).
  { unfold I0, len. rewrite repeat_length. lia. }
  destruct (count_bytes_ok w w_pos b fits) as (Hl1 & Hv1).
  destruct (prefix_sums_ok w w_pos b fits _ Hl1 Hv1) as (Hl2 & Hv2).
  destruct (shift_buckets_ok w w_pos b _ Hl2 Hv2) as (Hl3 & Hv3).
  set (bk3 := shift_buckets _) in *.
  destruct (fill_I_gen w w_pos b fits b [] bk3 I0 eq_refl) as (bk & I1 & EI & HF).
  { split; [exact Hl3|]. split; [exact HI0|]. split; [|split].
    - intros c Hc. rewrite Hv3 by auto. unfold neq. rewrite cntb_nil. lia.
    - intros p Hp. unfold len in Hp. simpl in Hp. lia.
    - intros c j Hc Hj. rewrite Hv3 in Hj by auto. lia. }
  change (len (@nil byte)) with 0 in EI. rewrite EI. cbn [bind].
  pose proof HF as (Hlb & HlI & Hbk & _).
  rewrite set_ok by lia. cbn [bind].
  destruct (fill_V_gen w w_pos b bk b [] I0 eq_refl HI0)
    as (V' & EV & HlV & HVin & _).
  change (len (@nil byte)) with 0 in EV, HVin. rewrite EV. cbn [bind].
  rewrite set_ok by lia. cbn [bind].
  assert (Hbk' : forall c, 0 <= c < 256 -> bget bk c = nlt b (c + 1)).
  { intros c Hc. rewrite Hbk by auto. now rewrite nlt_succ. }
  destruct (mark_singles_gen w w_pos b fits bk bucket_range Hbk'
              (fun i H => proj1 (in_bucket_range i) H)
              (updZ I1 0 n)) as (I2 & EM & HlM & Hm & Hu).
  { now rewrite len_updZ. }
  rewrite EM. cbn [bind]. rewrite set_ok by lia. cbn [bind].
  exists (updZ I2 0 (-1)), (updZ V' n 0), (init_P b I1).
  split; [reflexivity|]. intros V2.
  apply init_between with (bk := bk).
  - exact HF.
  - now rewrite len_updZ.
  - intros p Hp. rewrite idx_updZ_other by lia. rewrite HVin by lia.
    now apply Hbk'; apply byte_at_range.
  - apply idx_updZ_same. lia.
  - now rewrite len_updZ.
  - apply idx_updZ_same. lia.
  - intros i Hi Hone. pose proof (nlt_succ b i). pose proof (nlt_bounds b i).
    rewrite idx_updZ_other by lia. apply Hm; [|exact Hone].
    now apply in_bucket_range.
  - intros j Hj Hfree. rewrite idx_updZ_other by lia.
    rewrite Hu; [apply idx_updZ_other; lia|lia|].
    intros i Hi. apply Hfree. now apply in_bucket_range.
Qed.

End InitOk.

(** ** The bookkeeping of a pass *)

Section PassSem.

Variable b : list byte.
Local Abbreviation n := (len b).

Lemma parse_conf hh I W P i m :
  parse b hh I W P i m -> confined W P i m.
Proof.
  induction 1 as [i|i k m Hk HI Hr Hp IH|i e m Hie HI Hg Ha Hp IH]; intros j Hj.
  - lia.
  - pose proof (parse_le _ _ _ _ _ _ _ Hp).
    destruct (Z_lt_dec j (i + k)).
    + rewrite Hr by lia. lia.
    + specialize (IH j ltac:(lia)). lia.
  - pose proof (parse_le _ _ _ _ _ _ _ Hp).
    destruct (Z_le_dec j e).
    + destruct (Hg j ltac:(lia)) as (_ & -> & _). lia.
    + specialize (IH j ltac:(lia)). lia.
Qed.

Lemma parse_agree hh I W P i m :
  parse b hh I W P i m ->
  forall j j', i <= j < m -> i <= j' < m -> W.[P j] = W.[P j'] ->
  agree b hh (P j) (P j').
Proof.
  induction 1 as [i|i k m Hk HI Hr Hp IH|i e m Hie HI Hg Ha Hp IH];
    intros j j' Hj Hj' E.
  - lia.
  - pose proof (parse_le _ _ _ _ _ _ _ Hp).
    pose proof (parse_conf _ _ _ _ _ _ Hp) as Hc.
    destruct (Z_lt_dec j (i + k)), (Z_lt_dec j' (i + k)).
    + rewrite !Hr in E by lia. subst. apply agree_refl.
    + rewrite Hr in E by lia. specialize (Hc j' ltac:(lia)). lia.
    + rewrite (Hr j') in E by lia. specialize (Hc j ltac:(lia)). lia.
    + apply IH; auto; lia.
  - pose proof (parse_le _ _ _ _ _ _ _ Hp).
    pose proof (parse_conf _ _ _ _ _ _ Hp) as Hc.
    destruct (Z_le_dec j e), (Z_le_dec j' e).
    + apply Ha; lia.
    + destruct (Hg j ltac:(lia)) as (_ & E1 & _). rewrite E1 in E.
      specialize (Hc j' ltac:(lia)). lia.
    + destruct (Hg j' ltac:(lia)) as (_ & E1 & _). rewrite E1 in E.
      specialize (Hc j ltac:(lia)). lia.
    + apply IH; auto; lia.
Qed.

Lemma chain_le segs lo hi : chain segs lo hi -> lo <= hi.
Proof. induction 1; lia. Qed.

Lemma chain_app l1 l2 lo mid hi :
  chain l1 lo mid -> chain l2 mid hi -> chain (l1 ++ l2) lo hi.
Proof.
  induction 1; intros H2; simpl; auto. constructor; auto.
Qed.

Lemma chain_snoc segs lo x y k :
  chain segs lo x -> x < y -> chain (segs ++ [(x, y, k)]) lo y.
Proof.
  intros H Hxy. eapply chain_app; eauto. constructor; auto. constructor.
Qed.

Lemma chain_app_inv l1 x y k l2 lo hi :
  chain (l1 ++ (x, y, k) :: l2) lo hi ->
  chain l1 lo x /\ x < y /\ chain l2 y hi.
Proof.
  revert lo. induction l1 as [|[[x1 y1] k1] l1 IH]; intros lo H; simpl in H.
  - inversion H as [|x0 y0 k0 r0 hi0 Hlt Hch]; subst.
    split; [constructor|]. auto.
  - inversion H as [|x0 y0 k0 r0 hi0 Hlt Hch]; subst.
    destruct (IH _ Hch) as (H1 & H2 & H3).
    split; [constructor; auto|]. auto.
Qed.

Lemma seg_ok_frame h I W P I' W' P' sg :
  seg_ok b h I W P sg ->
  (forall j, fst (fst sg) <= j < snd (fst sg) ->
     I'.[j] = I.[j] /\ P' j = P j /\ W'.[P j] = W.[P j]) ->
  seg_ok b h I' W' P' sg.
Proof.
  destruct sg as [[x y] k]. simpl. intros (Hx & Hy & Hc & Hk) HF.
  split; [auto|]. split; [auto|]. split.
  - intros j Hj. destruct (HF j Hj) as (_ & -> & ->). auto.
  - destruct k.
    + eapply parse_frame; eauto.
    + intros j Hj. destruct (HF j Hj) as (-> & -> & ->). auto.
    + intros j Hj. destruct (HF j Hj) as (_ & -> & ->). auto.
Qed.

(** Segments of a chain are untouched by a change outside the chain. *)
Lemma chain_frame h I W P I' W' P' segs lo hi x y :
  chain segs lo hi -> 0 <= lo -> hi <= n + 1 -> hi <= x \/ y <= lo ->
  Forall (seg_ok b h I W P) segs ->
  same_outside b x y I W P I' W' P' ->
  Forall (seg_ok b h I' W' P') segs.
Proof.
  induction 1 as [lo|x1 y1 k r hi Hxy Hch IH]; intros Hlo Hhi Hd HF Ho.
  - constructor.
  - inversion HF as [|sg l Hsg HF']; subst. pose proof (chain_le _ _ _ Hch).
    constructor.
    + eapply seg_ok_frame; [exact Hsg|]. simpl. intros j Hj.
      destruct (Ho j ltac:(unfold inr; lia) ltac:(lia)) as (-> & -> & ->). auto.
    + apply IH; auto; lia.
Qed.

Lemma chain_conf h I W P segs lo hi :
  chain segs lo hi -> Forall (seg_ok b h I W P) segs -> confined W P lo hi.
Proof.
  induction 1 as [lo|x1 y1 k r hi Hxy Hch IH]; intros HF j Hj; [lia|].
  inversion HF as [|sg l Hsg HF']; subst. pose proof (chain_le _ _ _ Hch).
  destruct Hsg as (_ & _ & Hc & _).
  destruct (Z_lt_dec j y1).
  - specialize (Hc j ltac:(lia)). lia.
  - specialize (IH HF' j ltac:(lia)). lia.
Qed.

(** When nothing is pending, the chain is parsed. *)
Lemma chain_parse h I W P segs lo hi :
  chain segs lo hi ->
  Forall (fun sg : seg => parse b (h + h) I W P (fst (fst sg)) (snd (fst sg)))
    segs ->
  parse b (h + h) I W P lo hi.
Proof.
  induction 1 as [lo|x1 y1 k r hi Hxy Hch IH]; intros HF; [constructor|].
  inversion HF as [|sg l Hsg HF']; subst. simpl in Hsg.
  eapply parse_app; [exact Hsg|]. auto.
Qed.

(** The group numbers of a parsed array tell suffixes apart up to the
    order of the parse. *)
Lemma parse_AgreeW hh I W P :
  permP b P -> parse b hh I W P 0 (n + 1) -> AgreeW b hh W.
Proof.
  intros (Hr & Hi & Hs) Hp p q Hp' Hq' E.
  destruct (Hs p Hp') as (j & Hj & <-). destruct (Hs q Hq') as (j' & Hj' & <-).
  apply (parse_agree _ _ _ _ _ _ Hp); unfold inr in *; auto; lia.
Qed.

Lemma ginv_upgrade h I K W P :
  ginv b h I K W P -> parse b (h + h) I W P 0 (n + 1) ->
  ginv b (h + h) I W W P.
Proof.
  intros (HlI & HlK & HlW & HP & HG & HMW & HAW & HMK & HAK) Hp.
  pose proof (parse_AgreeW _ _ _ _ HP Hp) as HA.
  unfold ginv. auto 12.
Qed.

(** A whole group, with all earlier slots done, is an active range. *)
Lemma active_of_group h I K W P x y :
  ginv b h I K W P -> group_at b h I W P x y ->
  0 <= x -> x < y <= n + 1 -> confined W P 0 x ->
  active b h I W P x y (y - 1).
Proof.
  intros (HlI & HlK & HlW & HP & HG & _) Hg Hx Hy Hc.
  split; [lia|]. split; [lia|]. split; [auto|]. split.
  - intros j Hj. specialize (Hc j ltac:(lia)). lia.
  - intros j j' Hj Hj' E.
    destruct (HG j' ltac:(unfold inr; lia)) as (H1 & _). lia.
Qed.

End PassSem.

Lemma tasks_of_app h l1 l2 : tasks_of h (l1 ++ l2) = tasks_of h l1 ++ tasks_of h l2.
Proof. unfold tasks_of. apply flat_map_app. Qed.

Lemma marks_of_app l1 l2 : marks_of (l1 ++ l2) = marks_of l1 ++ marks_of l2.
Proof. unfold marks_of. apply flat_map_app. Qed.

(** The [k]th task of the queue is the [k]th pending segment. *)
Lemma tasks_nth h segs :
  forall k t, nth_error (tasks_of h segs) k = Some t ->
  exists segs1 x y segs2,
    segs = segs1 ++ (x, y, KPend) :: segs2 /\ t = mkTask x (y - x) h /\
    remove_nth k (tasks_of h segs)
    = tasks_of h (segs1 ++ (x, y, KDone) :: segs2) /\
    marks_of (segs1 ++ (x, y, KDone) :: segs2) = marks_of segs.
Proof.
  induction segs as [|[[x1 y1] k1] r IH]; intros k t Hk.
  - destruct k; discriminate.
  - assert (Hskip : k1 <> KPend ->
      nth_error (tasks_of h r) k = Some t ->
      exists segs1 x y segs2,
        (x1, y1, k1) :: r = segs1 ++ (x, y, KPend) :: segs2 /\
        t = mkTask x (y - x) h /\
        remove_nth k (tasks_of h ((x1, y1, k1) :: r))
        = tasks_of h (segs1 ++ (x, y, KDone) :: segs2) /\
        marks_of (segs1 ++ (x, y, KDone) :: segs2)
        = marks_of ((x1, y1, k1) :: r)).
    { intros Hne Hr. destruct (IH k t Hr) as (s1 & x & y & s2 & E & Et & Er & Em).
      exists ((x1, y1, k1) :: s1), x, y, s2. subst r.
      split; [reflexivity|]. split; [auto|].
      destruct k1; try congruence; simpl in *; rewrite ?Er, ?Em; auto. }
    destruct k1.
    + apply Hskip; [discriminate|exact Hk].
    + simpl in Hk. destruct k as [|k].
      * injection Hk as <-. exists [], x1, y1, r. simpl. auto.
      * simpl in Hk.
        destruct (IH k t Hk) as (s1 & x & y & s2 & E & Et & Er & Em).
        exists ((x1, y1, KPend) :: s1), x, y, s2. subst r.
        split; [reflexivity|]. split; [auto|].
        simpl in *. rewrite Er, Em. auto.
    + apply Hskip; [discriminate|exact Hk].
Qed.

Lemma parse_inv_neg (b : list byte) hh I W P i m :
  parse b hh I W P i m -> i < m -> I.[i] < 0 ->
  exists k, 0 < k /\ I.[i] = - k /\ sorted_at W P i (i + k) /\
            parse b hh I W P (i + k) m.
Proof.
  intros H Him Hneg. inversion H; subst; try lia.
  exists k. auto.
Qed.

Lemma parse_inv_pos (b : list byte) hh I W P i m :
  parse b hh I W P i m -> i < m -> 0 <= I.[i] ->
  exists e, i <= e /\ group_at b hh I W P i (e + 1) /\
            (forall j j', i <= j <= e -> i <= j' <= e -> agree b hh (P j) (P j')) /\
            parse b hh I W P (e + 1) m.
Proof.
  intros H Him Hpos. inversion H as [|? k ? Hk HI|? e ? Hie HI Hg Ha Hp]; subst; try lia.
  exists e. split; [auto|]. split; [|auto].
  intros j Hj. replace (e + 1 - 1) with e by lia. apply Hg. lia.
Qed.

Lemma vref_eqb_eq a b : vref_eqb a b = true -> a = b.
Proof. destruct a, b; simpl; congruence. Qed.

Section PassModel.

Variable w : Z.
Hypothesis w_pos : 0 < w.
Variable b : list byte.
Local Abbreviation n := (len b).
Hypothesis fits : n + 1 < 2 ^ (w - 1).
Variable sched : Z -> Z -> list nat.
Variable parallel : bool.
Variable numWorkers : Z.
Hypothesis workers : parallel = true -> 1 <= numWorkers.
(** The array the group numbers are written to: [V2] in parallel mode. *)
Variable v2 : vref.
Hypothesis v2_def : vref_eqb v2 (if parallel then RefV2 else RefV) = true.
(** The order of the pass, and the variable [h] of the program, which
    has wrapped around when the order exceeds the width. *)
Variables hg h : Z.
Hypothesis hg_pos : 0 < hg.
Hypothesis h_hg : h = hg \/ n < hg.

Local Abbreviation score s P segs lo hi :=
  (core b hg (arrI s) (arrV s) (rd v2 s) P segs lo hi).

Ltac unw' :=
  unfold wadd, wsub, wneg, wquot;
  repeat match goal with
         | |- context [wrap w ?z] => rewrite (ws w w_pos b fits z) by lia
         end.

Lemma group_h s P x y :
  group_at b hg (arrI s) (rd v2 s) P x y -> x < y -> 0 <= x -> y <= n + 1 ->
  permP b P -> h = hg.
Proof.
  intros Hg Hxy Hx Hy (Hr & _). destruct h_hg as [|Hbig]; auto.
  destruct (Hg x ltac:(lia)) as (_ & _ & Hb).
  pose proof (Hr x ltac:(unfold inr; lia)) as Hp. unfold inr in Hp. lia.
Qed.

(** [split] on a whole group. *)
Lemma split_group fuel s P x y :
  ginv b hg (arrI s) (arrV s) (rd v2 s) P ->
  group_at b hg (arrI s) (rd v2 s) P x y ->
  0 <= x -> x < y <= n + 1 -> confined (rd v2 s) P 0 x ->
  y - x + 1 < Z.of_nat fuel ->
  exists s' P',
    split w fuel RefV v2 x (y - x) h s = Ok s' /\
    ginv b hg (arrI s') (arrV s') (rd v2 s') P' /\
    same_outside b x y (arrI s) (rd v2 s) P (arrI s') (rd v2 s') P' /\
    parse b (hg + hg) (arrI s') (rd v2 s') P' x y /\
    confined (rd v2 s') P' x y /\
    (forall j, inr b j -> ~ (x <= j < y) -> (arrV s').[P j] = (arrV s).[P j]).
Proof.
  intros Hg Hgr Hx Hy Hc Hf.
  assert (Eh : h = hg).
  { apply (group_h s P x y); auto; try lia. apply Hg. }
  rewrite Eh.
  pose proof (active_of_group b hg _ _ _ P x y Hg Hgr Hx Hy Hc) as Ha.
  destruct (split_ok w w_pos b fits hg hg_pos RefV v2 fuel s P x (y - x) y (y - 1))
    as (s' & P' & Hs & Hg' & Ho & Hp & Hcf & Hv); auto; try lia.
  exists s', P'. split; [exact Hs|]. split; [exact Hg'|].
  split; [exact Ho|]. split; [exact Hp|]. split; [exact Hcf|].
  intros j Hj Hn. clear Hs Hg' Hp Hcf. destruct v2.
  - simpl in *. apply Ho; auto.
  - simpl in Hv. rewrite Hv by discriminate. reflexivity.
Qed.

(** The parts of [core] that lie outside a range that changed. *)
Lemma core_frame s P s' P' segs lo hi x y :
  score s P segs lo hi ->
  ginv b hg (arrI s') (arrV s') (rd v2 s') P' ->
  same_outside b x y (arrI s) (rd v2 s) P (arrI s') (rd v2 s') P' ->
  (forall j, inr b j -> ~ (x <= j < y) -> (arrV s').[P j] = (arrV s).[P j]) ->
  y <= lo ->
  sorted_at (rd v2 s') P' lo hi /\
  parse b hg (arrI s') (arrV s') P' hi (n + 1) /\
  (forall j, hi <= j <= n -> (rd v2 s').[P' j] = (arrV s').[P' j]).
Proof.
  intros (Hlo & Hhi & Hg & Hch & HF & Hz & Hp & HWK) Hg' Ho HK Hy.
  split; [|split].
  - intros j Hj. destruct (Ho j ltac:(unfold inr; lia) ltac:(lia)) as (-> & _ & ->).
    apply Hz. lia.
  - eapply parse_frame; [exact Hp|]. intros j Hj.
    destruct (Ho j ltac:(unfold inr; lia) ltac:(lia)) as (-> & -> & _).
    split; [auto|]. split; [auto|]. apply HK; [unfold inr; lia|lia].
  - intros j Hj.
    destruct (Ho j ltac:(unfold inr; lia) ltac:(lia)) as (-> & _ & ->).
    rewrite HK by (unfold inr; lia). apply HWK. lia.
Qed.

(** A worker splits a pending group. *)
Lemma core_exec fuel s P segs1 x y segs2 lo hi :
  score s P (segs1 ++ (x, y, KPend) :: segs2) lo hi ->
  n + 2 < Z.of_nat fuel ->
  exists s' P',
    split w fuel RefV v2 x (y - x) h s = Ok s' /\
    score s' P' (segs1 ++ (x, y, KDone) :: segs2) lo hi.
Proof.
  intros Hcore Hf.
  pose proof Hcore as (Hlo & Hhi & Hg & Hch & HF & Hz & Hp & HWK).
  apply chain_app_inv in Hch. destruct Hch as (Hc1 & Hxy & Hc2).
  pose proof (chain_le _ _ _ Hc1). pose proof (chain_le _ _ _ Hc2).
  apply Forall_app in HF. destruct HF as (HF1 & HF2).
  inversion HF2 as [|sg l Hsg HF3]; subst.
  destruct Hsg as (Hx & Hy & Hcf & Hgr).
  destruct (split_group fuel s P x y)
    as (s' & P' & Hs & Hg' & Ho & Hp' & Hcf' & HK); auto; try lia.
  { eapply chain_conf; eauto. }
  exists s', P'. split; [exact Hs|].
  destruct (core_frame s P s' P' _ lo hi x y Hcore Hg' Ho HK ltac:(lia))
    as (Hz' & Hpp & HWK').
  split; [auto|]. split; [auto|]. split; [auto|]. split.
  { eapply chain_app; [exact Hc1|]. constructor; auto. }
  split; [|auto].
  apply Forall_app. split.
  - eapply chain_frame; [exact Hc1| | | |exact HF1|exact Ho]; lia.
  - constructor.
    + simpl. auto.
    + eapply chain_frame; [exact Hc2| | | |exact HF3|exact Ho]; lia.
Qed.

Lemma run_picks_nil fuel picks s : run_picks w fuel picks [] s = Ok ([], s).
Proof.
  induction picks as [|k picks IH]; simpl; auto. destruct k; simpl; auto.
Qed.

(** Whatever tasks the workers complete, and in whatever order, the
    state of the pass is kept. *)
Lemma run_picks_ok fuel picks :
  v2 = RefV2 -> n + 2 < Z.of_nat fuel ->
  forall s P segs lo hi,
  score s P segs lo hi ->
  exists s' P' segs',
    run_picks w fuel picks (tasks_of h segs) s = Ok (tasks_of h segs', s') /\
    score s' P' segs' lo hi /\ marks_of segs' = marks_of segs.
Proof.
  intros Hv2 Hf. induction picks as [|k picks IH]; intros s P segs lo hi Hc.
  - exists s, P, segs. simpl. auto.
  - simpl. destruct (nth_error (tasks_of h segs) k) as [t|] eqn:Ek.
    + destruct (tasks_nth h segs k t Ek) as (s1 & x & y & s2 & E & Et & Er & Em).
      subst segs t.
      destruct (core_exec fuel s P s1 x y s2 lo hi Hc Hf) as (s' & P' & Hs & Hc').
      unfold run_task. simpl. rewrite Hv2 in Hs. rewrite Hs. simpl.
      rewrite Er.
      destruct (IH s' P' _ lo hi Hc') as (s'' & P'' & segs'' & Hr & Hc'' & Hm).
      exists s'', P'', segs''. split; [exact Hr|]. split; [exact Hc''|].
      congruence.
    + apply (IH s P segs lo hi Hc).
Qed.

Lemma drain_ok fuel :
  v2 = RefV2 -> n + 2 < Z.of_nat fuel ->
  forall m segs s P lo hi,
  length (tasks_of h segs) = m ->
  score s P segs lo hi ->
  exists s' P' segs',
    drain w fuel (tasks_of h segs) s = Ok s' /\
    score s' P' segs' lo hi /\ tasks_of h segs' = [] /\
    marks_of segs' = marks_of segs.
Proof.
  intros Hv2 Hf. induction m as [|m IH]; intros segs s P lo hi Hl Hc.
  - destruct (tasks_of h segs) eqn:E; [|discriminate].
    exists s, P, segs. simpl. auto.
  - destruct (tasks_of h segs) as [|t r] eqn:E; [discriminate|].
    assert (Ek : nth_error (tasks_of h segs) 0 = Some t) by (rewrite E; reflexivity).
    destruct (tasks_nth h segs 0%nat t Ek) as (s1 & x & y & s2 & Es & Et & Er & Em).
    rewrite E in Er. simpl in Er. subst segs t.
    destruct (core_exec fuel s P s1 x y s2 lo hi Hc Hf) as (s' & P' & Hs & Hc').
    simpl. unfold run_task. simpl. rewrite Hv2 in Hs. rewrite Hs. simpl.
    rewrite Er.
    destruct (IH _ s' P' lo hi ltac:(rewrite <- Er; simpl in Hl; lia) Hc')
      as (s'' & P'' & segs'' & Hr & Hc'' & Ht & Hm).
    exists s'', P'', segs''. split; [exact Hr|]. split; [exact Hc''|].
    split; [exact Ht|]. congruence.
Qed.

(** The marks put off to the end of the pass turn the runs they cover
    into single runs. *)
Lemma apply_marks_ok W P segs lo hi :
  chain segs lo hi ->
  forall s, 0 <= lo -> hi <= n + 1 -> len (arrI s) = n + 1 ->
  Forall (seg_ok b hg (arrI s) W P) segs -> tasks_of h segs = [] ->
  exists I',
    apply_marks (marks_of segs) s = Ok (withI s I') /\ len I' = n + 1 /\
    (forall j, 0 <= j -> ~ (lo <= j < hi) -> I'.[j] = (arrI s).[j]) /\
    Forall (fun sg : seg =>
              parse b (hg + hg) I' W P (fst (fst sg)) (snd (fst sg))) segs.
Proof.
  induction 1 as [lo|x y k r hi Hxy Hch IH]; intros s Hlo Hhi HlI HF Ht.
  - exists (arrI s). simpl. rewrite withI_arrI. auto.
  - inversion HF as [|sg l Hsg HF']; subst.
    pose proof (chain_le _ _ _ Hch) as Hle.
    destruct Hsg as (Hx & Hy & Hcf & Hk).
    destruct k.
    + (* already parsed *)
      destruct (IH s ltac:(lia) Hhi HlI HF' Ht) as (I' & Ha & Hl' & Ho & HP).
      exists I'. split; [exact Ha|]. split; [exact Hl'|]. split.
      * intros j Hj Hn. apply Ho; auto. lia.
      * constructor; [|exact HP]. simpl.
        eapply parse_frame; [exact Hk|]. intros j Hj.
        split; [apply Ho; lia|auto].
    + discriminate.
    + (* a deferred mark *)
      simpl. rewrite setI_ok by lia. simpl.
      set (I1 := updZ (arrI s) x (- (y - x))).
      assert (HF1 : Forall (seg_ok b hg (arrI (withI s I1)) W P) r).
      { eapply (chain_frame b hg (arrI s) W P I1 W P r y hi x (x + 1));
          eauto; try lia.
        intros j Hj Hn. split; [auto|]. split; [|auto].
        unfold I1. apply idx_updZ_other; unfold inr in *; lia. }
      destruct (IH (withI s I1) ltac:(lia) Hhi) as (I' & Ha & Hl' & Ho & HP); auto.
      { simpl. unfold I1. rewrite len_updZ. auto. }
      exists I'. rewrite Ha. split; [reflexivity|]. split; [exact Hl'|]. split.
      * intros j Hj Hn. rewrite Ho by (auto; lia). simpl. unfold I1.
        apply idx_updZ_other; lia.
      * constructor; [|exact HP]. simpl.
        replace y with (x + (y - x)) at 1 by lia.
        apply parse_run with (k := y - x); try lia.
        -- rewrite Ho by lia. simpl. unfold I1. apply idx_updZ_same. lia.
        -- intros j Hj. apply Hk. lia.
        -- replace (x + (y - x)) with y by lia. constructor.
Qed.

(** The sweep meets a run of sorted suffixes. *)
Lemma core_run s P segs lo i :
  score s P segs lo i -> i < n + 1 -> (arrI s).[i] < 0 ->
  exists k, 0 < k /\ (arrI s).[i] = - k /\ i + k <= n + 1 /\
            score s P segs lo (i + k).
Proof.
  intros (Hlo & Hhi & Hg & Hch & HF & Hz & Hp & HWK) Hi Hneg.
  destruct (parse_inv_neg b hg _ _ _ _ _ Hp Hi Hneg) as (k & Hk & E & Hs & Hp').
  pose proof (parse_le _ _ _ _ _ _ _ Hp') as Hle.
  exists k. split; [auto|]. split; [auto|]. split; [auto|].
  split; [lia|]. split; [auto|]. split; [auto|]. split; [auto|].
  split; [auto|]. split.
  - intros j Hj. destruct (Z_lt_dec j i).
    + apply Hz. lia.
    + rewrite HWK by lia. apply Hs. lia.
  - split; [auto|]. intros j Hj. apply HWK. lia.
Qed.

(** The sorted suffixes met so far wait for a deferred mark. *)
Lemma core_merge_mark s P segs lo hi :
  score s P segs lo hi -> lo < hi ->
  score s P (segs ++ [(lo, hi, KMark)]) hi hi.
Proof.
  intros (Hlo & Hhi & Hg & Hch & HF & Hz & Hp & HWK) Hlt.
  split; [lia|]. split; [auto|]. split; [auto|].
  split; [apply chain_snoc; auto|]. split.
  - apply Forall_app. split; [auto|]. constructor; [|constructor].
    simpl. split; [lia|]. split; [lia|]. split; [|auto].
    intros j Hj. rewrite Hz by lia. lia.
  - split; [intros j Hj; lia|]. auto.
Qed.

(** The sorted suffixes met so far are merged into one run at once. *)
Lemma core_merge_seq s P segs lo hi :
  score s P segs lo hi -> lo < hi ->
  score (withI s (updZ (arrI s) lo (- (hi - lo)))) P
    (segs ++ [(lo, hi, KDone)]) hi hi.
Proof.
  intros (Hlo & Hhi & Hg & Hch & HF & Hz & Hp & HWK) Hlt.
  pose proof Hg as (HlI & _).
  rewrite arrI_withI, rd_withI. simpl arrV.
  set (I' := updZ (arrI s) lo (- (hi - lo))).
  assert (HI' : forall j, 0 <= j -> j <> lo -> I'.[j] = (arrI s).[j]).
  { intros j Hj Hne. unfold I'. apply idx_updZ_other; lia. }
  split; [lia|]. split; [auto|]. split.
  { destruct Hg as (? & G). split; [unfold I'; now rewrite len_updZ|exact G]. }
  split; [apply chain_snoc; auto|]. split.
  - apply Forall_app. split.
    + eapply (chain_frame b hg (arrI s) _ P I' _ P segs 0 lo lo (lo + 1));
        eauto; try lia.
      intros j Hj Hn. split; [auto|]. split; [|auto].
      apply HI'; unfold inr in *; lia.
    + constructor; [|constructor]. simpl.
      split; [lia|]. split; [lia|]. split.
      * intros j Hj. rewrite Hz by lia. lia.
      * replace hi with (lo + (hi - lo)) at 1 by lia.
        apply parse_run with (k := hi - lo); try lia.
        -- unfold I'. apply idx_updZ_same. lia.
        -- intros j Hj. apply Hz. lia.
        -- replace (lo + (hi - lo)) with hi by lia. constructor.
  - split; [intros j Hj; lia|]. split; [|auto].
    eapply parse_frame; [exact Hp|]. intros j Hj.
    split; [apply HI'; lia|auto].
Qed.

(** The sweep meets a group: it may be sent to the workers. *)
Lemma core_group s P segs i :
  score s P segs i i -> i < n + 1 -> 0 <= (arrI s).[i] ->
  exists e, i <= e <= n /\ (arrI s).[i] = P i /\ (arrV s).[P i] = e /\
            0 <= P i <= n /\ P i + hg <= n /\
            score s P (segs ++ [(i, e + 1, KPend)]) (e + 1) (e + 1).
Proof.
  intros (Hlo & Hhi & Hg & Hch & HF & Hz & Hp & HWK) Hi Hpos.
  destruct (parse_inv_pos b hg _ _ _ _ _ Hp Hi Hpos) as (e & Hie & Hgr & Hag & Hp').
  pose proof (parse_le _ _ _ _ _ _ _ Hp') as Hle.
  pose proof Hg as (_ & _ & _ & (Hr & _) & _).
  destruct (Hgr i ltac:(lia)) as (E1 & E2 & E3).
  exists e. split; [lia|]. split; [auto|]. split; [rewrite E2; lia|].
  split; [apply (Hr i); unfold inr; lia|]. split; [auto|].
  split; [lia|]. split; [lia|]. split; [auto|].
  split; [apply chain_snoc; auto; lia|]. split.
  - apply Forall_app. split; [auto|]. constructor; [|constructor].
    simpl. split; [lia|]. split; [lia|]. split.
    + intros j Hj. rewrite HWK by lia.
      destruct (Hgr j Hj) as (_ & -> & _). lia.
    + intros j Hj. rewrite HWK by lia. apply Hgr. auto.
  - split; [intros j Hj; lia|]. split; [auto|].
    intros j Hj. apply HWK. lia.
Qed.

Local Abbreviation swinv st P segs :=
  (score (sw_store st) P segs (sw_i st - sw_n st) (sw_i st) /\
   sw_tasks st = tasks_of h segs /\ sw_marks st = marks_of segs /\
   (n < hg -> sw_i st = sw_n st) /\
   (parallel = false -> tasks_of h segs = [] /\ marks_of segs = [])).

Ltac case_par Epar Hv2 Hwk :=
  pose proof v2_def as Hv2; pose proof workers as Hwk;
  destruct (Bool.bool_dec parallel true) as [Epar|Epar];
  [|apply Bool.not_true_is_false in Epar];
  rewrite Epar in Hv2, Hwk; rewrite ?Epar;
  simpl in Hv2; apply vref_eqb_eq in Hv2.

(** One turn of the sweep. *)
Lemma sweep_step_ok fuel st P segs :
  n + 2 < Z.of_nat fuel -> swinv st P segs -> sw_i st < n + 1 ->
  exists st' P' segs',
    sweep_step w sched fuel parallel numWorkers h st = Ok st' /\
    swinv st' P' segs' /\ sw_i st < sw_i st'.
Proof.
  destruct st as [i nacc marks tasks s]. simpl.
  intros Hf (Hc & Ht & Hm & Hbig & Hseq) Hi.
  unfold sweep_step. simpl.
  (* the workers *)
  assert (Hpk : exists s1 P1 segs1,
    run_picks w fuel (sched h i) tasks s = Ok (tasks_of h segs1, s1) /\
    score s1 P1 segs1 (i - nacc) i /\ marks_of segs1 = marks_of segs /\
    (parallel = false -> tasks_of h segs1 = [])).
  { case_par Epar Hv2 Hwk.
    - rewrite Ht.
      destruct (run_picks_ok fuel (sched h i) Hv2 Hf s P segs _ _ Hc)
        as (s1 & P1 & segs1 & Hr & Hc1 & Hm1).
      exists s1, P1, segs1. split; [exact Hr|]. split; [exact Hc1|].
      split; [exact Hm1|]. discriminate.
    - destruct (Hseq Epar) as (Et & Em). rewrite Ht, Et, run_picks_nil.
      exists s, P, segs. rewrite Et. auto. }
  destruct Hpk as (s1 & P1 & segs1 & Hr & Hc1 & Hm1 & Hseq1).
  rewrite Hr. cbn [bind].
  pose proof Hc1 as (Hlo & Hhi & Hg & _). pose proof Hg as (HlI & HlK & HlW & _).
  rewrite !getI_ok by lia. cbn [bind].
  destruct (Z.ltb_spec (arrI s1).[i] 0) as [Hneg|Hpos].
  - (* a run of sorted suffixes *)
    destruct (core_run s1 P1 segs1 _ i Hc1 Hi Hneg) as (k & Hk & E & Hik & Hc2).
    cbn [bind]. rewrite E. unw'.
    eexists; exists P1, segs1. split; [reflexivity|]. simpl.
    split; [|lia].
    replace (i - - k - (nacc - - k)) with (i - nacc) by lia.
    replace (i - - k) with (i + k) by lia.
    split; [exact Hc2|]. split; [reflexivity|]. split; [congruence|].
    split; [intros Hb; specialize (Hbig Hb); lia|].
    intros Ep. split; [auto|]. rewrite Hm1. apply Hseq. exact Ep.
  - (* a group *)
    assert (Hmg : exists marks2 s2 segs2,
      (if nacc =? 0 then Ok (marks, s1)
       else if parallel
            then Ok (marks ++ [mkMark (wsub w i nacc) (wneg w nacc)], s1)
            else s' <- setI s1 (wsub w i nacc) (wneg w nacc) ;; Ok (marks, s'))
      = Ok (marks2, s2) /\
      score s2 P1 segs2 i i /\ tasks_of h segs2 = tasks_of h segs1 /\
      marks2 = marks_of segs2 /\ (arrI s2).[i] = (arrI s1).[i] /\
      (parallel = false -> marks_of segs2 = [])).
    { destruct (Z.eqb_spec nacc 0) as [E0|E0].
      - exists marks, s1, segs1. split; [reflexivity|].
        replace (i - nacc) with i in Hc1 by lia.
        split; [exact Hc1|]. split; [reflexivity|]. split; [congruence|].
        split; [reflexivity|]. intros Ep. rewrite Hm1. apply Hseq. exact Ep.
      - unw'. case_par Epar Hv2 Hwk.
        + exists (marks ++ [mkMark (i - nacc) (- nacc)]), s1,
            (segs1 ++ [(i - nacc, i, KMark)]).
          split; [reflexivity|].
          split; [apply core_merge_mark; auto; lia|].
          rewrite tasks_of_app, marks_of_app. simpl.
          split; [apply app_nil_r|]. split.
          { rewrite Hm1, Hm. do 3 f_equal. lia. }
          split; [reflexivity|]. discriminate.
        + rewrite setI_ok by lia. cbn [bind].
          exists marks, (withI s1 (updZ (arrI s1) (i - nacc) (- nacc))),
            (segs1 ++ [(i - nacc, i, KDone)]).
          split; [reflexivity|].
          split.
          { replace (- nacc) with (- (i - (i - nacc))) by lia.
            apply core_merge_seq; auto; lia. }
          rewrite tasks_of_app, marks_of_app. simpl.
          split; [apply app_nil_r|]. rewrite app_nil_r.
          split; [congruence|].
          split; [apply idx_updZ_other; lia|].
          intros _. rewrite Hm1. apply Hseq. exact Epar. }
    destruct Hmg as (marks2 & s2 & segs2 & Hmg & Hc2 & Ht2 & Hm2 & EI & Hseq2).
    rewrite Hmg. cbn [bind].
    destruct (core_group s2 P1 segs2 i Hc2 Hi ltac:(rewrite EI; lia))
      as (e & He & EP & EV & HPi & HPh & Hc3).
    pose proof Hc2 as (_ & _ & Hg2 & _).
    pose proof Hg2 as (HlI2 & HlK2 & HlW2 & _).
    rewrite getI_ok by lia. cbn [bind]. rewrite EP.
    unfold getV. simpl rd. rewrite get_ok by lia. cbn [bind]. rewrite EV.
    unw'.
    assert (Hdp : exists tasks3 s3 P3 segs3,
      (if parallel && (e + 1 - i >? 128)
       then if numWorkers <? 1 then Deadlock
            else Ok (tasks_of h segs1 ++ [mkTask i (e + 1 - i) h], s2)
       else if parallel
            then s' <- split w fuel RefV RefV2 i (e + 1 - i) h s2 ;;
                 Ok (tasks_of h segs1, s')
            else s' <- split w fuel RefV RefV i (e + 1 - i) h s2 ;;
                 Ok (tasks_of h segs1, s'))
      = Ok (tasks3, s3) /\
      score s3 P3 segs3 (e + 1) (e + 1) /\ tasks3 = tasks_of h segs3 /\
      marks_of segs3 = marks_of segs2 /\
      (parallel = false -> tasks_of h segs3 = [])).
    { assert (Hinl : forall vv, v2 = vv ->
        exists s3 P3,
          split w fuel RefV vv i (e + 1 - i) h s2 = Ok s3 /\
          score s3 P3 (segs2 ++ [(i, e + 1, KDone)]) (e + 1) (e + 1)).
      { intros vv <-.
        apply (core_exec fuel s2 P1 segs2 i (e + 1) [] (e + 1) (e + 1) Hc3 Hf). }
      assert (Etd : tasks_of h (segs2 ++ [(i, e + 1, KDone)]) = tasks_of h segs1).
      { rewrite tasks_of_app. simpl. rewrite app_nil_r. exact Ht2. }
      assert (Emd : marks_of (segs2 ++ [(i, e + 1, KDone)]) = marks_of segs2).
      { rewrite marks_of_app. simpl. apply app_nil_r. }
      case_par Epar Hv2 Hwk.
      - destruct (Z.gtb_spec (e + 1 - i) 128) as [Hbg|Hsm]; simpl.
        + destruct (Z.ltb_spec numWorkers 1); [specialize (Hwk eq_refl); lia|].
          exists (tasks_of h segs1 ++ [mkTask i (e + 1 - i) h]), s2, P1,
            (segs2 ++ [(i, e + 1, KPend)]).
          split; [reflexivity|]. split; [exact Hc3|].
          rewrite tasks_of_app, marks_of_app. simpl.
          split; [now rewrite Ht2|]. split; [apply app_nil_r|]. discriminate.
        + destruct (Hinl RefV2 Hv2) as (s3 & P3 & Hs3 & Hc4).
          rewrite Hs3. cbn [bind].
          exists (tasks_of h segs1), s3, P3, (segs2 ++ [(i, e + 1, KDone)]).
          split; [reflexivity|]. split; [exact Hc4|]. split; [now rewrite Etd|].
          split; [exact Emd|]. discriminate.
      - simpl. destruct (Hinl RefV Hv2) as (s3 & P3 & Hs3 & Hc4).
        rewrite Hs3. cbn [bind].
        exists (tasks_of h segs1), s3, P3, (segs2 ++ [(i, e + 1, KDone)]).
        split; [reflexivity|]. split; [exact Hc4|]. split; [now rewrite Etd|].
        split; [exact Emd|]. intros _. rewrite Etd. apply Hseq1. exact Epar. }
    destruct Hdp as (tasks3 & s3 & P3 & segs3 & Hdp & Hc4 & Ht3 & Hm3 & Hseq3).
    rewrite Hdp. cbn [bind].
    eexists; exists P3, segs3. split; [reflexivity|]. simpl.
    replace (i + (e + 1 - i)) with (e + 1) by lia.
    split; [|lia].
    replace (e + 1 - 0) with (e + 1) by lia.
    split; [exact Hc4|]. split; [exact Ht3|]. split; [congruence|].
    split; [intros Hb; lia|].
    intros Ep. split; [auto|]. rewrite Hm3. auto.
Qed.

Lemma copy_same (dst src : list Z) :
  length dst = length src -> copy dst src = src.
Proof.
  intros E. unfold copy. rewrite E, firstn_all, <- E, skipn_all. apply app_nil_r.
Qed.

(** A pass of order [hg] leaves the arrays ready for the pass of order
    [hg + hg]; when no group can have that many symbols, it leaves the
    single run that ends the sort. *)
Lemma pass_ok fuel s P taskBufferSize :
  n + 2 < Z.of_nat fuel -> 0 <= taskBufferSize ->
  between b hg s P -> (parallel = true -> arrV2 s = arrV s) ->
  exists s' P',
    pass w sched fuel parallel numWorkers taskBufferSize n h s = Ok s' /\
    between b (hg + hg) s' P' /\
    (parallel = true -> arrV2 s' = arrV s') /\
    (n < hg -> (arrI s').[0] = - (n + 1)).
Proof.
  intros Hf Hbuf (_ & Hg0 & Hp0) HV2.
  pose proof (len_nonneg b) as Hn.
  unfold pass. destruct (Z.ltb_spec taskBufferSize 0); [lia|]. cbn [bind].
  assert (EW : rd v2 s = arrV s).
  { case_par Epar Hv2 Hwk; rewrite Hv2; simpl; auto. }
  pose (Inv := fun st : sweep => exists P segs, swinv st P segs).
  match goal with |- context [while fuel ?cd ?bd _] =>
    destruct (while_rule Inv (fun st => n + 1 - sw_i st) cd bd)
      with (fuel := fuel) (s := mkSweep 0 0 [] [] s)
      as (st & Hw & (P1 & segs1 & Hc & Ht & Hm & Hbig & Hseq) & Hcond)
  end.
  - intros st (P' & segs' & (Hlo & Hhi & _) & _). lia.
  - intros st (P' & segs' & Hsw). pose proof Hsw as ((Hlo & Hhi & _) & _).
    unw'. eexists; split; [reflexivity|]. intros Hlt. apply Z.ltb_lt in Hlt.
    destruct (sweep_step_ok fuel st P' segs' Hf Hsw Hlt)
      as (st' & P'' & segs'' & Hs & Hsw' & Hlt').
    exists st'. split; [exact Hs|]. split; [exists P'', segs''; exact Hsw'|lia].
  - exists P, []. simpl. rewrite EW.
    split.
    { split; [lia|]. split; [lia|]. split; [exact Hg0|].
      split; [constructor|]. split; [constructor|].
      split; [intros j Hj; lia|]. split; [exact Hp0|]. auto. }
    split; [reflexivity|]. split; [reflexivity|]. split; [auto|]. auto.
  - simpl. lia.
  - rewrite Hw. cbn [bind]. clear Hw.
    destruct st as [i nacc marks tasks s1]. simpl in *.
    unw'. unfold wadd in Hcond. rewrite (ws w w_pos b fits (n + 1)) in Hcond by lia.
    injection Hcond as Hcond. apply Z.ltb_ge in Hcond.
    pose proof Hc as (Hlo & Hhi & _).
    assert (i = n + 1) by lia. subst i.
    (* the workers are waited for and the marks applied *)
    assert (Hjoin : exists s4 P4,
      (if parallel
       then '(tasks', s') <- run_picks w fuel (sched h (n + 1)) tasks s1 ;;
            s' <- drain w fuel tasks' s' ;; apply_marks marks s'
       else Ok s1) = Ok s4 /\
      ginv b hg (arrI s4) (arrV s4) (rd v2 s4) P4 /\
      parse b (hg + hg) (arrI s4) (rd v2 s4) P4 0 (n + 1 - nacc) /\
      sorted_at (rd v2 s4) P4 (n + 1 - nacc) (n + 1)).
    { assert (Hfin : forall s3 P3 segs3,
        score s3 P3 segs3 (n + 1 - nacc) (n + 1) -> tasks_of h segs3 = [] ->
        exists I4,
          apply_marks (marks_of segs3) s3 = Ok (withI s3 I4) /\
          ginv b hg I4 (arrV s3) (rd v2 s3) P3 /\
          parse b (hg + hg) I4 (rd v2 s3) P3 0 (n + 1 - nacc) /\
          sorted_at (rd v2 s3) P3 (n + 1 - nacc) (n + 1)).
      { intros s3 P3 segs3 (Hlo3 & Hhi3 & Hg3 & Hch3 & HF3 & Hz3 & _) Ht3.
        pose proof Hg3 as (HlI3 & G3).
        destruct (apply_marks_ok (rd v2 s3) P3 segs3 0 (n + 1 - nacc) Hch3 s3)
          as (I4 & Ha & Hl4 & _ & HP4); auto; try lia.
        exists I4. split; [exact Ha|]. split; [split; auto|].
        split; [eapply chain_parse; eauto|exact Hz3]. }
      case_par Epar Hv2 Hwk.
      - rewrite Ht.
        destruct (run_picks_ok fuel (sched h (n + 1)) Hv2 Hf s1 P1 segs1 _ _ Hc)
          as (s2 & P2 & segs2 & Hr & Hc2 & Hm2).
        rewrite Hr. cbn [bind].
        destruct (drain_ok fuel Hv2 Hf _ segs2 s2 P2 _ _ eq_refl Hc2)
          as (s3 & P3 & segs3 & Hd & Hc3 & Ht3 & Hm3).
        rewrite Hd. cbn [bind].
        destruct (Hfin s3 P3 segs3 Hc3 Ht3) as (I4 & Ha & Hg4 & Hp4 & Hz4).
        rewrite Hm, <- Hm2, <- Hm3, Ha.
        exists (withI s3 I4), P3. rewrite arrI_withI, rd_withI. simpl arrV. auto.
      - destruct (Hseq Epar) as (Et & Em).
        destruct (Hfin s1 P1 segs1 Hc Et) as (I4 & Ha & Hg4 & Hp4 & Hz4).
        rewrite Em in Ha. simpl in Ha. injection Ha as Ha.
        exists s1, P1. split; [reflexivity|].
        rewrite Ha at 1 2 4. rewrite arrI_withI. auto. }
    destruct Hjoin as (s4 & P4 & Hj & Hg4 & Hp4 & Hz4).
    rewrite Hj. cbn [bind]. clear Hj.
    pose proof Hg4 as (HlI4 & HlK4 & HlW4 & _).
    (* the last run *)
    assert (Hlast : exists s5,
      (if nacc =? 0 then Ok s4
       else setI s4 (n + 1 - nacc) (- nacc)) = Ok s5 /\
      arrV s5 = arrV s4 /\ arrV2 s5 = arrV2 s4 /\ len (arrI s5) = n + 1 /\
      parse b (hg + hg) (arrI s5) (rd v2 s4) P4 0 (n + 1) /\
      (nacc = n + 1 -> (arrI s5).[0] = - (n + 1))).
    { destruct (Z.eqb_spec nacc 0) as [E0|E0].
      - exists s4. split; [reflexivity|]. split; [auto|]. split; [auto|].
        split; [auto|]. replace (n + 1 - nacc) with (n + 1) in Hp4 by lia.
        split; [exact Hp4|]. lia.
      - rewrite setI_ok by lia.
        exists (withI s4 (updZ (arrI s4) (n + 1 - nacc) (- nacc))).
        split; [reflexivity|]. split; [reflexivity|]. split; [reflexivity|].
        rewrite arrI_withI. split; [now rewrite len_updZ|]. split.
        + eapply parse_app.
          * eapply parse_frame; [exact Hp4|]. intros j Hj.
            split; [apply idx_updZ_other; lia|auto].
          * apply parse_run with (k := nacc); try lia.
            -- apply idx_updZ_same. lia.
            -- intros j Hj. apply Hz4. lia.
            -- replace (n + 1 - nacc + nacc) with (n + 1) by lia. constructor.
        + intros ->. replace (n + 1 - (n + 1)) with 0 by lia.
          apply idx_updZ_same. lia. }
    destruct Hlast as (s5 & Hl & EV & EV2 & HlI5 & Hp5 & HI0).
    unw'. rewrite Hl. cbn [bind]. clear Hl.
    assert (Hup : ginv b (hg + hg) (arrI s5) (rd v2 s4) (rd v2 s4) P4).
    { apply (ginv_upgrade b hg (arrI s5) (arrV s4) (rd v2 s4) P4); auto.
      destruct Hg4 as (_ & G). split; auto. }
    assert (Hend : forall s6, arrI s6 = arrI s5 -> arrV s6 = rd v2 s4 ->
              between b (hg + hg) s6 P4 /\
              (n < hg -> (arrI s6).[0] = - (n + 1))).
    { intros s6 E1 E2. split.
      - split; [lia|]. rewrite E1, E2. auto.
      - intros Hb. rewrite E1. apply HI0. specialize (Hbig Hb). lia. }
    case_par Epar Hv2 Hwk.
    + rewrite Hv2 in *. simpl in *.
      rewrite copy_same by (unfold len in *; rewrite EV, EV2; lia).
      eexists; exists P4. split; [reflexivity|].
      destruct (Hend (wr RefV s5 (arrV2 s5))) as (B1 & B2);
        [reflexivity|simpl; exact EV2|].
      split; [exact B1|]. split; [reflexivity|exact B2].
    + rewrite Hv2 in *. simpl in *.
      exists s5, P4. split; [reflexivity|].
      destruct (Hend s5) as (B1 & B2); [reflexivity|exact EV|].
      split; [exact B1|]. split; [discriminate|exact B2].
Qed.

End PassModel.

(** ** The doubling loop and the final inversion *)

Section Doubling.

Variable w : Z.
Hypothesis w_pos : 0 < w.
Variable b : list byte.
Local Abbreviation n := (len b).
Hypothesis fits : n + 1 < 2 ^ (w - 1).
Variable sched : Z -> Z -> list nat.
Variable parallel : bool.
Variable numWorkers : Z.
Hypothesis workers : parallel = true -> 1 <= numWorkers.
Variable taskBufferSize : Z.
Hypothesis buffer : 0 <= taskBufferSize.

Lemma v2_ok : vref_eqb (if parallel then RefV2 else RefV)
                (if parallel then RefV2 else RefV) = true.
Proof. destruct parallel; reflexivity. Qed.

(** The loop [for h = 1; I[0] != -(obuflen + 1); h += h], with the fuel
    [f] of the loop apart from the fuel [F] of its body. *)
Lemma doubling_ok (F : nat) :
  n + 2 < Z.of_nat F ->
  forall (d f : nat) hg h s P,
  between b hg s P -> h = hg \/ n < hg ->
  (parallel = true -> arrV2 s = arrV s) ->
  n < hg * 2 ^ Z.of_nat d -> (d + 2 <= f)%nat ->
  exists h' s' hg' P',
    while f
      (fun '(h, s) =>
         I0 <- getI s 0 ;; Ok (negb (I0 =? wneg w (wadd w n 1))))
      (fun '(h, s) =>
         s' <- pass w sched F parallel numWorkers taskBufferSize n h s ;;
         Ok (wadd w h h, s'))
      (h, s) = Ok (h', s') /\
    between b hg' s' P' /\ (arrI s').[0] = - (n + 1).
Proof.
  intros HF. pose proof (len_nonneg b) as Hn.
  assert (Hcond : forall s, len (arrI s) = n + 1 ->
    (I0 <- getI s 0 ;; Ok (negb (I0 =? wneg w (wadd w n 1))))
    = Ok (negb ((arrI s).[0] =? - (n + 1)))).
  { intros s Hl. rewrite getI_ok by lia. cbn [bind].
    unfold wneg, wadd. rewrite (ws w w_pos b fits (n + 1)) by lia.
    now rewrite (ws w w_pos b fits (- (n + 1))) by lia. }
  induction d as [|d IH]; intros f hg h s P Hb Hh HV Hd Hf.
  - (* the order exceeds the length: one pass at most *)
    destruct f as [|[|f]]; try lia.
    assert (Hbig : n < hg).
    { change (Z.of_nat 0) with 0 in Hd. rewrite Z.pow_0_r in Hd. lia. }
    pose proof Hb as (Hpos & (HlI & _) & _).
    cbn [while]. rewrite Hcond by auto. cbn [bind].
    destruct (Z.eqb_spec (arrI s).[0] (- (n + 1))) as [E|E]; cbn [negb].
    + exists h, s, hg, P. auto.
    + destruct (pass_ok w w_pos b fits sched parallel numWorkers workers _ v2_ok
                  hg h Hpos Hh F s P taskBufferSize HF buffer Hb HV)
        as (s1 & P1 & Hp & Hb1 & HV1 & HI1).
      rewrite Hp. cbn [bind].
      pose proof Hb1 as (_ & (HlI1 & _) & _).
      rewrite Hcond by auto. cbn [bind].
      rewrite (HI1 Hbig), Z.eqb_refl. cbn [negb].
      exists (wadd w h h), s1, (hg + hg), P1. split; [reflexivity|].
      split; [exact Hb1|]. apply HI1. exact Hbig.
  - destruct f as [|f]; try lia.
    pose proof Hb as (Hpos & (HlI & _) & _).
    cbn [while]. rewrite Hcond by auto. cbn [bind].
    destruct (Z.eqb_spec (arrI s).[0] (- (n + 1))) as [E|E]; cbn [negb].
    + exists h, s, hg, P. auto.
    + destruct (pass_ok w w_pos b fits sched parallel numWorkers workers _ v2_ok
                  hg h Hpos Hh F s P taskBufferSize HF buffer Hb HV)
        as (s1 & P1 & Hp & Hb1 & HV1 & HI1).
      rewrite Hp. cbn [bind].
      apply (IH f (hg + hg) (wadd w h h) s1 P1); auto; try lia.
      * destruct (Z_le_gt_dec (hg + hg) n) as [Hle|Hgt]; [left|right; lia].
        destruct Hh as [->|Hh]; [|lia].
        unfold wadd. apply (ws w w_pos b fits). lia.
      * rewrite Nat2Z.inj_succ, Z.pow_succ_r in Hd by lia. lia.
Qed.

(** [for i = 0; i < obuflen+1; i++ { I[V[i]] = i }] writes each suffix
    into its slot. *)
Lemma invert_ok fuel hg s P :
  between b hg s P -> (arrI s).[0] = - (n + 1) ->
  n + 1 < Z.of_nat fuel ->
  exists I',
    invert w fuel n s = Ok (withI s I') /\ len I' = n + 1 /\
    (forall j, 0 <= j <= n -> I'.[j] = P j) /\
    (forall j, 0 <= j <= n -> (arrV s).[P j] = j).
Proof.
  intros (Hpos & Hg & Hp) HI0 Hf. pose proof (len_nonneg b) as Hn.
  pose proof Hg as (HlI & HlK & _ & (Hr & Hi & Hs) & _).
  assert (Hsorted : forall j, 0 <= j <= n -> (arrV s).[P j] = j).
  { destruct (parse_inv_neg b hg _ _ _ _ _ Hp ltac:(lia) ltac:(lia))
      as (k & Hk & E & Hz & _).
    intros j Hj. apply Hz. lia. }
  assert (Hinj : forall p q, 0 <= p <= n -> 0 <= q <= n ->
            (arrV s).[p] = (arrV s).[q] -> p = q).
  { intros p q Hp' Hq' E.
    destruct (Hs p Hp') as (j & Hj & <-). destruct (Hs q Hq') as (j' & Hj' & <-).
    rewrite !Hsorted in E by auto. now subst j'. }
  assert (HVr : forall p, 0 <= p <= n -> 0 <= (arrV s).[p] <= n).
  { intros p Hp'. destruct (Hs p Hp') as (j & Hj & <-).
    rewrite Hsorted by auto. exact Hj. }
  pose (Inv := fun st : Z * store =>
    let '(i, s') := st in
    exists I', s' = withI s I' /\ 0 <= i <= n + 1 /\ len I' = n + 1 /\
      forall p, 0 <= p < i -> I'.[(arrV s).[p]] = p).
  unfold invert.
  match goal with |- context [while fuel ?cd ?bd _] =>
    destruct (while_rule Inv (fun st => let '(i, _) := st in n + 1 - i) cd bd)
      with (fuel := fuel) (s := (0, s))
      as ([i s'] & Hw & (I' & -> & Hi' & Hl' & HI') & Hcond)
  end.
  - intros [i s'] (I' & _ & Hi' & _). lia.
  - intros [i s'] (I' & -> & Hi' & Hl' & HI').
    unfold wadd. rewrite !(ws w w_pos b fits) by lia.
    eexists; split; [reflexivity|]. intros Hlt. apply Z.ltb_lt in Hlt.
    unfold getV. simpl rd. rewrite get_ok by lia. cbn [bind].
    pose proof (HVr i ltac:(lia)) as Hv.
    rewrite setI_ok by (simpl; lia). cbn [bind]. simpl arrI.
    rewrite (ws w w_pos b fits (i + 1)) by lia.
    eexists; split; [reflexivity|]. split; [|lia].
    exists (updZ I' (arrV s).[i] i). split; [reflexivity|].
    split; [lia|]. split; [now rewrite len_updZ|].
    intros p Hp'. pose proof (HVr p ltac:(lia)) as Hvp.
    rewrite idx_updZ by lia.
    destruct (Z.eqb_spec (arrV s).[p] (arrV s).[i]) as [E|E].
    + apply Hinj in E; lia.
    + apply HI'. destruct (Z.eq_dec p i); [subst; congruence|lia].
  - exists (arrI s). split; [now rewrite withI_arrI|]. split; [lia|].
    split; [auto|]. intros p Hp'. lia.
  - simpl. lia.
  - unfold wadd in Hcond. rewrite !(ws w w_pos b fits) in Hcond by lia.
    injection Hcond as Hcond. apply Z.ltb_ge in Hcond.
    rewrite Hw. cbn [bind]. exists I'. split; [reflexivity|].
    split; [auto|]. split; [|auto].
    intros j Hj. rewrite <- (Hsorted j Hj) at 1. apply HI'.
    pose proof (Hr j Hj) as Hpj. unfold inr in Hpj. lia.
Qed.

End Doubling.

(** ** Suffix arrays *)

Lemma lex_lt_total a c : a <> c -> lex_lt a c \/ lex_lt c a.
Proof.
  revert c; induction a as [|x a IH]; intros [|y c] Hne.
  - congruence.
  - left. apply lex_lt_nil.
  - right. apply lex_lt_nil.
  - destruct (Z.lt_trichotomy (byteZ x) (byteZ y)) as [H|[H|H]].
    + left. now apply lex_lt_head.
    + apply byteZ_inj in H. subst y.
      destruct (IH c) as [H|H]; [congruence| |].
      * left. now apply lex_lt_tail.
      * right. now apply lex_lt_tail.
    + right. now apply lex_lt_head.
Qed.

Lemma NoDup_map_of_nat (l : list nat) : NoDup l -> NoDup (map Z.of_nat l).
Proof.
  induction 1 as [|x l Hx Hl IH]; simpl; constructor; auto.
  rewrite in_map_iff. intros (y & E & Hy).
  apply Nat2Z.inj in E. now subst y.
Qed.

Section SuffixArray.

Variable b : list byte.
Local Abbreviation n := (len b).

Lemma slt_total p q :
  0 <= p <= n -> 0 <= q <= n -> p <> q -> slt b p q \/ slt b q p.
Proof.
  intros Hp Hq Hne. apply lex_lt_total. intros E.
  assert (El : len (suffix b p) = len (suffix b q)) by now rewrite E.
  rewrite !suffix_length in El by auto. lia.
Qed.

Lemma suffix_array_of (I : list Z) (P : Z -> Z) (V : list Z) :
  len I = n + 1 -> permP b P -> Mono b V ->
  (forall j, 0 <= j <= n -> I.[j] = P j) ->
  (forall j, 0 <= j <= n -> V.[P j] = j) ->
  suffix_array b I.
Proof.
  intros Hl (Hr & Hi & Hs) HM HI HV. split; [exact Hl|]. split; [split; [|split]|].
  - intros j Hj. rewrite HI by exact Hj. now apply Hr.
  - intros j j' Hj Hj' E. rewrite !HI in E by assumption. now apply Hi.
  - intros p Hp. destruct (Hs p Hp) as (j & Hj & E). exists j.
    split; [exact Hj|]. now rewrite HI.
  - intros j j' Hj Hj'. rewrite !HI by lia. apply HM.
    + apply Hr. unfold inr. lia.
    + apply Hr. unfold inr. lia.
    + rewrite !HV by lia. lia.
Qed.

Lemma suffix_array_sorted I : suffix_array b I -> suffix_sorted b I.
Proof.
  intros (_ & _ & Hs) i Hi. right. apply Hs; lia.
Qed.

Lemma suffix_array_index I : suffix_array b I -> index_array n I.
Proof.
  intros (Hl & (Hr & _) & _). split; [exact Hl|]. intros i Hi. now apply Hr.
Qed.

Lemma suffix_array_first I : suffix_array b I -> I.[0] = n.
Proof.
  intros (Hl & (Hr & Hi & Hs) & Hlt). pose proof (len_nonneg b) as Hn.
  destruct (Hs n) as (j & Hj & E); [unfold inr; lia|].
  destruct (Z.eq_dec j 0) as [->|Hne]; [exact E|]. exfalso.
  unfold inr in Hj. specialize (Hlt 0 j ltac:(lia) ltac:(lia)). rewrite E in Hlt.
  unfold slt in Hlt. assert (En : suffix b n = []) by (apply suffix_nil; lia).
  rewrite En in Hlt. inversion Hlt.
Qed.

Lemma suffix_array_unique I I' :
  suffix_array b I -> suffix_array b I' -> I = I'.
Proof.
  intros (Hl & (Hr & Hi & Hs) & Hlt) (Hl' & (Hr' & Hi' & Hs') & Hlt').
  pose proof (len_nonneg b) as Hn.
  assert (Heq : forall m : nat, forall j, 0 <= j <= n -> j < Z.of_nat m ->
            I.[j] = I'.[j]).
  { induction m as [|m IH]; intros j Hj Hm; [lia|].
    destruct (Z.eq_dec (I.[j]) (I'.[j])) as [E|Hne]; [exact E|]. exfalso.
    assert (Hlow : forall k, 0 <= k < j -> I.[k] = I'.[k]).
    { intros k Hk. apply IH; lia. }
    destruct (slt_total I.[j] I'.[j] (Hr j Hj) (Hr' j Hj) Hne) as [Hs1|Hs1].
    - (* the smaller one stands later in I' *)
      destruct (Hs' I.[j] (Hr j Hj)) as (k & Hk & Ek). unfold inr in Hk.
      destruct (Z.lt_trichotomy k j) as [H|[H|H]].
      + rewrite <- Hlow in Ek by lia. apply Hi in Ek; unfold inr; lia.
      + subst k. congruence.
      + specialize (Hlt' j k ltac:(lia) ltac:(lia)). rewrite Ek in Hlt'.
        exact (slt_asym b _ _ Hs1 Hlt').
    - destruct (Hs I'.[j] (Hr' j Hj)) as (k & Hk & Ek). unfold inr in Hk.
      destruct (Z.lt_trichotomy k j) as [H|[H|H]].
      + rewrite Hlow in Ek by lia. apply Hi' in Ek; unfold inr; lia.
      + subst k. congruence.
      + specialize (Hlt j k ltac:(lia) ltac:(lia)). rewrite Ek in Hlt.
        exact (slt_asym b _ _ Hs1 Hlt). }
  apply (nth_ext I I' 0 0).
  - unfold len in *. lia.
  - intros k Hk. specialize (Heq (S k) (Z.of_nat k)). unfold idx in Heq.
    rewrite Nat2Z.id in Heq. apply Heq; unfold len in *; lia.
Qed.

Lemma suffix_array_perm I : suffix_array b I -> is_perm n I.
Proof.
  intros (Hl & (Hr & Hi & Hs) & _). pose proof (len_nonneg b) as Hn.
  unfold is_perm. apply NoDup_Permutation.
  - apply (NoDup_nth I 0). intros i j Hi' Hj' E.
    assert (Z.of_nat i = Z.of_nat j); [|lia].
    apply Hi; unfold inr, len in *; try lia.
    unfold idx. now rewrite !Nat2Z.id.
  - apply NoDup_map_of_nat, seq_NoDup.
  - intros x. rewrite in_map_iff. split.
    + intros Hin. destruct (In_nth I x 0 Hin) as (k & Hk & E).
      specialize (Hr (Z.of_nat k)). unfold idx in Hr. rewrite Nat2Z.id, E in Hr.
      unfold inr, len in *. exists (Z.to_nat x). split; [lia|].
      apply in_seq. lia.
    + intros (k & <- & Hk). apply in_seq in Hk.
      destruct (Hs (Z.of_nat k)) as (j & Hj & E); [unfold inr; lia|].
      rewrite <- E. unfold idx. apply nth_In. unfold inr, len in *. lia.
Qed.

End SuffixArray.

(** ** The whole sort *)

Lemma bind_refine {A B : Type} (m : res A) (f1 f2 : A -> res B) (y : B) :
  (forall a, f1 a = Ok y -> f2 a = Ok y) ->
  bind m f1 = Ok y -> bind m f2 = Ok y.
Proof. destruct m; simpl; auto. Qed.

Lemma bind_refine_l {A B : Type} (m1 m2 : res A) (f : A -> res B) (y : B) :
  (forall a, m1 = Ok a -> m2 = Ok a) ->
  bind m1 f = Ok y -> bind m2 f = Ok y.
Proof.
  intros H. destruct m1; simpl; try discriminate.
  intros Hf. now rewrite (H _ eq_refl).
Qed.

Lemma while_ok_refine {St : Type} (cond : St -> res bool)
    (body1 body2 : St -> res St) :
  (forall s y, body1 s = Ok y -> body2 s = Ok y) ->
  forall fuel s r, while fuel cond body1 s = Ok r ->
  while fuel cond body2 s = Ok r.
Proof.
  intros Hb. induction fuel as [|fuel IH]; intros s r; [discriminate|].
  cbn [while]. apply bind_refine. intros [|]; [|auto].
  intros H. apply bind_inv in H. destruct H as (s' & Hs' & H).
  rewrite (Hb _ _ Hs'). cbn [bind]. auto.
Qed.

Lemma workers_ok_sound conc ncpu :
  workers_ok conc ncpu ->
  let numWorkers := if conc <? 1 then wrap int_bits (conc + ncpu) else conc in
  1 <= numWorkers /\ 0 <= wrap int_bits (numWorkers * 4).
Proof.
  intros ((Hc1 & Hc2) & (Hc3 & Hc4)). cbv zeta. unfold int_bits.
  assert (E : 2 ^ (64 - 1) = 4 * 2 ^ 61) by reflexivity.
  destruct (Z.ltb_spec conc 1).
  - rewrite (wrap_small 64 (conc + ncpu)) by lia.
    rewrite wrap_small by lia. lia.
  - rewrite wrap_small by lia. lia.
Qed.

Section Sort.

Variable w : Z.
Hypothesis w_pos : 0 < w.
Variable b : list byte.
Local Abbreviation n := (len b).
Hypothesis fits : n + 1 < 2 ^ (w - 1).
Variable sched : Z -> Z -> list nat.
Variable fuel : nat.

(** A sort that returns went as one with a worker and a queue would. *)
Lemma sweep_step_any parallel numWorkers h st y :
  sweep_step w sched fuel parallel numWorkers h st = Ok y ->
  sweep_step w sched fuel parallel 1 h st = Ok y.
Proof.
  unfold sweep_step. apply bind_refine. intros [tasks s].
  apply bind_refine. intros Ii. destruct (Ii <? 0); [auto|].
  apply bind_refine. intros [marks s1].
  apply bind_refine. intros p. apply bind_refine. intros g.
  apply bind_refine_l. intros a.
  destruct (parallel && (wsub w (wadd w g 1) (sw_i st) >? 128)); [|auto].
  destruct (numWorkers <? 1); [discriminate|auto].
Qed.

Lemma pass_any parallel numWorkers taskBufferSize h s s' :
  pass w sched fuel parallel numWorkers taskBufferSize n h s = Ok s' ->
  pass w sched fuel parallel 1 0 n h s = Ok s'.
Proof.
  unfold pass. destruct (taskBufferSize <? 0); [discriminate|].
  change (0 <? 0) with false. apply bind_refine. intros _.
  apply bind_refine_l. intros st. apply while_ok_refine.
  intros st' y. apply sweep_step_any.
Qed.

Lemma passes_any parallel numWorkers taskBufferSize s r :
  passes w sched fuel parallel numWorkers taskBufferSize n s = Ok r ->
  passes w sched fuel parallel 1 0 n s = Ok r.
Proof.
  unfold passes. apply while_ok_refine. intros [h s1] y.
  apply bind_refine_l. intros s2. apply pass_any.
Qed.

Hypothesis enough : n + 2 < Z.of_nat fuel.

Lemma passes_ok parallel numWorkers taskBufferSize s P :
  (parallel = true -> 1 <= numWorkers) -> 0 <= taskBufferSize ->
  between b 1 s P -> (parallel = true -> arrV2 s = arrV s) ->
  exists h' s' hg' P',
    passes w sched fuel parallel numWorkers taskBufferSize n s = Ok (h', s') /\
    between b hg' s' P' /\ (arrI s').[0] = - (n + 1).
Proof.
  intros Hwk Hbuf Hb HV. pose proof (len_nonneg b) as Hn. unfold passes.
  apply (doubling_ok w w_pos b fits sched parallel numWorkers Hwk
           taskBufferSize Hbuf fuel enough (Z.to_nat n) fuel 1 1 s P);
    auto; try lia.
  rewrite Z2Nat.id by lia. pose proof (Z.pow_gt_lin_r 2 n ltac:(lia) Hn). lia.
Qed.

Lemma sort_ok parallel numWorkers taskBufferSize :
  (parallel = true -> 1 <= numWorkers) -> 0 <= taskBufferSize ->
  exists I0 V h s I,
    init w b = Ok (I0, V) /\
    passes w sched fuel parallel numWorkers taskBufferSize n
      (mkStore I0 V (if parallel then V else [])) = Ok (h, s) /\
    invert w fuel n s = Ok (withI s I) /\
    suffix_array b I.
Proof.
  intros Hwk Hbuf.
  destruct (init_ok w w_pos b fits) as (I0 & V & P & Hinit & Hb).
  destruct (passes_ok parallel numWorkers taskBufferSize
              (mkStore I0 V (if parallel then V else [])) P Hwk Hbuf (Hb _))
    as (h & s & hg & P' & Hp & Hb' & HI0).
  { intros ->. reflexivity. }
  destruct (invert_ok w w_pos b fits fuel hg s P' Hb' HI0 ltac:(lia))
    as (I & Hinv & Hl & HI & HV).
  exists I0, V, h, s, I. split; [exact Hinit|]. split; [exact Hp|].
  split; [exact Hinv|].
  destruct Hb' as (_ & (_ & _ & _ & Hperm & _ & HM & _) & _).
  exact (suffix_array_of b I P' (arrV s) Hl Hperm HM HI HV).
Qed.

(** With enough fuel and a sound setting the sort returns the suffix
    array. *)
Lemma qsufsort_gen_ok conc ncpu :
  workers_ok conc ncpu ->
  exists I, qsufsort_gen w sched fuel conc ncpu b = Ok I /\ suffix_array b I.
Proof.
  intros Hw. destruct (workers_ok_sound conc ncpu Hw) as (Hwk & Hbuf).
  cbv zeta in Hwk, Hbuf. pose proof (len_nonneg b) as Hn.
  destruct (sort_ok (negb (conc =? 0)) _ _ (fun _ => Hwk) Hbuf)
    as (I0 & V & h & s & I & Hinit & Hp & Hinv & Hsa).
  exists I. split; [|exact Hsa]. unfold qsufsort_gen.
  rewrite (ws w w_pos b fits n) by lia.
  rewrite Hinit. cbn [bind]. cbv zeta. rewrite Hp. cbn [bind].
  rewrite Hinv. cbn [bind]. now rewrite arrI_withI.
Qed.

(** Whatever the setting, an array the sort returns is the suffix
    array. *)
Lemma qsufsort_gen_sound conc ncpu I :
  qsufsort_gen w sched fuel conc ncpu b = Ok I -> suffix_array b I.
Proof.
  intros H. pose proof (len_nonneg b) as Hn.
  destruct (sort_ok (negb (conc =? 0)) 1 0 (fun _ => Z.le_refl 1) (Z.le_refl 0))
    as (I0 & V & h & s & I' & Hinit & Hp & Hinv & Hsa).
  unfold qsufsort_gen in H. rewrite (ws w w_pos b fits n) in H by lia.
  rewrite Hinit in H. cbn [bind] in H. cbv zeta in H.
  apply bind_inv in H. destruct H as ([h2 s2] & Hp2 & H).
  apply passes_any in Hp2. rewrite Hp in Hp2. injection Hp2 as <- <-.
  rewrite Hinv in H. cbn [bind] in H. rewrite arrI_withI in H.
  injection H as <-. exact Hsa.
Qed.

End Sort.

(** ** The symmetry of matchlen *)

Lemma byte_eqb_sym x y : Byte.eqb x y = Byte.eqb y x.
Proof.
  destruct (Byte.eqb x y) eqn:E1, (Byte.eqb y x) eqn:E2; auto.
  - apply byte_eqb_eq in E1. subst y.
    rewrite (proj2 (byte_eqb_eq x x) eq_refl) in E2. discriminate.
  - apply byte_eqb_eq in E2. subst y.
    rewrite (proj2 (byte_eqb_eq x x) eq_refl) in E1. discriminate.
Qed.

Lemma wrap_bounds w z :
  0 < w -> 0 <= z -> wrap w z <= z /\ wrap w z < 2 ^ (w - 1).
Proof.
  intros Hw Hz. unfold wrap.
  assert (Hp : 0 < 2 ^ (w - 1)) by (apply Z.pow_pos_nonneg; lia).
  assert (E : 2 ^ w = 2 * 2 ^ (w - 1)).
  { replace w with (Z.succ (w - 1)) at 1 by lia. apply Z.pow_succ_r. lia. }
  pose proof (Z.mod_le (z + 2 ^ (w - 1)) (2 ^ w) ltac:(lia) ltac:(lia)).
  pose proof (Z.mod_pos_bound (z + 2 ^ (w - 1)) (2 ^ w) ltac:(lia)).
  lia.
Qed.

Lemma matchlen_gen_sym w fuel a c :
  0 < w -> matchlen_gen w fuel a c = matchlen_gen w fuel c a.
Proof.
  intros Hw. unfold matchlen_gen.
  pose proof (wrap_bounds w (len a) Hw (len_nonneg a)) as (Ha1 & Ha2).
  pose proof (wrap_bounds w (len c) Hw (len_nonneg c)) as (Hc1 & Hc2).
  set (alen := wrap w (len a)) in *. set (clen := wrap w (len c)) in *.
  assert (H : forall i, 0 <= i ->
    while fuel
      (fun i => if negb (i <? alen) then Ok false
                else if negb (i <? clen) then Ok false
                else x <- get a i ;; y <- get c i ;; Ok (Byte.eqb x y))
      (fun i => Ok (wadd w i 1)) i
    = while fuel
      (fun i => if negb (i <? clen) then Ok false
                else if negb (i <? alen) then Ok false
                else x <- get c i ;; y <- get a i ;; Ok (Byte.eqb x y))
      (fun i => Ok (wadd w i 1)) i); [|apply H; lia].
  induction fuel as [|fuel IH]; intros i Hi; [reflexivity|].
  cbn [while].
  destruct (Z.ltb_spec i alen) as [Hia|Hia], (Z.ltb_spec i clen) as [Hic|Hic];
    cbn [negb bind]; try reflexivity.
  unfold get. destruct (Z.ltb_spec i 0); [lia|].
  destruct (nth_error a (Z.to_nat i)) as [x|] eqn:Ea.
  2:{ apply nth_error_None in Ea. unfold len in *. lia. }
  destruct (nth_error c (Z.to_nat i)) as [y|] eqn:Ec.
  2:{ apply nth_error_None in Ec. unfold len in *. lia. }
  cbn [bind]. rewrite (byte_eqb_sym y x).
  destruct (Byte.eqb x y); [|reflexivity]. cbn [bind].
  apply IH. unfold wadd. rewrite wrap_small by lia. lia.
Qed.

(** ** The two widths of search *)

Lemma search_gen_width (b nbuf : list byte) (I : list Z) :
  len b + 1 < 2 ^ 31 -> len nbuf < 2 ^ 31 -> index_array (len b) I ->
  forall (fuel : nat) st en, 0 <= st <= en -> en <= len b ->
  (Z.to_nat (en - st) + length b + 1 < fuel)%nat ->
  search_gen 32 fuel I b nbuf st en = search_gen 64 fuel I b nbuf st en.
Proof.
  intros Hfit Hnb Hidx.
  assert (Hp : (2 : Z) ^ 31 < 2 ^ 63) by reflexivity.
  assert (Hfit' : len b + 1 < 2 ^ (64 - 1))
    by (change (2 ^ (64 - 1)) with (2 ^ 63); lia).
  assert (Hnb' : len nbuf < 2 ^ (64 - 1))
    by (change (2 ^ (64 - 1)) with (2 ^ 63); lia).
  pose proof (search_terminal 32 ltac:(lia) b nbuf I Hfit Hnb Hidx) as T1.
  pose proof (search_terminal 64 ltac:(lia) b nbuf I Hfit' Hnb' Hidx) as T2.
  pose proof (search_recursive 32 ltac:(lia) b nbuf I Hfit Hidx) as R1.
  pose proof (search_recursive 64 ltac:(lia) b nbuf I Hfit' Hidx) as R2.
  induction fuel as [|f IH]; intros st en Hst Hen Hf; [lia|].
  destruct (Z.lt_ge_cases (en - st) 2) as [Hd|Hd].
  - rewrite T1, T2 by (auto; lia). reflexivity.
  - rewrite R1, R2 by (auto; lia). cbv zeta.
    assert (Hm : st < st + (en - st) / 2 < en).
    { assert (1 <= (en - st) / 2) by (apply Z.div_le_lower_bound; lia).
      assert ((en - st) / 2 < en - st) by (apply Z.div_lt; lia). lia. }
    destruct (bytes_compare _ _ <? 0); apply IH; lia.
Qed.

(** ** The claims about the sort *)

(** Claim C1.  For a buffer [b] of length [n] that fits the 32-bit
    indices, [qsufsort] returns an array [I] of [n + 1] indices in
    [[0, n]] whose suffixes are in lexicographic order: for all
    [0 <= i < n], the suffix at [I[i]] is less than or equal to the suffix
    at [I[i+1]], and the empty suffix [n] comes first.  With enough fuel
    and workers to run the tasks the sort returns; and whatever the
    concurrency setting, an array it returns is sorted. *)
Theorem qsufsort_sorted (sched : Z -> Z -> list nat) (fuel : nat)
    (conc ncpu : Z) (b : list byte) :
  len b + 1 < 2 ^ 31 -> len b + 2 < Z.of_nat fuel ->
  (workers_ok conc ncpu ->
   exists I, qsufsort sched fuel conc ncpu b = Ok I) /\
  (forall I, qsufsort sched fuel conc ncpu b = Ok I ->
     index_array (len b) I /\ suffix_sorted b I /\ I.[0] = len b).
Proof.
  intros Hfit Hfuel. split.
  - intros Hw.
    destruct (qsufsort_gen_ok 32 ltac:(lia) b Hfit sched fuel Hfuel conc ncpu Hw)
      as (I & HI & _).
    exists I. exact HI.
  - intros I HI.
    pose proof (qsufsort_gen_sound 32 ltac:(lia) b Hfit sched fuel Hfuel
                  conc ncpu I HI) as Hsa.
    split; [now apply suffix_array_index|].
    split; [now apply suffix_array_sorted|now apply suffix_array_first].
Qed.

Lemma qsufsort_sorted_witness :
  len banana + 1 < 2 ^ 31 /\ len banana + 2 < Z.of_nat 9 /\
  workers_ok 0 4 /\
  exists I, qsufsort idle 9 0 4 banana = Ok I.
Proof.
  assert (H1 : len banana + 1 < 2 ^ 31) by reflexivity.
  assert (H2 : len banana + 2 < Z.of_nat 9) by reflexivity.
  assert (H3 : workers_ok 0 4) by (unfold workers_ok; lia).
  split; [exact H1|]. split; [exact H2|]. split; [exact H3|].
  exact (proj1 (qsufsort_sorted idle 9 0 4 banana H1 H2) H3).
Defined.

(** Claim C2.  For a buffer of length [n] that fits the 32-bit indices and
    every concurrency setting, an array [qsufsort] returns has [n + 1]
    entries and is a permutation of [0, 1, ..., n]; with enough fuel and
    workers to run the tasks the sort does return one. *)
Theorem qsufsort_permutation (sched : Z -> Z -> list nat) (fuel : nat)
    (conc ncpu : Z) (b : list byte) :
  len b + 1 < 2 ^ 31 -> len b + 2 < Z.of_nat fuel ->
  (forall I, qsufsort sched fuel conc ncpu b = Ok I ->
     len I = len b + 1 /\ is_perm (len b) I) /\
  (workers_ok conc ncpu ->
   exists I, qsufsort sched fuel conc ncpu b = Ok I /\
             len I = len b + 1 /\ is_perm (len b) I).
Proof.
  intros Hfit Hfuel.
  assert (Hany : forall I, qsufsort sched fuel conc ncpu b = Ok I ->
            len I = len b + 1 /\ is_perm (len b) I).
  { intros I HI.
    pose proof (qsufsort_gen_sound 32 ltac:(lia) b Hfit sched fuel Hfuel
                  conc ncpu I HI) as Hsa.
    split; [exact (proj1 Hsa)|now apply suffix_array_perm]. }
  split; [exact Hany|]. intros Hw.
  destruct (qsufsort_gen_ok 32 ltac:(lia) b Hfit sched fuel Hfuel conc ncpu Hw)
    as (I & HI & _).
  exists I. split; [exact HI|]. now apply Hany.
Qed.

Lemma qsufsort_permutation_witness :
  len banana + 1 < 2 ^ 31 /\ len banana + 2 < Z.of_nat 9 /\
  workers_ok 2 4 /\
  exists I, qsufsort idle 9 2 4 banana = Ok I /\
            len I = len banana + 1 /\ is_perm (len banana) I.
Proof.
  assert (H1 : len banana + 1 < 2 ^ 31) by reflexivity.
  assert (H2 : len banana + 2 < Z.of_nat 9) by reflexivity.
  assert (H3 : workers_ok 2 4) by (unfold workers_ok; lia).
  split; [exact H1|]. split; [exact H2|]. split; [exact H3|].
  exact (proj2 (qsufsort_permutation idle 9 2 4 banana H1 H2) H3).
Defined.

(** Claim C3.  For a buffer of length [n] that fits the 32-bit indices, a
    concurrency setting with workers to run the tasks, and enough fuel,
    [qsufsort] is total: the bucket sort returns, the doubling loop ends
    with [I[0] = -(n+1)] (without a single pass when [n = 0]: the order is
    still 1 and the arrays are those of the bucket sort), and the sort
    returns an array. *)
Theorem qsufsort_total (sched : Z -> Z -> list nat) (fuel : nat)
    (conc ncpu : Z) (b : list byte) :
  len b + 1 < 2 ^ 31 -> len b + 2 < Z.of_nat fuel ->
  workers_ok conc ncpu ->
  let parallel := negb (conc =? 0) in
  let numWorkers := if conc <? 1 then wrap int_bits (conc + ncpu) else conc in
  let taskBufferSize := wrap int_bits (numWorkers * 4) in
  (exists I0 V h s,
     init 32 b = Ok (I0, V) /\
     passes 32 sched fuel parallel numWorkers taskBufferSize (len b)
       (mkStore I0 V (if parallel then V else [])) = Ok (h, s) /\
     (arrI s).[0] = - (len b + 1) /\
     (len b = 0 ->
      h = 1 /\ s = mkStore I0 V (if parallel then V else []))) /\
  exists I, qsufsort sched fuel conc ncpu b = Ok I.
Proof.
  intros Hfit Hfuel Hw parallel numWorkers taskBufferSize.
  destruct (workers_ok_sound conc ncpu Hw) as (Hwk & Hbuf).
  cbv zeta in Hwk, Hbuf. fold numWorkers in Hwk, Hbuf.
  fold taskBufferSize in Hbuf.
  split.
  - destruct (init_ok 32 ltac:(lia) b Hfit) as (I0 & V & P & Hinit & Hb).
    destruct (passes_ok 32 ltac:(lia) b Hfit sched fuel Hfuel
                parallel numWorkers taskBufferSize
                (mkStore I0 V (if parallel then V else [])) P
                (fun _ => Hwk) Hbuf (Hb _))
      as (h & s & hg & P' & Hp & Hb' & HI0).
    { intros ->. reflexivity. }
    exists I0, V, h, s. split; [exact Hinit|]. split; [exact Hp|].
    split; [exact HI0|]. intros Hn.
    destruct b as [|x b']; [|unfold len in Hn; simpl in Hn; lia].
    destruct fuel as [|fuel']; [simpl in Hfuel; unfold len in Hfuel; simpl in Hfuel; lia|].
    assert (E0 : init 32 [] = Ok ([-1], [0])) by (vm_compute; reflexivity).
    rewrite E0 in Hinit. injection Hinit as <- <-.
    unfold passes in Hp. cbn [while] in Hp.
    change (getI (mkStore [-1] [0] (if parallel then [0] else [])) 0)
      with (@Ok Z (-1)) in Hp.
    cbn [bind] in Hp.
    change (negb (-1 =? wneg 32 (wadd 32 (len (@nil byte)) 1))) with false in Hp.
    cbv iota in Hp. injection Hp as <- <-. split; reflexivity.
  - destruct (qsufsort_gen_ok 32 ltac:(lia) b Hfit sched fuel Hfuel conc ncpu Hw)
      as (I & HI & _).
    exists I. exact HI.
Qed.

Lemma qsufsort_total_witness :
  len (@nil byte) + 1 < 2 ^ 31 /\ len (@nil byte) + 2 < Z.of_nat 3 /\
  workers_ok 0 4 /\
  exists I, qsufsort idle 3 0 4 [] = Ok I.
Proof.
  assert (H1 : len (@nil byte) + 1 < 2 ^ 31) by reflexivity.
  assert (H2 : len (@nil byte) + 2 < Z.of_nat 3) by reflexivity.
  assert (H3 : workers_ok 0 4) by (unfold workers_ok; lia).
  split; [exact H1|]. split; [exact H2|]. split; [exact H3|].
  exact (proj2 (qsufsort_total idle 3 0 4 [] H1 H2 H3)).
Defined.

(** Claim C4.  For a buffer that fits the 32-bit indices and a worker
    count [wk] among 1, 2, 4 and 8, the sequential sort (concurrency 0,
    group numbers written to [V] in place) and the parallel sort
    (concurrency [wk], group numbers written to [V2], marks applied and
    [V2] copied to [V] when the pass ends) return the same array, whatever
    the moments at which the tasks run. *)
Theorem qsufsort_sequential_parallel (sched sched' : Z -> Z -> list nat)
    (fuel fuel' : nat) (ncpu wk : Z) (b : list byte) :
  len b + 1 < 2 ^ 31 ->
  len b + 2 < Z.of_nat fuel -> len b + 2 < Z.of_nat fuel' ->
  1 <= ncpu < 2 ^ 61 -> In wk [1; 2; 4; 8] ->
  exists I,
    qsufsort sched fuel 0 ncpu b = Ok I /\
    qsufsort sched' fuel' wk ncpu b = Ok I.
Proof.
  intros Hfit Hfuel Hfuel' Hcpu Hwk.
  assert (Hw0 : workers_ok 0 ncpu) by (unfold workers_ok; lia).
  assert (Hw1 : workers_ok wk ncpu).
  { unfold workers_ok. simpl in Hwk.
    destruct Hwk as [<-|[<-|[<-|[<-|[]]]]]; lia. }
  destruct (qsufsort_gen_ok 32 ltac:(lia) b Hfit sched fuel Hfuel 0 ncpu Hw0)
    as (I & HI & Hsa).
  destruct (qsufsort_gen_ok 32 ltac:(lia) b Hfit sched' fuel' Hfuel' wk ncpu Hw1)
    as (I' & HI' & Hsa').
  exists I. split; [exact HI|].
  rewrite (suffix_array_unique b I I' Hsa Hsa'). exact HI'.
Qed.

Lemma qsufsort_sequential_parallel_witness :
  len banana + 1 < 2 ^ 31 /\ len banana + 2 < Z.of_nat 9 /\
  1 <= 4 < 2 ^ 61 /\ In 2 [1; 2; 4; 8] /\
  exists I,
    qsufsort idle 9 0 4 banana = Ok I /\
    qsufsort idle 9 2 4 banana = Ok I.
Proof.
  assert (H1 : len banana + 1 < 2 ^ 31) by reflexivity.
  assert (H2 : len banana + 2 < Z.of_nat 9) by reflexivity.
  assert (H3 : 1 <= 4 < 2 ^ 61) by lia.
  assert (H4 : In 2 [1; 2; 4; 8]) by (simpl; auto).
  split; [exact H1|]. split; [exact H2|]. split; [exact H3|].
  split; [exact H4|].
  exact (qsufsort_sequential_parallel idle idle 9 9 4 2 banana H1 H2 H2 H3 H4).
Defined.

(** Claim C5.  For a buffer [b] that fits the 32-bit indices (and so the
    64-bit ones), the 32-bit and the 64-bit variants agree: [qsufsort] and
    [qsufsort64] return the same array [I]; on it [search] and [search64]
    return the same position and length for a query that fits and every
    window; and [matchlen] and [matchlen64] return the same length for
    slices that fit. *)
Theorem variants_agree (sched sched' : Z -> Z -> list nat)
    (fuel fuel' : nat) (conc ncpu : Z) (b nbuf : list byte) :
  len b + 1 < 2 ^ 31 -> len nbuf < 2 ^ 31 ->
  len b + 2 < Z.of_nat fuel -> workers_ok conc ncpu ->
  (exists I,
     qsufsort sched fuel conc ncpu b = Ok I /\
     qsufsort64 sched' fuel conc ncpu b = Ok I /\
     forall st en, 0 <= st <= en -> en <= len b ->
       (Z.to_nat (en - st) + length b + 1 < fuel')%nat ->
       exists r, search fuel' I b nbuf st en = Ok r /\
                 search64 fuel' I b nbuf st en = Ok r) /\
  (forall a c, len a < 2 ^ 31 -> len c < 2 ^ 31 -> (length a < fuel')%nat ->
     exists k, matchlen fuel' a c = Ok k /\ matchlen64 fuel' a c = Ok k).
Proof.
  intros Hfit Hnb Hfuel Hw.
  assert (Hp : (2 : Z) ^ 31 < 2 ^ 63) by reflexivity.
  split.
  - destruct (qsufsort_gen_ok 32 ltac:(lia) b Hfit sched fuel Hfuel conc ncpu Hw)
      as (I & HI & Hsa).
    destruct (qsufsort_gen_ok 64 ltac:(lia) b ltac:(change (2 ^ (64 - 1)) with (2 ^ 63); lia)
                sched' fuel Hfuel conc ncpu Hw)
      as (I' & HI' & Hsa').
    exists I. split; [exact HI|]. split.
    { rewrite (suffix_array_unique b I I' Hsa Hsa'). exact HI'. }
    intros st en Hst Hen Hf.
    pose proof (suffix_array_index b I Hsa) as Hidx.
    destruct (search_gen_ok 32 ltac:(lia) b nbuf I Hfit Hnb Hidx fuel' st en
                Hst Hen Hf) as (j & Hj & E & _).
    unfold search, search64. eexists. split; [exact E|].
    rewrite <- (search_gen_width b nbuf I Hfit Hnb Hidx fuel' st en Hst Hen Hf).
    exact E.
  - intros a c Ha Hc Hf. pose proof (lcp_le_l a c) as Hl.
    exists (Z.of_nat (lcp a c)). split.
    + apply matchlen_gen_ok; try lia.
    + apply matchlen_gen_ok; try lia;
        change (2 ^ (64 - 1)) with (2 ^ 63); lia.
Qed.

Lemma variants_agree_witness :
  len banana + 1 < 2 ^ 31 /\ len [x61; x6e] < 2 ^ 31 /\
  len banana + 2 < Z.of_nat 9 /\ workers_ok 0 4 /\
  exists I,
    qsufsort idle 9 0 4 banana = Ok I /\
    qsufsort64 idle 9 0 4 banana = Ok I.
Proof.
  assert (H1 : len banana + 1 < 2 ^ 31) by reflexivity.
  assert (H2 : len [x61; x6e] < 2 ^ 31) by reflexivity.
  assert (H3 : len banana + 2 < Z.of_nat 9) by reflexivity.
  assert (H4 : workers_ok 0 4) by (unfold workers_ok; lia).
  split; [exact H1|]. split; [exact H2|]. split; [exact H3|].
  split; [exact H4|].
  destruct (variants_agree idle idle 9 20 0 4 banana [x61; x6e] H1 H2 H3 H4)
    as ((I & E1 & E2 & _) & _).
  exists I. split; [exact E1|exact E2].
Defined.

(** ** The claims about matchlen and search *)

(** Claim C6.  For byte slices [a] and [c] that fit the 32-bit indices,
    [matchlen a c] returns the length of the longest common prefix, and it
    returns [k] exactly when [a[0..k) = c[0..k)] and [k = len a] or
    [k = len c] or [a[k] <> c[k]]; no longer prefix is common to both. *)
Theorem matchlen_longest_common_prefix (fuel : nat) (a c : list byte) :
  len a < 2 ^ 31 -> len c < 2 ^ 31 -> (length a < fuel)%nat ->
  matchlen fuel a c = Ok (Z.of_nat (lcp a c)) /\
  (forall k, matchlen fuel a c = Ok k <-> matchlen_law a c k) /\
  (forall k, 0 <= k <= len a -> k <= len c ->
     firstn (Z.to_nat k) a = firstn (Z.to_nat k) c ->
     k <= Z.of_nat (lcp a c)).
Proof.
  intros Ha Hc Hf. pose proof (lcp_le_l a c) as Hl.
  assert (E : matchlen fuel a c = Ok (Z.of_nat (lcp a c))).
  { apply matchlen_gen_ok; lia. }
  split; [exact E|]. split.
  - intros k. rewrite E. split.
    + intros [= <-]. apply lcp_law.
    + intros Hlaw. now rewrite (law_lcp a c k Hlaw).
  - intros k Hk Hk' Hp.
    pose proof (firstn_eq_lcp a c (Z.to_nat k)) as H.
    unfold len in *. specialize (H ltac:(lia) ltac:(lia) Hp). lia.
Qed.

Lemma matchlen_longest_common_prefix_witness :
  len [x61; x6e; x61] < 2 ^ 31 /\ len [x61; x6e; x6e] < 2 ^ 31 /\
  (length [x61; x6e; x61] < 4)%nat /\
  matchlen 4 [x61; x6e; x61] [x61; x6e; x6e]
  = Ok (Z.of_nat (lcp [x61; x6e; x61] [x61; x6e; x6e])).
Proof.
  assert (H1 : len [x61; x6e; x61] < 2 ^ 31) by reflexivity.
  assert (H2 : len [x61; x6e; x6e] < 2 ^ 31) by reflexivity.
  assert (H3 : (length [x61; x6e; x61] < 4)%nat) by (simpl; lia).
  split; [exact H1|]. split; [exact H2|]. split; [exact H3|].
  exact (proj1 (matchlen_longest_common_prefix 4 _ _ H1 H2 H3)).
Defined.

(** Claim C7.  Over an index array [I] for a buffer [obuf] of length [n]
    and a window [0 <= st <= en <= n], [search] returns a pair [(p, k)]
    where [p] is an entry of [I] within the window and [k] is what
    [matchlen] returns on [obuf[p:]] and the query. *)
Theorem search_sound (fuel : nat) (I : list Z) (obuf nbuf : list byte)
    (st en : Z) :
  len obuf + 1 < 2 ^ 31 -> len nbuf < 2 ^ 31 ->
  index_array (len obuf) I ->
  0 <= st <= en -> en <= len obuf ->
  (Z.to_nat (en - st) + length obuf + 1 < fuel)%nat ->
  exists p k,
    search fuel I obuf nbuf st en = Ok (p, k) /\
    (exists j, st <= j <= en /\ p = I.[j]) /\
    (sl <- slice_from obuf p ;; matchlen fuel sl nbuf) = Ok k.
Proof.
  intros Hfit Hnb Hidx Hst Hen Hf.
  destruct (search_gen_ok 32 ltac:(lia) obuf nbuf I Hfit Hnb Hidx fuel st en
              Hst Hen Hf) as (j & Hj & E & _).
  exists I.[j], (Z.of_nat (lcp (suffix obuf I.[j]) nbuf)).
  split; [exact E|]. split; [exists j; auto|].
  destruct Hidx as (_ & HI). pose proof (HI j ltac:(lia)) as Hp.
  rewrite slice_from_ok by lia. cbn [bind].
  apply (search_matchlen 32 ltac:(lia) obuf nbuf Hfit Hnb); [lia|lia].
Qed.

Lemma search_sound_witness :
  len [x61] + 1 < 2 ^ 31 /\ len [x61; x62] < 2 ^ 31 /\
  index_array (len [x61]) [1; 0] /\
  exists p k,
    search 4 [1; 0] [x61] [x61; x62] 0 1 = Ok (p, k) /\
    (exists j, 0 <= j <= 1 /\ p = [1; 0].[j]) /\
    (sl <- slice_from [x61] p ;; matchlen 4 sl [x61; x62]) = Ok k.
Proof.
  assert (H1 : len [x61] + 1 < 2 ^ 31) by reflexivity.
  assert (H2 : len [x61; x62] < 2 ^ 31) by reflexivity.
  assert (H3 : index_array (len [x61]) [1; 0]).
  { split; [reflexivity|]. intros i Hi. change (len [x61]) with 1 in Hi.
    assert (Hc : i = 0 \/ i = 1) by lia.
    destruct Hc as [->| ->]; vm_compute; split; discriminate. }
  split; [exact H1|]. split; [exact H2|]. split; [exact H3|].
  apply (search_sound 4 [1; 0] [x61] [x61; x62] 0 1 H1 H2 H3).
  - lia.
  - vm_compute. discriminate.
  - vm_compute. lia.
Defined.

(** Claim C8.  In a window with [en - st < 2], with [x] and [y] the
    lengths [matchlen] returns for [obuf[I[st]:]] and [obuf[I[en]:]]
    against the query, [search] returns [(I[st], x)] when [x > y] and
    [(I[en], y)] when [x <= y].  In a window with [2 <= en - st] and
    [mid = st + (en - st) / 2], it goes on with [[mid, en]] when
    [obuf[I[mid]:]] is lexicographically less than the query, and with
    [[st, mid]] when it is not. *)
Theorem search_window (fuel : nat) (I : list Z) (obuf nbuf : list byte)
    (st en : Z) :
  len obuf + 1 < 2 ^ 31 -> len nbuf < 2 ^ 31 ->
  index_array (len obuf) I ->
  0 <= st <= en -> en <= len obuf -> (length obuf < fuel)%nat ->
  (en - st < 2 ->
   exists x y,
     (sl <- slice_from obuf I.[st] ;; matchlen fuel sl nbuf) = Ok x /\
     (sl <- slice_from obuf I.[en] ;; matchlen fuel sl nbuf) = Ok y /\
     (x > y -> search (S fuel) I obuf nbuf st en = Ok (I.[st], x)) /\
     (x <= y -> search (S fuel) I obuf nbuf st en = Ok (I.[en], y))) /\
  (2 <= en - st ->
   let mid := st + (en - st) / 2 in
   (lex_lt (suffix obuf I.[mid]) nbuf ->
    search (S fuel) I obuf nbuf st en = search fuel I obuf nbuf mid en) /\
   (~ lex_lt (suffix obuf I.[mid]) nbuf ->
    search (S fuel) I obuf nbuf st en = search fuel I obuf nbuf st mid)).
Proof.
  intros Hfit Hnb Hidx Hst Hen Hf. split.
  - intros Hd.
    pose proof (search_terminal 32 ltac:(lia) obuf nbuf I Hfit Hnb Hidx fuel
                  st en Hst Hen Hd Hf) as E. cbv zeta in E.
    destruct Hidx as (_ & HI).
    pose proof (HI st ltac:(lia)) as Hps. pose proof (HI en ltac:(lia)) as Hpe.
    exists (Z.of_nat (lcp (suffix obuf I.[st]) nbuf)),
           (Z.of_nat (lcp (suffix obuf I.[en]) nbuf)).
    rewrite !slice_from_ok by lia. cbn [bind].
    split; [apply (search_matchlen 32 ltac:(lia) obuf nbuf Hfit Hnb); lia|].
    split; [apply (search_matchlen 32 ltac:(lia) obuf nbuf Hfit Hnb); lia|].
    unfold search. rewrite E. split; intros Hxy.
    + destruct (Z.gtb_spec (Z.of_nat (lcp (suffix obuf I.[st]) nbuf))
                  (Z.of_nat (lcp (suffix obuf I.[en]) nbuf))); [reflexivity|lia].
    + destruct (Z.gtb_spec (Z.of_nat (lcp (suffix obuf I.[st]) nbuf))
                  (Z.of_nat (lcp (suffix obuf I.[en]) nbuf))); [lia|reflexivity].
  - intros Hd mid.
    pose proof (search_recursive 32 ltac:(lia) obuf nbuf I Hfit Hidx fuel
                  st en Hst Hen Hd) as E. cbv zeta in E. fold mid in E.
    unfold search. rewrite E. split; intros Hlt.
    + apply bytes_compare_lt in Hlt. now rewrite Hlt.
    + destruct (bytes_compare (suffix obuf I.[mid]) nbuf <? 0) eqn:Ec;
        [|reflexivity].
      apply bytes_compare_lt in Ec. contradiction.
Qed.

Lemma search_window_witness :
  len [x61] + 1 < 2 ^ 31 /\ len [x61; x62] < 2 ^ 31 /\
  index_array (len [x61]) [1; 0] /\
  (0 <= 0 <= 1) /\ 1 <= len [x61] /\ (length [x61] < 3)%nat /\
  (1 - 0 < 2 ->
   exists x y,
     (sl <- slice_from [x61] [1; 0].[0] ;; matchlen 3 sl [x61; x62]) = Ok x /\
     (sl <- slice_from [x61] [1; 0].[1] ;; matchlen 3 sl [x61; x62]) = Ok y /\
     (x > y -> search 4 [1; 0] [x61] [x61; x62] 0 1 = Ok ([1; 0].[0], x)) /\
     (x <= y -> search 4 [1; 0] [x61] [x61; x62] 0 1 = Ok ([1; 0].[1], y))).
Proof.
  assert (H1 : len [x61] + 1 < 2 ^ 31) by reflexivity.
  assert (H2 : len [x61; x62] < 2 ^ 31) by reflexivity.
  assert (H3 : index_array (len [x61]) [1; 0]).
  { split; [reflexivity|]. intros i Hi. change (len [x61]) with 1 in Hi.
    assert (Hc : i = 0 \/ i = 1) by lia.
    destruct Hc as [->| ->]; vm_compute; split; discriminate. }
  assert (H4 : 0 <= 0 <= 1) by lia.
  assert (H5 : 1 <= len [x61]) by (vm_compute; discriminate).
  assert (H6 : (length [x61] < 3)%nat) by (simpl; lia).
  split; [exact H1|]. split; [exact H2|]. split; [exact H3|].
  split; [exact H4|]. split; [exact H5|]. split; [exact H6|].
  exact (proj1 (search_window 3 [1; 0] [x61] [x61; x62] 0 1
                  H1 H2 H3 H4 H5 H6)).
Defined.

(** Claim C9, as the code has it.  On the suffix array [I] that
    [qsufsort] returns for a buffer [obuf] of length [n] and a query
    [nbuf], [search] over the whole window [[0, n]] returns a position
    [p] in [[0, n]] and a length [k] in [[0, min(n, len nbuf)]], with
    [k <= n - p]; the position lies in [[0, n-1]] when [1 <= n].  For the
    empty buffer the position is [0 = n], outside the empty range
    [[0, n-1]]. *)
Theorem search_range (sched : Z -> Z -> list nat) (fuel fuel' : nat)
    (conc ncpu : Z) (obuf nbuf : list byte) (I : list Z) :
  len obuf + 1 < 2 ^ 31 -> len nbuf < 2 ^ 31 ->
  len obuf + 2 < Z.of_nat fuel ->
  qsufsort sched fuel conc ncpu obuf = Ok I ->
  (2 * length obuf + 1 < fuel')%nat ->
  exists p k,
    search fuel' I obuf nbuf 0 (len obuf) = Ok (p, k) /\
    0 <= p <= len obuf /\
    (1 <= len obuf -> p <= len obuf - 1) /\
    0 <= k <= Z.min (len obuf) (len nbuf) /\ k <= len obuf - p.
Proof.
  intros Hfit Hnb Hfuel HI Hf. pose proof (len_nonneg obuf) as Hn.
  pose proof (qsufsort_gen_sound 32 ltac:(lia) obuf Hfit sched fuel Hfuel
                conc ncpu I HI) as Hsa.
  pose proof (suffix_array_index obuf I Hsa) as Hidx.
  pose proof (suffix_array_first obuf I Hsa) as H0.
  destruct (search_gen_ok 32 ltac:(lia) obuf nbuf I Hfit Hnb Hidx fuel' 0
              (len obuf) ltac:(lia) ltac:(lia)) as (j & Hj & E & Hk).
  { unfold len in *. lia. }
  exists I.[j], (Z.of_nat (lcp (suffix obuf I.[j]) nbuf)).
  split; [exact E|].
  pose proof (proj2 Hidx j Hj) as Hp.
  pose proof (lcp_le_l (suffix obuf I.[j]) nbuf) as Hl1.
  pose proof (lcp_le_r (suffix obuf I.[j]) nbuf) as Hl2.
  pose proof (suffix_length obuf I.[j] Hp) as Hsl. unfold len in Hsl.
  split; [exact Hp|]. split.
  - intros Hpos. destruct (Z.eq_dec I.[j] (len obuf)) as [En|Hne]; [|lia].
    exfalso. destruct Hsa as (_ & (_ & Hinj & _) & _).
    assert (j = 0).
    { apply Hinj; unfold inr; lia. }
    subst j. destruct (Hk ltac:(lia)) as [Hlt|Hlt]; [lia|].
    unfold len in *. lia.
  - unfold len in *. lia.
Qed.

Lemma search_range_witness :
  len banana + 1 < 2 ^ 31 /\ len [x61; x6e; x61] < 2 ^ 31 /\
  len banana + 2 < Z.of_nat 9 /\
  qsufsort idle 9 0 4 banana = Ok [6; 5; 3; 1; 0; 4; 2] /\
  (2 * length banana + 1 < 14)%nat /\
  exists p k,
    search 14 [6; 5; 3; 1; 0; 4; 2] banana [x61; x6e; x61] 0 (len banana)
    = Ok (p, k) /\
    0 <= p <= len banana /\
    (1 <= len banana -> p <= len banana - 1) /\
    0 <= k <= Z.min (len banana) (len [x61; x6e; x61]) /\
    k <= len banana - p.
Proof.
  assert (H1 : len banana + 1 < 2 ^ 31) by reflexivity.
  assert (H2 : len [x61; x6e; x61] < 2 ^ 31) by reflexivity.
  assert (H3 : len banana + 2 < Z.of_nat 9) by reflexivity.
  assert (H4 : qsufsort idle 9 0 4 banana = Ok [6; 5; 3; 1; 0; 4; 2])
    by (vm_compute; reflexivity).
  assert (H5 : (2 * length banana + 1 < 14)%nat) by (simpl; lia).
  split; [exact H1|]. split; [exact H2|]. split; [exact H3|].
  split; [exact H4|]. split; [exact H5|].
  exact (search_range idle 9 14 0 4 banana [x61; x6e; x61] _ H1 H2 H3 H4 H5).
Defined.

(** The empty buffer: the sort returns [[0]], and [search] over the
    window [[0, 0]] returns the position 0, which is not in [[0, n-1]]
    for [n = 0]. *)
Lemma search_position_empty_buffer :
  qsufsort idle 3 0 4 [] = Ok [0] /\
  search 3 [0] [] [x61] 0 (len (@nil byte)) = Ok (0, 0) /\
  ~ (0 <= 0 <= len (@nil byte) - 1).
Proof.
  split; [vm_compute; reflexivity|]. split; [vm_compute; reflexivity|].
  vm_compute. intros [_ H]. apply H. reflexivity.
Qed.

(** Claim C10.  [matchlen] is symmetric in its two slices, and so is
    [matchlen64]. *)
Theorem matchlen_symmetric (fuel : nat) (a c : list byte) :
  matchlen fuel a c = matchlen fuel c a /\
  matchlen64 fuel a c = matchlen64 fuel c a.
Proof.
  split; apply matchlen_gen_sym; lia.
Qed.

(** * Further properties of the code *)

(** ** The longest match *)

Lemma lex_le_cons_inv x a y c :
  lex_le (x :: a) (y :: c) ->
  byteZ x < byteZ y \/ (x = y /\ lex_le a c).
Proof.
  intros [E|H].
  - injection E as -> ->. right. split; [reflexivity|now left].
  - inversion H; subst; [now left|]. right. split; [reflexivity|now right].
Qed.

(** Of three strings in order, the outer two share no more than the
    inner one shares with either. *)
Lemma lcp_between a : forall m c,
  lex_le a m -> lex_le m c ->
  (lcp a c <= lcp a m)%nat /\ (lcp a c <= lcp m c)%nat.
Proof.
  induction a as [|x a IH]; intros m c Ham Hmc; [simpl; lia|].
  destruct c as [|z c]; [simpl; lia|].
  destruct m as [|y m].
  { destruct Ham as [E|H]; [discriminate|inversion H]. }
  cbn [lcp]. destruct (Byte.eqb x z) eqn:Exz; [|lia].
  apply byte_eqb_eq in Exz. subst z.
  apply lex_le_cons_inv in Ham. apply lex_le_cons_inv in Hmc.
  destruct Ham as [Hlt|(-> & Ham)]; [destruct Hmc as [Hlt'|(-> & _)]; lia|].
  destruct Hmc as [Hlt|(_ & Hmc)]; [lia|].
  rewrite (proj2 (byte_eqb_eq y y) eq_refl).
  destruct (IH m c Ham Hmc). lia.
Qed.

Lemma lex_le_nil a : lex_le [] a.
Proof. destruct a; [now left|right; constructor]. Qed.

Lemma not_lt_le a c : ~ lex_lt a c -> lex_le c a.
Proof.
  intros H. destruct (list_eq_dec Byte.byte_eq_dec a c) as [->|Hne]; [now left|].
  destruct (lex_lt_total a c Hne); [contradiction|now right].
Qed.

Section Best.

Variable w : Z.
Hypothesis w_pos : 0 < w.
Variables (obuf nbuf : list byte) (I : list Z).
Local Abbreviation n := (len obuf).
Hypothesis obuf_fits : n + 1 < 2 ^ (w - 1).
Hypothesis nbuf_fits : len nbuf < 2 ^ (w - 1).
Hypothesis I_sorted : suffix_array obuf I.

Lemma slot_le j j' :
  0 <= j <= j' -> j' <= n -> lex_le (suffix obuf I.[j]) (suffix obuf I.[j']).
Proof.
  intros Hj Hj'. destruct I_sorted as (_ & _ & Hlt).
  destruct (Z.eq_dec j j') as [->|Hne]; [now left|].
  right. apply Hlt; lia.
Qed.

(** In a window whose lower end is not above the query and whose upper
    end, unless it is the last slot, is not below it, the search returns
    a slot whose suffix shares with the query as much as any does. *)
Lemma search_gen_best (fuel : nat) :
  forall st en, 0 <= st <= en -> en <= n ->
  (Z.to_nat (en - st) + length obuf + 1 < fuel)%nat ->
  lex_le (suffix obuf I.[st]) nbuf ->
  (en = n \/ lex_le nbuf (suffix obuf I.[en])) ->
  exists j, st <= j <= en /\
    search_gen w fuel I obuf nbuf st en
    = Ok (I.[j], Z.of_nat (lcp (suffix obuf I.[j]) nbuf)) /\
    forall q, 0 <= q <= n ->
      (lcp (suffix obuf I.[q]) nbuf <= lcp (suffix obuf I.[j]) nbuf)%nat.
Proof.
  pose proof (suffix_array_index obuf I I_sorted) as Hidx.
  induction fuel as [|fuel IH]; intros st en Hst Hen Hf Hlo Hhi; [lia|].
  destruct (Z.lt_ge_cases (en - st) 2) as [Hd|Hd].
  - rewrite (search_terminal w w_pos obuf nbuf I obuf_fits nbuf_fits Hidx)
      by (auto; lia).
    cbv zeta.
    assert (Hlow : forall q, 0 <= q <= st ->
              (lcp (suffix obuf I.[q]) nbuf <= lcp (suffix obuf I.[st]) nbuf)%nat).
    { intros q Hq.
      apply (lcp_between _ (suffix obuf I.[st]) nbuf); [|exact Hlo].
      apply slot_le; lia. }
    assert (Hup : forall q, en <= q <= n ->
              (lcp (suffix obuf I.[q]) nbuf <= lcp (suffix obuf I.[en]) nbuf)%nat).
    { intros q Hq. destruct (Z.eq_dec q en) as [->|Hne]; [lia|].
      destruct Hhi as [->|Hhi]; [lia|].
      rewrite (lcp_sym (suffix obuf I.[q])), (lcp_sym (suffix obuf I.[en])).
      apply (lcp_between nbuf (suffix obuf I.[en]) (suffix obuf I.[q]));
        [exact Hhi|]. apply slot_le; lia. }
    destruct (Z.gtb_spec (Z.of_nat (lcp (suffix obuf I.[st]) nbuf))
                (Z.of_nat (lcp (suffix obuf I.[en]) nbuf))) as [Hgt|Hle].
    + exists st. split; [lia|]. split; [reflexivity|]. intros q Hq.
      destruct (Z_le_gt_dec q st) as [H|H]; [apply Hlow; lia|].
      specialize (Hup q ltac:(lia)). lia.
    + exists en. split; [lia|]. split; [reflexivity|]. intros q Hq.
      destruct (Z_le_gt_dec q st) as [H|H]; [|apply Hup; lia].
      specialize (Hlow q ltac:(lia)). lia.
  - rewrite (search_recursive w w_pos obuf nbuf I obuf_fits Hidx) by (auto; lia).
    cbv zeta. set (mid := st + (en - st) / 2).
    assert (Hm : st < mid < en).
    { unfold mid. assert (1 <= (en - st) / 2) by (apply Z.div_le_lower_bound; lia).
      assert ((en - st) / 2 < en - st) by (apply Z.div_lt; lia). lia. }
    destruct (bytes_compare (suffix obuf I.[mid]) nbuf <? 0) eqn:Ec.
    + apply bytes_compare_lt in Ec.
      destruct (IH mid en) as (j & Hj & E & Hbest); try lia; auto.
      { now right. }
      exists j. split; [lia|]. split; [exact E|exact Hbest].
    + assert (Hge : lex_le nbuf (suffix obuf I.[mid])).
      { apply not_lt_le. intros H. apply bytes_compare_lt in H. congruence. }
      destruct (IH st mid) as (j & Hj & E & Hbest); try lia; auto.
      exists j. split; [lia|]. split; [exact E|exact Hbest].
Qed.

(** Over the whole array the search returns a longest match. *)
Lemma search_gen_longest (fuel : nat) :
  (2 * length obuf + 1 < fuel)%nat ->
  exists p, 0 <= p <= n /\
    search_gen w fuel I obuf nbuf 0 n
    = Ok (p, Z.of_nat (lcp (suffix obuf p) nbuf)) /\
    forall q, 0 <= q <= n ->
      (lcp (suffix obuf q) nbuf <= lcp (suffix obuf p) nbuf)%nat.
Proof.
  intros Hf. pose proof (len_nonneg obuf) as Hn.
  destruct (search_gen_best fuel 0 n) as (j & Hj & E & Hbest); try lia.
  - unfold len in *. lia.
  - rewrite (suffix_array_first obuf I I_sorted).
    assert (En : suffix obuf n = []) by (apply suffix_nil; lia).
    rewrite En. apply lex_le_nil.
  - exists I.[j]. split.
    + exact (proj2 (suffix_array_index obuf I I_sorted) j Hj).
    + split; [exact E|]. intros q Hq.
      destruct I_sorted as (_ & (_ & _ & Hsurj) & _).
      destruct (Hsurj q Hq) as (k & Hk & <-). now apply Hbest.
Qed.

End Best.

Lemma lcp_app_self a c : lcp (a ++ c) a = length a.
Proof.
  induction a as [|x a IH]; simpl; [now destruct c|].
  rewrite (proj2 (byte_eqb_eq x x) eq_refl). now rewrite IH.
Qed.

Lemma lcp_app p a c : lcp (p ++ a) (p ++ c) = (length p + lcp a c)%nat.
Proof.
  induction p as [|x p IH]; simpl; [reflexivity|].
  rewrite (proj2 (byte_eqb_eq x x) eq_refl). now rewrite IH.
Qed.

Lemma suffix_app (pre rest : list byte) : suffix (pre ++ rest) (len pre) = rest.
Proof.
  unfold suffix, len. rewrite Nat2Z.id.
  induction pre as [|x pre IH]; simpl; auto.
Qed.

(** ** matchlen on slices of any length *)

Section MatchAny.

Variable w : Z.
Hypothesis w_pos : 0 < w.
Variables a c : list byte.

Local Abbreviation alen := (wrap w (len a)).
Local Abbreviation clen := (wrap w (len c)).
Local Abbreviation reach :=
  (Z.min (Z.of_nat (lcp a c)) (Z.max 0 (Z.min alen clen))).

Lemma matchlen_cond_any (i : Z) :
  0 <= i <= reach ->
  (if negb (i <? alen) then Ok false
   else if negb (i <? clen) then Ok false
   else x <- get a i ;; y <- get c i ;; Ok (Byte.eqb x y))
  = Ok (i <? reach).
Proof.
  intros Hi.
  pose proof (wrap_bounds w (len a) w_pos (len_nonneg a)) as (Ha & _).
  pose proof (wrap_bounds w (len c) w_pos (len_nonneg c)) as (Hc & _).
  destruct (Z.ltb_spec i alen) as [Hia|Hia]; cbn [negb].
  2:{ destruct (Z.ltb_spec i reach); [lia|reflexivity]. }
  destruct (Z.ltb_spec i clen) as [Hic|Hic]; cbn [negb].
  2:{ destruct (Z.ltb_spec i reach); [lia|reflexivity]. }
  pose proof (matchlen_cond a c i ltac:(lia)) as E.
  destruct (Z.ltb_spec i (len a)); [|lia].
  destruct (Z.ltb_spec i (len c)); [|lia].
  cbn [negb] in E. rewrite E. f_equal.
  destruct (Z.ltb_spec i (Z.of_nat (lcp a c))), (Z.ltb_spec i reach);
    auto; lia.
Qed.

Lemma matchlen_gen_any (fuel : nat) :
  (Z.to_nat reach < fuel)%nat -> matchlen_gen w fuel a c = Ok reach.
Proof.
  intros Hf. unfold matchlen_gen.
  pose proof (wrap_bounds w (len a) w_pos (len_nonneg a)) as (Ha & Ha').
  pose proof (wrap_bounds w (len c) w_pos (len_nonneg c)) as (Hc & Hc').
  set (cond := fun i : Z => _). set (body := fun i : Z => _).
  destruct (@while_rule Z (fun i => 0 <= i <= reach)
              (fun i => reach - i) cond body) with
      (fuel := fuel) (s := 0) as (i & Hw & Hi & Hcd); try lia.
  - intros i Hi.
    eexists; split; [exact (matchlen_cond_any i Hi)|]. intros Hlt.
    apply Z.ltb_lt in Hlt. exists (i + 1). unfold body, wadd.
    rewrite wrap_small by lia. repeat split; lia.
  - rewrite Hw. f_equal.
    unfold cond in Hcd. rewrite (matchlen_cond_any i Hi) in Hcd.
    injection Hcd as Hcd. apply Z.ltb_ge in Hcd. lia.
Qed.

End MatchAny.

(** ** What split leaves alone *)

Lemma while_preserve {St : Type} (Q : St -> Prop) (cond : St -> res bool)
    (body : St -> res St) :
  (forall s s', Q s -> body s = Ok s' -> Q s') ->
  forall fuel s s', Q s -> while fuel cond body s = Ok s' -> Q s'.
Proof.
  intros Hb. induction fuel as [|fuel IH]; intros s s' HQ H; [discriminate|].
  cbn [while] in H. apply bind_inv in H. destruct H as ([|] & _ & H).
  - apply bind_inv in H. destruct H as (s1 & H1 & H). eauto.
  - injection H as <-. exact HQ.
Qed.

Lemma set_len (a : list Z) i v a' : set a i v = Ok a' -> len a' = len a.
Proof.
  unfold set. destruct (_ && _); [|discriminate].
  intros [= <-]. apply (len_updZ a i v).
Qed.

Section Frame.

Variable w : Z.
Variable v2 : vref.
Variable s0 : store.

(** The lengths are those of [s0], and so is the array [split] does not
    write its group numbers to. *)
Local Abbreviation kept s :=
  (len (arrI s) = len (arrI s0) /\ len (rd v2 s) = len (rd v2 s0) /\
   forall r, r <> v2 -> rd r s = rd r s0).

Lemma kept_setI s i x s' : kept s -> setI s i x = Ok s' -> kept s'.
Proof.
  intros (H1 & H2 & H3) H. unfold setI in H.
  apply bind_inv in H. destruct H as (a & Ha & [= <-]).
  apply set_len in Ha. rewrite arrI_withI.
  split; [lia|]. split.
  - now rewrite rd_withI.
  - intros r Hr. rewrite rd_withI. now apply H3.
Qed.

Lemma kept_setV s i x s' : kept s -> setV v2 s i x = Ok s' -> kept s'.
Proof.
  intros (H1 & H2 & H3) H. unfold setV in H.
  apply bind_inv in H. destruct H as (a & Ha & [= <-]).
  apply set_len in Ha. rewrite arrI_wr.
  split; [exact H1|]. split.
  - rewrite rd_wr_same. lia.
  - intros r Hr. rewrite rd_wr.
    destruct (vref_eqb r v2) eqn:E; [apply vref_eqb_eq in E; congruence|].
    now apply H3.
Qed.

Lemma kept_swapI s x y s' : kept s -> swapI s x y = Ok s' -> kept s'.
Proof.
  intros Hk H. unfold swapI in H.
  apply bind_inv in H. destruct H as (p & _ & H).
  apply bind_inv in H. destruct H as (q & _ & H).
  apply bind_inv in H. destruct H as (s1 & H1 & H).
  eapply kept_setI; [|exact H]. eapply kept_setI; [exact Hk|exact H1].
Qed.

Lemma kept_sel_scan fuel v start length h k i j x s i' j' x' s' :
  kept s ->
  sel_scan w fuel v start length h k (i, j, x, s) = Ok (i', j', x', s') ->
  kept s'.
Proof.
  intros Hk H. unfold sel_scan in H.
  apply (while_preserve (fun st : Z * Z * Z * store => kept (snd st)))
    in H; [exact H| |exact Hk].
  clear. intros [[[i j] x] s] [[[i1 j1] x1] s1] Hk H. cbn [snd] in *.
  apply bind_inv in H. destruct H as (c1 & _ & H).
  apply bind_inv in H. destruct H as ([x2 j2] & _ & H).
  apply bind_inv in H. destruct H as (c2 & _ & H).
  apply bind_inv in H. destruct H as ([j3 s3] & H3 & H).
  injection H as <- <- <- <-.
  destruct (c2 =? x2).
  - apply bind_inv in H3. destruct H3 as (s4 & H4 & [= <- <-]).
    eapply kept_swapI; eauto.
  - injection H3 as <- <-. exact Hk.
Qed.

Lemma kept_commit fuel base m g s s' :
  kept s -> commit w fuel v2 base m g s = Ok s' -> kept s'.
Proof.
  intros Hk H. unfold commit in H.
  apply bind_inv in H. destruct H as ([i1 s1] & H & [= <-]).
  apply (while_preserve (fun st : Z * store => kept (snd st)))
    in H; [exact H| |exact Hk].
  clear. intros [i s] [i1 s1] Hk H. cbn [snd] in *.
  apply bind_inv in H. destruct H as (p & _ & H).
  apply bind_inv in H. destruct H as (s2 & H2 & [= <- <-]).
  eapply kept_setV; eauto.
Qed.

Lemma kept_sel_sort fuel v start length h s s' :
  kept s -> sel_sort w fuel v v2 start length h s = Ok s' -> kept s'.
Proof.
  intros Hk H. unfold sel_sort in H.
  apply bind_inv in H. destruct H as ([k1 s1] & H & [= <-]).
  apply (while_preserve (fun st : Z * store => kept (snd st)))
    in H; [exact H| |exact Hk].
  clear. intros [k s] [k1 s1] Hk H. cbn [snd] in *.
  apply bind_inv in H. destruct H as (x & _ & H).
  apply bind_inv in H. destruct H as ([[[i2 j2] x2] s2] & H2 & H).
  apply bind_inv in H. destruct H as (s3 & H3 & H).
  apply bind_inv in H. destruct H as (s4 & H4 & [= <- <-]).
  apply kept_sel_scan in H2; [|exact Hk].
  apply kept_commit in H3; [|exact H2].
  destruct (j2 =? 1); [exact (kept_setI _ _ _ _ H3 H4)|].
  injection H4 as <-. exact H3.
Qed.

Lemma kept_walk_lt fuel v h x jj kk i j k s i' j' k' s' :
  kept s ->
  walk_lt w fuel v h x jj kk (i, j, k, s) = Ok (i', j', k', s') -> kept s'.
Proof.
  intros Hk H. unfold walk_lt in H.
  apply (while_preserve (fun st : Z * Z * Z * store => kept (snd st)))
    in H; [exact H| |exact Hk].
  clear. intros [[[i j] k] s] [[[i1 j1] k1] s1] Hk H. cbn [snd] in *.
  apply bind_inv in H. destruct H as (c1 & _ & H).
  destruct (c1 <? x); [injection H as <- <- <- <-; exact Hk|].
  apply bind_inv in H. destruct H as (c2 & _ & H).
  destruct (c2 =? x);
    apply bind_inv in H; destruct H as (s2 & H2 & [= <- <- <- <-]);
    eapply kept_swapI; eauto.
Qed.

Lemma kept_walk_eq fuel v h x jj kk j k s j' k' s' :
  kept s ->
  walk_eq w fuel v h x jj kk (j, k, s) = Ok (j', k', s') -> kept s'.
Proof.
  intros Hk H. unfold walk_eq in H.
  apply (while_preserve (fun st : Z * Z * store => kept (snd st)))
    in H; [exact H| |exact Hk].
  clear. intros [[j k] s] [[j1 k1] s1] Hk H. cbn [snd] in *.
  apply bind_inv in H. destruct H as (c & _ & H).
  destruct (c =? x); [injection H as <- <- <-; exact Hk|].
  apply bind_inv in H. destruct H as (s2 & H2 & [= <- <- <-]).
  eapply kept_swapI; eauto.
Qed.

Lemma kept_split fuel v :
  forall start length h s s',
  kept s -> split w fuel v v2 start length h s = Ok s' -> kept s'.
Proof.
  induction fuel as [|fuel IH]; intros start length h s s' Hk H;
    [discriminate|].
  cbn [split] in H. destruct (length <? 16).
  { eapply kept_sel_sort; eauto. }
  apply bind_inv in H. destruct H as (x & _ & H).
  apply bind_inv in H. destruct H as ([jj kk] & _ & H). cbv zeta in H.
  apply bind_inv in H. destruct H as ([[[i1 j1] k1] s1] & H1 & H).
  apply bind_inv in H. destruct H as ([[j2 k2] s2] & H2 & H).
  apply bind_inv in H. destruct H as (s3 & H3 & H).
  apply bind_inv in H. destruct H as (s4 & H4 & H).
  apply bind_inv in H. destruct H as (s5 & H5 & H).
  apply kept_walk_lt in H1; [|exact Hk].
  apply kept_walk_eq in H2; [|exact H1].
  assert (K3 : kept s3).
  { destruct (_ >? _) in H3; [exact (IH _ _ _ _ _ H2 H3)|].
    injection H3 as <-. exact H2. }
  apply kept_commit in H4; [|exact K3].
  assert (K5 : kept s5).
  { destruct (_ =? _) in H5; [exact (kept_setI _ _ _ _ H4 H5)|].
    injection H5 as <-. exact H4. }
  destruct (_ >? _) in H; [exact (IH _ _ _ _ _ K5 H)|].
  injection H as <-. exact K5.
Qed.

End Frame.

(** ** The arrays of the bucket sort *)

Section InitSpec.

Variable w : Z.
Hypothesis w_pos : 0 < w.
Variable b : list byte.
Local Abbreviation n := (len b).
Hypothesis fits : n + 1 < 2 ^ (w - 1).

Lemma init_arrays :
  exists I V, init w b = Ok (I, V) /\
    len I = n + 1 /\ len V = n + 1 /\ I.[0] = -1 /\ V.[n] = 0 /\
    (forall p, 0 <= p < n -> V.[p] = nlt b (byte_at b p + 1)) /\
    (forall p, 0 <= p < n ->
       I.[rank b p] = if (1 <=? byte_at b p) && (neq b (byte_at b p) =? 1)
                      then -1 else p).
Proof.
  pose proof (ws w w_pos b fits) as wsb.
  assert (Hn : 0 <= n) by (unfold len; lia).
  unfold init. unfold wadd. rewrite (wsb n) by lia. rewrite (wsb (n + 1)) by lia.
  unfold make. destruct (Z.ltb_spec (n + 1) 0); [lia|]. cbn [bind].
  set (I0 := repeat 0 (Z.to_nat (n + 1))).
  assert (HI0 : len I0 = n + 1).
  { unfold I0, len. rewrite repeat_length. lia. }
  destruct (count_bytes_ok w w_pos b fits) as (Hl1 & Hv1).
  destruct (prefix_sums_ok w w_pos b fits _ Hl1 Hv1) as (Hl2 & Hv2).
  destruct (shift_buckets_ok w w_pos b _ Hl2 Hv2) as (Hl3 & Hv3).
  set (bk3 := shift_buckets _) in *.
  destruct (fill_I_gen w w_pos b fits b [] bk3 I0 eq_refl) as (bk & I1 & EI & HF).
  { split; [exact Hl3|]. split; [exact HI0|]. split; [|split].
    - intros c Hc. rewrite Hv3 by auto. unfold neq. rewrite cntb_nil. lia.
    - intros p Hp. unfold len in Hp. simpl in Hp. lia.
    - intros c j Hc Hj. rewrite Hv3 in Hj by auto. lia. }
  change (len (@nil byte)) with 0 in EI. rewrite EI. cbn [bind].
  pose proof HF as (Hlb & HlI & Hbk & Hfw & _).
  rewrite set_ok by lia. cbn [bind].
  destruct (fill_V_gen w w_pos b bk b [] I0 eq_refl HI0)
    as (V' & EV & HlV & HVin & _).
  change (len (@nil byte)) with 0 in EV, HVin. rewrite EV. cbn [bind].
  rewrite set_ok by lia. cbn [bind].
  assert (Hbk' : forall c, 0 <= c < 256 -> bget bk c = nlt b (c + 1)).
  { intros c Hc. rewrite Hbk by auto. now rewrite nlt_succ. }
  destruct (mark_singles_gen w w_pos b fits bk bucket_range Hbk'
              (fun i H => proj1 (in_bucket_range i) H)
              (updZ I1 0 n)) as (I2 & EM & HlM & Hm & Hu).
  { now rewrite len_updZ. }
  rewrite EM. cbn [bind]. rewrite set_ok by lia. cbn [bind].
  exists (updZ I2 0 (-1)), (updZ V' n 0).
  split; [reflexivity|]. split; [now rewrite len_updZ|].
  split; [now rewrite len_updZ|].
  split; [apply idx_updZ_same; lia|]. split; [apply idx_updZ_same; lia|].
  split.
  - intros p Hp. rewrite idx_updZ_other by lia. rewrite HVin by lia.
    now apply Hbk'; apply byte_at_range.
  - intros p Hp. pose proof (rank_bucket b p Hp) as Hr.
    pose proof (byte_at_range b p) as Hc. set (c := byte_at b p) in *.
    pose proof (nlt_bounds b c). pose proof (nlt_succ b c) as Hs.
    rewrite idx_updZ_other by lia.
    destruct (Z.leb_spec 1 c) as [Hc1|Hc1];
      [destruct (Z.eqb_spec (neq b c) 1) as [E1|N1]|]; cbn [andb].
    + replace (rank b p) with (nlt b (c + 1)) by lia.
      apply Hm; [apply in_bucket_range; lia|exact E1].
    + rewrite Hu; [| lia |].
      * rewrite idx_updZ_other by lia. now apply Hfw.
      * intros i Hi Hone E. apply in_bucket_range in Hi.
        pose proof (nlt_succ b i).
        assert (c = i); [|congruence].
        apply (bucket_disjoint b _ _ (rank b p)); [exact Hr|lia].
    + rewrite Hu; [| lia |].
      * rewrite idx_updZ_other by lia. now apply Hfw.
      * intros i Hi Hone E. apply in_bucket_range in Hi.
        pose proof (nlt_succ b i).
        assert (c = i); [|lia].
        apply (bucket_disjoint b _ _ (rank b p)); [exact Hr|lia].
Qed.

End InitSpec.

(** ** The number of passes *)

Lemma wrap_shift w z : 0 < w -> exists t, wrap w z = z + 2 ^ w * t.
Proof.
  intros Hw. unfold wrap. exists (- ((z + 2 ^ (w - 1)) / 2 ^ w)).
  assert (Hp : 0 < 2 ^ w) by (apply Z.pow_pos_nonneg; lia).
  rewrite Z.mod_eq by lia. lia.
Qed.

Lemma wrap_period w u v : 0 < w -> wrap w (u + 2 ^ w * v) = wrap w u.
Proof.
  intros Hw. unfold wrap.
  replace (u + 2 ^ w * v + 2 ^ (w - 1)) with (u + 2 ^ (w - 1) + v * 2 ^ w) by lia.
  now rewrite Z_mod_plus_full.
Qed.

Lemma wrap_mul_l w x y : 0 < w -> wrap w (wrap w x * y) = wrap w (x * y).
Proof.
  intros Hw. destruct (wrap_shift w x Hw) as (t & E). rewrite E.
  replace ((x + 2 ^ w * t) * y) with (x * y + 2 ^ w * (t * y)) by lia.
  now apply wrap_period.
Qed.

Lemma wrap_idem w x : 0 < w -> wrap w (wrap w x) = wrap w x.
Proof.
  intros Hw. destruct (wrap_shift w x Hw) as (t & E).
  transitivity (wrap w (x + 2 ^ w * t)); [now rewrite <- E|].
  now apply wrap_period.
Qed.

Section Count.

Variable w : Z.
Hypothesis w_pos : 0 < w.
Variable b : list byte.
Local Abbreviation n := (len b).
Hypothesis fits : n + 1 < 2 ^ (w - 1).
Variable sched : Z -> Z -> list nat.
Variable parallel : bool.
Variable numWorkers : Z.
Hypothesis workers : parallel = true -> 1 <= numWorkers.
Variable taskBufferSize : Z.
Hypothesis buffer : 0 <= taskBufferSize.

(** The loop of [passes] from the order [h] on: it ends after [k] passes,
    [k <= d + 1] when [n < hg * 2 ^ d], with the order [h * 2 ^ k]. *)
Lemma doubling_count (F : nat) :
  n + 2 < Z.of_nat F ->
  forall (d f : nat) hg h s P,
  between b hg s P -> h = hg \/ n < hg -> wrap w h = h ->
  (parallel = true -> arrV2 s = arrV s) ->
  n < hg * 2 ^ Z.of_nat d -> (d + 2 <= f)%nat ->
  exists h' s' (k : nat),
    while f
      (fun '(h, s) =>
         I0 <- getI s 0 ;; Ok (negb (I0 =? wneg w (wadd w n 1))))
      (fun '(h, s) =>
         s' <- pass w sched F parallel numWorkers taskBufferSize n h s ;;
         Ok (wadd w h h, s'))
      (h, s) = Ok (h', s') /\
    (k <= d + 1)%nat /\ h' = wrap w (h * 2 ^ Z.of_nat k).
Proof.
  intros HF. pose proof (len_nonneg b) as Hn.
  assert (Hcond : forall s, len (arrI s) = n + 1 ->
    (I0 <- getI s 0 ;; Ok (negb (I0 =? wneg w (wadd w n 1))))
    = Ok (negb ((arrI s).[0] =? - (n + 1)))).
  { intros s Hl. rewrite getI_ok by lia. cbn [bind].
    unfold wneg, wadd. rewrite (ws w w_pos b fits (n + 1)) by lia.
    now rewrite (ws w w_pos b fits (- (n + 1))) by lia. }
  assert (Hstep : forall h (k : nat),
            wrap w (wadd w h h * 2 ^ Z.of_nat k)
            = wrap w (h * 2 ^ Z.of_nat (S k))).
  { intros h k. unfold wadd. rewrite wrap_mul_l by exact w_pos.
    rewrite Nat2Z.inj_succ, Z.pow_succ_r by lia. f_equal. lia. }
  induction d as [|d IH]; intros f hg h s P Hb Hh Hwh HV Hd Hf.
  - destruct f as [|[|f]]; try lia.
    assert (Hbig : n < hg).
    { change (Z.of_nat 0) with 0 in Hd. rewrite Z.pow_0_r in Hd. lia. }
    pose proof Hb as (Hpos & (HlI & _) & _).
    cbn [while]. rewrite Hcond by auto. cbn [bind].
    destruct (Z.eqb_spec (arrI s).[0] (- (n + 1))) as [E|E]; cbn [negb].
    + exists h, s, 0%nat. split; [reflexivity|]. split; [lia|].
      change (Z.of_nat 0) with 0. now rewrite Z.pow_0_r, Z.mul_1_r.
    + destruct (pass_ok w w_pos b fits sched parallel numWorkers workers _
                  (v2_ok parallel numWorkers workers) hg h Hpos Hh F s P taskBufferSize HF buffer
                  Hb HV)
        as (s1 & P1 & Hp & Hb1 & HV1 & HI1).
      rewrite Hp. cbn [bind].
      pose proof Hb1 as (_ & (HlI1 & _) & _).
      rewrite Hcond by auto. cbn [bind].
      rewrite (HI1 Hbig), Z.eqb_refl. cbn [negb].
      exists (wadd w h h), s1, 1%nat. split; [reflexivity|]. split; [lia|].
      unfold wadd. f_equal. change (2 ^ Z.of_nat 1) with 2. lia.
  - destruct f as [|f]; try lia.
    pose proof Hb as (Hpos & (HlI & _) & _).
    cbn [while]. rewrite Hcond by auto. cbn [bind].
    destruct (Z.eqb_spec (arrI s).[0] (- (n + 1))) as [E|E]; cbn [negb].
    + exists h, s, 0%nat. split; [reflexivity|]. split; [lia|].
      change (Z.of_nat 0) with 0. now rewrite Z.pow_0_r, Z.mul_1_r.
    + destruct (pass_ok w w_pos b fits sched parallel numWorkers workers _
                  (v2_ok parallel numWorkers workers) hg h Hpos Hh F s P taskBufferSize HF buffer
                  Hb HV)
        as (s1 & P1 & Hp & Hb1 & HV1 & HI1).
      rewrite Hp. cbn [bind].
      destruct (IH f (hg + hg) (wadd w h h) s1 P1) as (h' & s' & k & Hw & Hk & Eh);
        auto; try lia.
      * destruct (Z_le_gt_dec (hg + hg) n) as [Hle|Hgt]; [left|right; lia].
        destruct Hh as [->|Hh]; [|lia].
        unfold wadd. apply (ws w w_pos b fits). lia.
      * unfold wadd. now apply wrap_idem.
      * rewrite Nat2Z.inj_succ, Z.pow_succ_r in Hd by lia. lia.
      * exists h', s', (S k). split; [exact Hw|]. split; [lia|].
        rewrite Eh. apply Hstep.
Qed.

(** [passes] runs at most [log2 n + 2] passes. *)
Lemma passes_count (fuel : nat) s P :
  n + 2 < Z.of_nat fuel ->
  between b 1 s P -> (parallel = true -> arrV2 s = arrV s) ->
  exists h' s' (k : nat),
    passes w sched fuel parallel numWorkers taskBufferSize n s = Ok (h', s') /\
    Z.of_nat k <= Z.log2 n + 2 /\ h' = wrap w (2 ^ Z.of_nat k).
Proof.
  intros Hf Hb HV. pose proof (len_nonneg b) as Hn.
  assert (Hw1 : wrap w 1 = 1) by (apply (ws w w_pos b fits); lia).
  pose proof (Z.log2_nonneg n) as Hl.
  destruct (Z.eq_dec n 0) as [E0|N0].
  - destruct (doubling_count fuel Hf 0 fuel 1 1 s P Hb (or_introl eq_refl)
                Hw1 HV) as (h' & s' & k & Hw & Hk & Eh); try lia.
    exists h', s', k. split; [exact Hw|]. split; [lia|].
    rewrite Eh. f_equal. lia.
  - pose proof (Z.log2_spec n ltac:(lia)) as (Hlo & Hhi).
    assert (Hlt : Z.log2 n < n).
    { apply Z.log2_lt_lin. lia. }
    destruct (doubling_count fuel Hf (Z.to_nat (Z.log2 n + 1)) fuel 1 1 s P Hb
                (or_introl eq_refl) Hw1 HV) as (h' & s' & k & Hw & Hk & Eh);
      try lia.
    { rewrite Z2Nat.id by lia. unfold Z.succ in Hhi. lia. }
    exists h', s', k. split; [exact Hw|]. split; [lia|].
    rewrite Eh. f_equal. lia.
Qed.

End Count.

(** ** The depth of the search *)

Section Depth.

Variable w : Z.
Hypothesis w_pos : 0 < w.
Variables (obuf nbuf : list byte) (I : list Z).
Hypothesis obuf_fits : len obuf + 1 < 2 ^ (w - 1).
Hypothesis nbuf_fits : len nbuf < 2 ^ (w - 1).
Hypothesis I_valid : index_array (len obuf) I.

(** A window of at most [2 ^ d] slots is searched in [d] halvings. *)
Lemma search_gen_depth (d : nat) :
  forall fuel st en, 0 <= st <= en -> en <= len obuf ->
  en - st <= 2 ^ Z.of_nat d ->
  (d + length obuf + 1 < fuel)%nat ->
  exists j, st <= j <= en /\
    search_gen w fuel I obuf nbuf st en
    = Ok (I.[j], Z.of_nat (lcp (suffix obuf I.[j]) nbuf)).
Proof.
  induction d as [|d IH]; intros fuel st en Hst Hen Hd Hf;
    (destruct fuel as [|fuel]; [lia|]).
  - change (2 ^ Z.of_nat 0) with 1 in Hd.
    rewrite (search_terminal w w_pos obuf nbuf I obuf_fits nbuf_fits I_valid)
      by (auto; lia).
    cbv zeta. destruct (_ >? _); [exists st|exists en]; (split; [lia|reflexivity]).
  - destruct (Z.lt_ge_cases (en - st) 2) as [Hs|Hs].
    + rewrite (search_terminal w w_pos obuf nbuf I obuf_fits nbuf_fits I_valid)
        by (auto; lia).
      cbv zeta.
      destruct (_ >? _); [exists st|exists en]; (split; [lia|reflexivity]).
    + rewrite (search_recursive w w_pos obuf nbuf I obuf_fits I_valid)
        by (auto; lia).
      cbv zeta. set (mid := st + (en - st) / 2).
      rewrite Nat2Z.inj_succ, Z.pow_succ_r in Hd by lia.
      pose proof (Z.div_mod (en - st) 2 ltac:(lia)) as Hdm.
      pose proof (Z.mod_pos_bound (en - st) 2 ltac:(lia)) as Hmb.
      assert (Hm : st < mid < en) by (unfold mid; lia).
      destruct (bytes_compare _ _ <? 0).
      * destruct (IH fuel mid en) as (j & Hj & E); try (unfold mid; lia).
        exists j. split; [lia|exact E].
      * destruct (IH fuel st mid) as (j & Hj & E); try (unfold mid; lia).
        exists j. split; [lia|exact E].
Qed.

End Depth.

(** ** The sort outside its domain *)

Lemma qsufsort_gen_overflow w sched fuel conc ncpu (b : list byte) :
  0 < w -> 2 ^ (w - 1) - 1 <= len b < 2 ^ w - 1 ->
  qsufsort_gen w sched fuel conc ncpu b = Panic.
Proof.
  intros Hw Hb.
  assert (E : 2 ^ w = 2 * 2 ^ (w - 1)).
  { replace w with (Z.succ (w - 1)) at 1 by lia. apply Z.pow_succ_r. lia. }
  assert (Hp : 0 < 2 ^ (w - 1)) by (apply Z.pow_pos_nonneg; lia).
  assert (Hneg : wadd w (wrap w (len b)) 1 = len b + 1 - 2 ^ w).
  { unfold wadd. destruct (wrap_shift w (len b) Hw) as (t & ->).
    replace (len b + 2 ^ w * t + 1)
      with (len b + 1 - 2 ^ w + 2 ^ w * (t + 1)) by lia.
    rewrite wrap_period by exact Hw. apply wrap_small; lia. }
  unfold qsufsort_gen, init. rewrite Hneg. unfold make.
  destruct (Z.ltb_spec (len b + 1 - 2 ^ w) 0); [reflexivity|lia].
Qed.

Lemma qsufsort_gen_no_queue w sched fuel conc ncpu (b : list byte) :
  0 < w -> len b + 1 < 2 ^ (w - 1) -> 1 <= len b -> (0 < fuel)%nat ->
  wrap int_bits
    ((if conc <? 1 then wrap int_bits (conc + ncpu) else conc) * 4) < 0 ->
  qsufsort_gen w sched fuel conc ncpu b = Panic.
Proof.
  intros Hw Hfit Hn Hf Hneg.
  destruct (init_arrays w Hw b Hfit) as (I & V & Hinit & HlI & _ & HI0 & _).
  unfold qsufsort_gen. rewrite Hinit. cbn [bind]. cbv zeta.
  rewrite (ws w Hw b Hfit (len b)) by lia.
  destruct fuel as [|fuel]; [lia|].
  unfold passes. cbn [while].
  rewrite getI_ok by (cbn [arrI]; lia). cbn [bind arrI]. rewrite HI0.
  unfold wneg, wadd. rewrite (ws w Hw b Hfit (len b + 1)) by lia.
  rewrite (ws w Hw b Hfit (- (len b + 1))) by lia.
  destruct (Z.eqb_spec (-1) (- (len b + 1))) as [E|_]; [lia|]. cbn [negb].
  unfold pass.
  destruct (Z.ltb_spec (wrap int_bits
              ((if conc <? 1 then wrap int_bits (conc + ncpu) else conc) * 4)) 0)
    as [_|Hge]; [reflexivity|lia].
Qed.

(** ** Properties of search *)

(** Property X1.
    On the array [qsufsort] returns for [obuf], [search] over the whole
    window returns a longest match: the [k] bytes at the position [p] are
    the first [k] bytes of the query, and no position of [obuf] shares a
    longer prefix with the query. *)
Theorem search_longest_match (sched : Z -> Z -> list nat) (fuel fuel' : nat)
    (conc ncpu : Z) (obuf nbuf : list byte) (I : list Z) :
  len obuf + 1 < 2 ^ 31 -> len nbuf < 2 ^ 31 ->
  len obuf + 2 < Z.of_nat fuel ->
  qsufsort sched fuel conc ncpu obuf = Ok I ->
  (2 * length obuf + 1 < fuel')%nat ->
  exists p k,
    search fuel' I obuf nbuf 0 (len obuf) = Ok (p, k) /\
    0 <= p <= len obuf /\ 0 <= k /\
    firstn (Z.to_nat k) (suffix obuf p) = firstn (Z.to_nat k) nbuf /\
    forall q, 0 <= q <= len obuf ->
      Z.of_nat (lcp (suffix obuf q) nbuf) <= k.
Proof.
  intros Hfit Hnb Hfuel HI Hf.
  pose proof (qsufsort_gen_sound 32 ltac:(lia) obuf Hfit sched fuel Hfuel
                conc ncpu I HI) as Hsa.
  destruct (search_gen_longest 32 ltac:(lia) obuf nbuf I Hfit Hnb Hsa fuel' Hf)
    as (p & Hp & E & Hbest).
  exists p, (Z.of_nat (lcp (suffix obuf p) nbuf)).
  split; [exact E|]. split; [exact Hp|]. split; [lia|].
  rewrite Nat2Z.id. split; [apply lcp_firstn|].
  intros q Hq. specialize (Hbest q Hq). lia.
Qed.

Lemma search_longest_match_witness :
  len banana + 1 < 2 ^ 31 /\ len [x6e; x61; x6e] < 2 ^ 31 /\
  len banana + 2 < Z.of_nat 9 /\
  qsufsort idle 9 0 4 banana = Ok [6; 5; 3; 1; 0; 4; 2] /\
  (2 * length banana + 1 < 14)%nat /\
  exists p k,
    search 14 [6; 5; 3; 1; 0; 4; 2] banana [x6e; x61; x6e] 0 (len banana)
    = Ok (p, k) /\
    0 <= p <= len banana /\ 0 <= k /\
    firstn (Z.to_nat k) (suffix banana p)
    = firstn (Z.to_nat k) [x6e; x61; x6e] /\
    forall q, 0 <= q <= len banana ->
      Z.of_nat (lcp (suffix banana q) [x6e; x61; x6e]) <= k.
Proof.
  assert (H1 : len banana + 1 < 2 ^ 31) by reflexivity.
  assert (H2 : len [x6e; x61; x6e] < 2 ^ 31) by reflexivity.
  assert (H3 : len banana + 2 < Z.of_nat 9) by reflexivity.
  assert (H4 : qsufsort idle 9 0 4 banana = Ok [6; 5; 3; 1; 0; 4; 2])
    by (vm_compute; reflexivity).
  assert (H5 : (2 * length banana + 1 < 14)%nat) by (simpl; lia).
  split; [exact H1|]. split; [exact H2|]. split; [exact H3|].
  split; [exact H4|]. split; [exact H5|].
  exact (search_longest_match idle 9 14 0 4 banana [x6e; x61; x6e] _
           H1 H2 H3 H4 H5).
Defined.

(** Property X2.
    A query that occurs in [obuf] is found whole: on the array
    [qsufsort] returns, [search] returns the length of the query and a
    position where the query stands in [obuf]. *)
Theorem search_finds_occurrence (sched : Z -> Z -> list nat)
    (fuel fuel' : nat) (conc ncpu : Z) (pre nbuf post : list byte)
    (I : list Z) :
  let obuf := pre ++ nbuf ++ post in
  len obuf + 1 < 2 ^ 31 -> len obuf + 2 < Z.of_nat fuel ->
  qsufsort sched fuel conc ncpu obuf = Ok I ->
  (2 * length obuf + 1 < fuel')%nat ->
  exists p,
    search fuel' I obuf nbuf 0 (len obuf) = Ok (p, len nbuf) /\
    0 <= p /\ p + len nbuf <= len obuf /\
    firstn (length nbuf) (suffix obuf p) = nbuf.
Proof.
  intros obuf Hfit Hfuel HI Hf.
  assert (Hlen : len obuf = len pre + len nbuf + len post).
  { unfold obuf, len. rewrite !length_app. lia. }
  pose proof (len_nonneg pre). pose proof (len_nonneg post).
  pose proof (len_nonneg nbuf).
  assert (Hnb : len nbuf < 2 ^ 31) by lia.
  pose proof (qsufsort_gen_sound 32 ltac:(lia) obuf Hfit sched fuel Hfuel
                conc ncpu I HI) as Hsa.
  destruct (search_gen_longest 32 ltac:(lia) obuf nbuf I Hfit Hnb Hsa fuel' Hf)
    as (p & Hp & E & Hbest).
  specialize (Hbest (len pre) ltac:(lia)).
  unfold obuf in Hbest at 1. rewrite suffix_app, lcp_app_self in Hbest.
  pose proof (lcp_le_r (suffix obuf p) nbuf) as Hr.
  pose proof (lcp_le_l (suffix obuf p) nbuf) as Hl.
  assert (Ek : lcp (suffix obuf p) nbuf = length nbuf) by lia.
  pose proof (suffix_length obuf p Hp) as Hsl.
  exists p. split; [|split; [lia|split]].
  - unfold search. rewrite E, Ek. reflexivity.
  - unfold len in *. lia.
  - pose proof (lcp_firstn (suffix obuf p) nbuf) as Hfn.
    rewrite Ek in Hfn. rewrite Hfn. apply firstn_all.
Qed.

Lemma search_finds_occurrence_witness :
  len ([x62; x61] ++ [x6e; x61] ++ [x6e; x61]) + 1 < 2 ^ 31 /\
  len ([x62; x61] ++ [x6e; x61] ++ [x6e; x61]) + 2 < Z.of_nat 9 /\
  qsufsort idle 9 0 4 ([x62; x61] ++ [x6e; x61] ++ [x6e; x61])
  = Ok [6; 5; 3; 1; 0; 4; 2] /\
  (2 * length ([x62; x61] ++ [x6e; x61] ++ [x6e; x61]) + 1 < 14)%nat /\
  exists p,
    search 14 [6; 5; 3; 1; 0; 4; 2] ([x62; x61] ++ [x6e; x61] ++ [x6e; x61])
      [x6e; x61] 0 (len ([x62; x61] ++ [x6e; x61] ++ [x6e; x61]))
    = Ok (p, len [x6e; x61]) /\
    0 <= p /\
    p + len [x6e; x61] <= len ([x62; x61] ++ [x6e; x61] ++ [x6e; x61]) /\
    firstn (length [x6e; x61])
      (suffix ([x62; x61] ++ [x6e; x61] ++ [x6e; x61]) p) = [x6e; x61].
Proof.
  assert (H1 : len ([x62; x61] ++ [x6e; x61] ++ [x6e; x61]) + 1 < 2 ^ 31)
    by reflexivity.
  assert (H2 : len ([x62; x61] ++ [x6e; x61] ++ [x6e; x61]) + 2 < Z.of_nat 9)
    by reflexivity.
  assert (H3 : qsufsort idle 9 0 4 ([x62; x61] ++ [x6e; x61] ++ [x6e; x61])
               = Ok [6; 5; 3; 1; 0; 4; 2]) by (vm_compute; reflexivity).
  assert (H4 : (2 * length ([x62; x61] ++ [x6e; x61] ++ [x6e; x61]) + 1
                < 14)%nat) by (simpl; lia).
  split; [exact H1|]. split; [exact H2|]. split; [exact H3|].
  split; [exact H4|].
  exact (search_finds_occurrence idle 9 14 0 4 [x62; x61] [x6e; x61]
           [x6e; x61] _ H1 H2 H3 H4).
Defined.

(** Property X3.
    A window of at most [2 ^ d] slots needs [d] halvings: fuel for [d]
    calls, one terminal call and its two [matchlen] is enough, for every
    index array and window. *)
Theorem search_logarithmic_depth (fuel : nat) (I : list Z)
    (obuf nbuf : list byte) (st en : Z) :
  len obuf + 1 < 2 ^ 31 -> len nbuf < 2 ^ 31 ->
  index_array (len obuf) I ->
  0 <= st <= en -> en <= len obuf ->
  (Z.to_nat (Z.log2_up (en - st)) + length obuf + 1 < fuel)%nat ->
  exists p k, search fuel I obuf nbuf st en = Ok (p, k).
Proof.
  intros Hfit Hnb Hidx Hst Hen Hf.
  pose proof (Z.log2_up_nonneg (en - st)) as Hl.
  destruct (search_gen_depth 32 ltac:(lia) obuf nbuf I Hfit Hnb Hidx
              (Z.to_nat (Z.log2_up (en - st))) fuel st en Hst Hen)
    as (j & _ & E).
  - rewrite Z2Nat.id by lia.
    destruct (Z_le_gt_dec (en - st) 1) as [H1|H1].
    + pose proof (Z.pow_pos_nonneg 2 (Z.log2_up (en - st)) ltac:(lia) Hl). lia.
    + apply Z.log2_up_spec. lia.
  - exact Hf.
  - eexists _, _. exact E.
Qed.

Lemma search_logarithmic_depth_witness :
  len banana + 1 < 2 ^ 31 /\ len [x6e; x61; x6e] < 2 ^ 31 /\
  index_array (len banana) [6; 5; 3; 1; 0; 4; 2] /\
  0 <= 0 <= 6 /\ 6 <= len banana /\
  (Z.to_nat (Z.log2_up (6 - 0)) + length banana + 1 < 11)%nat /\
  exists p k,
    search 11 [6; 5; 3; 1; 0; 4; 2] banana [x6e; x61; x6e] 0 6 = Ok (p, k).
Proof.
  assert (H1 : len banana + 1 < 2 ^ 31) by reflexivity.
  assert (H2 : len [x6e; x61; x6e] < 2 ^ 31) by reflexivity.
  assert (H3 : index_array (len banana) [6; 5; 3; 1; 0; 4; 2]).
  { split; [reflexivity|]. intros i Hi. change (len banana) with 6 in Hi.
    assert (Hc : i = 0 \/ i = 1 \/ i = 2 \/ i = 3 \/ i = 4 \/ i = 5 \/ i = 6)
      by lia.
    destruct Hc as [->|[->|[->|[->|[->|[->| ->]]]]]];
      vm_compute; split; discriminate. }
  assert (H4 : 0 <= 0 <= 6) by lia.
  assert (H5 : 6 <= len banana) by (vm_compute; discriminate).
  assert (H6 : (Z.to_nat (Z.log2_up (6 - 0)) + length banana + 1 < 11)%nat)
    by (vm_compute; lia).
  split; [exact H1|]. split; [exact H2|]. split; [exact H3|].
  split; [exact H4|]. split; [exact H5|]. split; [exact H6|].
  exact (search_logarithmic_depth 11 _ banana [x6e; x61; x6e] 0 6
           H1 H2 H3 H4 H5 H6).
Defined.

(** ** Properties of matchlen *)

Lemma firstn_le_lcp a c (k : nat) :
  (k <= lcp a c)%nat -> firstn k a = firstn k c.
Proof.
  intros H. replace k with (Nat.min k (lcp a c)) by lia.
  rewrite <- !firstn_firstn. now rewrite lcp_firstn.
Qed.

(** Property X4.
    Whatever the lengths of the slices, also beyond the 32-bit range,
    [matchlen] returns: it never reads out of bounds.  The result is the
    length of the longest common prefix cut at the lengths as [int32]
    sees them (at 0 when one of them is negative there), so the first [k]
    bytes of the slices are always the same.  [matchlen64] does the same
    with [int64]. *)
Theorem matchlen_any_length (fuel : nat) (a c : list byte) :
  (lcp a c < fuel)%nat ->
  let cut w := Z.max 0 (Z.min (wrap w (len a)) (wrap w (len c))) in
  exists k k',
    matchlen fuel a c = Ok k /\ matchlen64 fuel a c = Ok k' /\
    k = Z.min (Z.of_nat (lcp a c)) (cut 32) /\
    k' = Z.min (Z.of_nat (lcp a c)) (cut 64) /\
    0 <= k /\ 0 <= k' /\
    firstn (Z.to_nat k) a = firstn (Z.to_nat k) c /\
    firstn (Z.to_nat k') a = firstn (Z.to_nat k') c.
Proof.
  intros Hf cut.
  exists (Z.min (Z.of_nat (lcp a c)) (cut 32)),
         (Z.min (Z.of_nat (lcp a c)) (cut 64)).
  unfold cut.
  split; [apply matchlen_gen_any; lia|].
  split; [apply matchlen_gen_any; lia|].
  split; [reflexivity|]. split; [reflexivity|].
  split; [lia|]. split; [lia|].
  split; apply firstn_le_lcp; lia.
Qed.

Lemma matchlen_any_length_witness :
  (lcp [x61; x62; x63] [x61; x62; x64] < 4)%nat /\
  exists k k',
    matchlen 4 [x61; x62; x63] [x61; x62; x64] = Ok k /\
    matchlen64 4 [x61; x62; x63] [x61; x62; x64] = Ok k'.
Proof.
  assert (H1 : (lcp [x61; x62; x63] [x61; x62; x64] < 4)%nat)
    by (vm_compute; lia).
  split; [exact H1|].
  destruct (matchlen_any_length 4 [x61; x62; x63] [x61; x62; x64] H1)
    as (k & k' & E & E' & _).
  exists k, k'. split; [exact E|exact E'].
Defined.

(** Property X5.
    A common prefix adds its length: [matchlen (p ++ a) (p ++ c)] is
    [len p] more than [matchlen a c], and [matchlen a (a ++ c)] is
    [len a]. *)
Theorem matchlen_common_prefix_adds (fuel : nat) (p a c : list byte) :
  len (p ++ a) < 2 ^ 31 -> len (p ++ c) < 2 ^ 31 ->
  (length (p ++ a) < fuel)%nat ->
  (exists k, matchlen fuel a c = Ok k /\
             matchlen fuel (p ++ a) (p ++ c) = Ok (len p + k)) /\
  matchlen fuel p (p ++ c) = Ok (len p).
Proof.
  intros Ha Hc Hf. unfold len in *. rewrite !length_app in *.
  pose proof (lcp_le_l a c) as Hl. split.
  - exists (Z.of_nat (lcp a c)). split.
    + apply matchlen_gen_ok; unfold len; lia.
    + unfold matchlen. rewrite matchlen_gen_ok;
        unfold len; rewrite ?length_app, ?lcp_app; try lia.
      f_equal. lia.
  - unfold matchlen. rewrite matchlen_gen_ok;
      unfold len; rewrite ?length_app; try lia.
    + rewrite lcp_sym, lcp_app_self. reflexivity.
    + pose proof (lcp_le_l p (p ++ c)). lia.
Qed.

Lemma matchlen_common_prefix_adds_witness :
  len ([x61; x62] ++ [x63]) < 2 ^ 31 /\ len ([x61; x62] ++ [x64]) < 2 ^ 31 /\
  (length ([x61; x62] ++ [x63]) < 4)%nat /\
  matchlen 4 [x61; x62] ([x61; x62] ++ [x64]) = Ok (len [x61; x62]).
Proof.
  assert (H1 : len ([x61; x62] ++ [x63]) < 2 ^ 31) by reflexivity.
  assert (H2 : len ([x61; x62] ++ [x64]) < 2 ^ 31) by reflexivity.
  assert (H3 : (length ([x61; x62] ++ [x63]) < 4)%nat) by (simpl; lia).
  split; [exact H1|]. split; [exact H2|]. split; [exact H3|].
  exact (proj2 (matchlen_common_prefix_adds 4 [x61; x62] [x63] [x64]
                  H1 H2 H3)).
Defined.

(** ** Properties of qsufsort *)

(** Property X6.
    The array [qsufsort] returns depends on the buffer alone: two runs
    that return, under any schedules, concurrency settings and numbers of
    processors, in the 32-bit or the 64-bit variant, return the same
    array. *)
Theorem qsufsort_result_unique (sched sched' : Z -> Z -> list nat)
    (fuel fuel' : nat) (conc ncpu conc' ncpu' : Z) (b : list byte)
    (I I' : list Z) :
  len b + 1 < 2 ^ 31 ->
  len b + 2 < Z.of_nat fuel -> len b + 2 < Z.of_nat fuel' ->
  qsufsort sched fuel conc ncpu b = Ok I ->
  qsufsort sched' fuel' conc' ncpu' b = Ok I' \/
  qsufsort64 sched' fuel' conc' ncpu' b = Ok I' ->
  I = I'.
Proof.
  intros Hfit Hfuel Hfuel' HI HI'.
  assert (Hp : (2 : Z) ^ 31 < 2 ^ 63) by reflexivity.
  pose proof (qsufsort_gen_sound 32 ltac:(lia) b Hfit sched fuel Hfuel
                conc ncpu I HI) as Hsa.
  apply (suffix_array_unique b I I' Hsa).
  destruct HI' as [HI'|HI'].
  - exact (qsufsort_gen_sound 32 ltac:(lia) b Hfit sched' fuel' Hfuel'
             conc' ncpu' I' HI').
  - assert (Hfit' : len b + 1 < 2 ^ (64 - 1))
      by (change (2 ^ (64 - 1)) with (2 ^ 63); lia).
    exact (qsufsort_gen_sound 64 ltac:(lia) b Hfit' sched' fuel' Hfuel'
             conc' ncpu' I' HI').
Qed.

Lemma qsufsort_result_unique_witness :
  len banana + 1 < 2 ^ 31 /\ len banana + 2 < Z.of_nat 9 /\
  len banana + 2 < Z.of_nat 12 /\
  qsufsort idle 9 0 4 banana = Ok [6; 5; 3; 1; 0; 4; 2] /\
  (qsufsort (fun _ _ => [0%nat]) 12 3 8 banana = Ok [6; 5; 3; 1; 0; 4; 2] \/
   qsufsort64 (fun _ _ => [0%nat]) 12 3 8 banana = Ok [6; 5; 3; 1; 0; 4; 2]) /\
  [6; 5; 3; 1; 0; 4; 2] = [6; 5; 3; 1; 0; 4; 2].
Proof.
  assert (H1 : len banana + 1 < 2 ^ 31) by reflexivity.
  assert (H2 : len banana + 2 < Z.of_nat 9) by reflexivity.
  assert (H3 : len banana + 2 < Z.of_nat 12) by reflexivity.
  assert (H4 : qsufsort idle 9 0 4 banana = Ok [6; 5; 3; 1; 0; 4; 2])
    by (vm_compute; reflexivity).
  assert (H5 : qsufsort (fun _ _ => [0%nat]) 12 3 8 banana
               = Ok [6; 5; 3; 1; 0; 4; 2] \/
               qsufsort64 (fun _ _ => [0%nat]) 12 3 8 banana
               = Ok [6; 5; 3; 1; 0; 4; 2])
    by (right; vm_compute; reflexivity).
  split; [exact H1|]. split; [exact H2|]. split; [exact H3|].
  split; [exact H4|]. split; [exact H5|].
  exact (qsufsort_result_unique idle _ 9 12 0 4 3 8 banana _ _
           H1 H2 H3 H4 H5).
Defined.

(** Property X7.
    In the array [qsufsort] returns the order of the slots is the order
    of the suffixes: slot [i] comes before slot [j] exactly when the
    suffix at [I[i]] is strictly less than the suffix at [I[j]]. *)
Theorem qsufsort_orders_suffixes (sched : Z -> Z -> list nat) (fuel : nat)
    (conc ncpu : Z) (b : list byte) (I : list Z) :
  len b + 1 < 2 ^ 31 -> len b + 2 < Z.of_nat fuel ->
  qsufsort sched fuel conc ncpu b = Ok I ->
  forall i j, 0 <= i <= len b -> 0 <= j <= len b ->
    (i < j <-> lex_lt (suffix b I.[i]) (suffix b I.[j])).
Proof.
  intros Hfit Hfuel HI i j Hi Hj.
  pose proof (qsufsort_gen_sound 32 ltac:(lia) b Hfit sched fuel Hfuel
                conc ncpu I HI) as (_ & _ & Hlt).
  split.
  - intros Hij. apply Hlt; lia.
  - intros H. destruct (Z.lt_trichotomy i j) as [Hij|[->|Hji]]; [exact Hij| |].
    + exfalso. exact (lex_lt_irrefl _ H).
    + exfalso. specialize (Hlt j i ltac:(lia) ltac:(lia)).
      exact (slt_asym b _ _ H Hlt).
Qed.

Lemma qsufsort_orders_suffixes_witness :
  len banana + 1 < 2 ^ 31 /\ len banana + 2 < Z.of_nat 9 /\
  qsufsort idle 9 0 4 banana = Ok [6; 5; 3; 1; 0; 4; 2] /\
  (1 < 2 <-> lex_lt (suffix banana [6; 5; 3; 1; 0; 4; 2].[1])
               (suffix banana [6; 5; 3; 1; 0; 4; 2].[2])).
Proof.
  assert (H1 : len banana + 1 < 2 ^ 31) by reflexivity.
  assert (H2 : len banana + 2 < Z.of_nat 9) by reflexivity.
  assert (H3 : qsufsort idle 9 0 4 banana = Ok [6; 5; 3; 1; 0; 4; 2])
    by (vm_compute; reflexivity).
  split; [exact H1|]. split; [exact H2|]. split; [exact H3|].
  apply (qsufsort_orders_suffixes idle 9 0 4 banana _ H1 H2 H3 1 2).
  - vm_compute. split; discriminate.
  - vm_compute. split; discriminate.
Defined.

(** Property X8.
    The doubling loop runs at most [log2 n + 2] passes: with workers to
    run the tasks and enough fuel, the order it ends with is [2 ^ k] (as
    an [int32]) for a number of passes [k <= log2 n + 2]. *)
Theorem passes_logarithmic (sched : Z -> Z -> list nat) (fuel : nat)
    (conc ncpu : Z) (b : list byte) :
  len b + 1 < 2 ^ 31 -> len b + 2 < Z.of_nat fuel ->
  workers_ok conc ncpu ->
  let parallel := negb (conc =? 0) in
  let numWorkers := if conc <? 1 then wrap int_bits (conc + ncpu) else conc in
  let taskBufferSize := wrap int_bits (numWorkers * 4) in
  exists I0 V h s (k : nat),
    init 32 b = Ok (I0, V) /\
    passes 32 sched fuel parallel numWorkers taskBufferSize (len b)
      (mkStore I0 V (if parallel then V else [])) = Ok (h, s) /\
    Z.of_nat k <= Z.log2 (len b) + 2 /\ h = wrap 32 (2 ^ Z.of_nat k).
Proof.
  intros Hfit Hfuel Hw parallel numWorkers taskBufferSize.
  destruct (workers_ok_sound conc ncpu Hw) as (Hwk & Hbuf).
  cbv zeta in Hwk, Hbuf. fold numWorkers in Hwk, Hbuf.
  fold taskBufferSize in Hbuf.
  destruct (init_ok 32 ltac:(lia) b Hfit) as (I0 & V & P & Hinit & Hb).
  destruct (passes_count 32 ltac:(lia) b Hfit sched parallel numWorkers
              (fun _ => Hwk) taskBufferSize Hbuf fuel
              (mkStore I0 V (if parallel then V else [])) P Hfuel (Hb _))
    as (h & s & k & Hp & Hk & Eh).
  { intros ->. reflexivity. }
  exists I0, V, h, s, k. auto.
Qed.

Lemma passes_logarithmic_witness :
  len banana + 1 < 2 ^ 31 /\ len banana + 2 < Z.of_nat 9 /\
  workers_ok 0 4 /\
  exists I0 V h s (k : nat),
    init 32 banana = Ok (I0, V) /\
    passes 32 idle 9 (negb (0 =? 0))
      (if 0 <? 1 then wrap int_bits (0 + 4) else 0)
      (wrap int_bits ((if 0 <? 1 then wrap int_bits (0 + 4) else 0) * 4))
      (len banana) (mkStore I0 V (if negb (0 =? 0) then V else []))
    = Ok (h, s) /\
    Z.of_nat k <= Z.log2 (len banana) + 2 /\ h = wrap 32 (2 ^ Z.of_nat k).
Proof.
  assert (H1 : len banana + 1 < 2 ^ 31) by reflexivity.
  assert (H2 : len banana + 2 < Z.of_nat 9) by reflexivity.
  assert (H3 : workers_ok 0 4) by (unfold workers_ok; lia).
  split; [exact H1|]. split; [exact H2|]. split; [exact H3|].
  exact (passes_logarithmic idle 9 0 4 banana H1 H2 H3).
Defined.

(** Property X9.
    A buffer whose length plus one does not fit the index type makes the
    sort panic when it allocates its arrays: for [w]-bit indices, every
    length from [2 ^ (w-1) - 1] to [2 ^ w - 2]; for [qsufsort] these are
    the buffers of [2 ^ 31 - 1] to [2 ^ 32 - 2] bytes. *)
Theorem qsufsort_overflow_panics (w : Z) (sched : Z -> Z -> list nat)
    (fuel : nat) (conc ncpu : Z) (b : list byte) :
  0 < w -> 2 ^ (w - 1) - 1 <= len b < 2 ^ w - 1 ->
  qsufsort_gen w sched fuel conc ncpu b = Panic.
Proof.
  intros Hw Hb. now apply qsufsort_gen_overflow.
Qed.

Lemma qsufsort_overflow_panics_witness :
  0 < 3 /\ 2 ^ (3 - 1) - 1 <= len banana < 2 ^ 3 - 1 /\
  qsufsort_gen 3 idle 9 0 4 banana = Panic.
Proof.
  assert (H1 : 0 < 3) by lia.
  assert (H2 : 2 ^ (3 - 1) - 1 <= len banana < 2 ^ 3 - 1)
    by (vm_compute; split; [discriminate|reflexivity]).
  split; [exact H1|]. split; [exact H2|].
  exact (qsufsort_overflow_panics 3 idle 9 0 4 banana H1 H2).
Defined.

(** Property X10.
    With a concurrency below minus the number of processors the number
    of workers is negative, and so is the capacity asked for the task
    queue: the sort panics when the first pass makes the queue.  Only the
    empty buffer, which needs no pass, is still sorted. *)
Theorem qsufsort_negative_workers (sched : Z -> Z -> list nat) (fuel : nat)
    (conc ncpu : Z) (b : list byte) :
  len b + 1 < 2 ^ 31 -> (2 < fuel)%nat ->
  - 2 ^ 61 < conc + ncpu < 0 -> conc < 1 ->
  qsufsort sched fuel conc ncpu b = if len b =? 0 then Ok [0] else Panic.
Proof.
  intros Hfit Hfuel Hneg Hc. pose proof (len_nonneg b) as Hn.
  destruct (Z.eqb_spec (len b) 0) as [E0|N0].
  - destruct b as [|x b']; [|unfold len in E0; simpl in E0; lia].
    destruct fuel as [|[|[|fuel]]]; try lia.
    unfold qsufsort, qsufsort_gen.
    change (init 32 []) with (@Ok (list Z * list Z) ([-1], [0])).
    cbn [bind]. cbv zeta. unfold passes. cbn [while].
    change (wrap 32 (len (@nil byte))) with 0.
    unfold getI. cbn [arrI]. change (get [-1] 0) with (@Ok Z (-1)).
    cbn [bind].
    change (negb (-1 =? wneg 32 (wadd 32 0 1))) with false. cbv iota.
    cbn [bind]. reflexivity.
  - apply qsufsort_gen_no_queue; try lia.
    destruct (Z.ltb_spec conc 1); [|lia].
    assert (E : 2 ^ (64 - 1) = 4 * 2 ^ 61) by reflexivity.
    unfold int_bits. rewrite (wrap_small 64 (conc + ncpu)) by lia.
    rewrite wrap_small by lia. lia.
Qed.

Lemma qsufsort_negative_workers_witness :
  len banana + 1 < 2 ^ 31 /\ (2 < 9)%nat /\
  - 2 ^ 61 < -5 + 4 < 0 /\ -5 < 1 /\
  qsufsort idle 9 (-5) 4 banana
  = if len banana =? 0 then Ok [0] else Panic.
Proof.
  assert (H1 : len banana + 1 < 2 ^ 31) by reflexivity.
  assert (H2 : (2 < 9)%nat) by lia.
  assert (H3 : - 2 ^ 61 < -5 + 4 < 0) by lia.
  assert (H4 : -5 < 1) by lia.
  split; [exact H1|]. split; [exact H2|]. split; [exact H3|].
  split; [exact H4|].
  exact (qsufsort_negative_workers idle 9 (-5) 4 banana H1 H2 H3 H4).
Defined.

(** ** Properties of the bucket sort, of split and of a pass *)

(** Property X11.
    The bucket sort that opens the sort: [V[p]] is the number of bytes of
    the buffer not greater than the byte at [p] (the last slot of its
    bucket) and [V[n] = 0]; [I[0] = -1]; suffix [p] stands in the slot
    after the smaller bytes and the occurrences of its own byte up to
    [p], unless that byte is not 0 and occurs once, in which case the slot
    holds the mark [-1].  A byte 0 that occurs once keeps its suffix. *)
Theorem init_bucket_sort (w : Z) (b : list byte) :
  0 < w -> len b + 1 < 2 ^ (w - 1) ->
  exists I V, init w b = Ok (I, V) /\
    len I = len b + 1 /\ len V = len b + 1 /\
    I.[0] = -1 /\ V.[len b] = 0 /\
    (forall p, 0 <= p < len b -> V.[p] = nlt b (byte_at b p + 1)) /\
    (forall p, 0 <= p < len b ->
       I.[rank b p] = if (1 <=? byte_at b p) && (neq b (byte_at b p) =? 1)
                      then -1 else p).
Proof.
  intros Hw Hfit. exact (init_arrays w Hw b Hfit).
Qed.

Lemma init_bucket_sort_witness :
  0 < 32 /\ len banana + 1 < 2 ^ (32 - 1) /\
  exists I V, init 32 banana = Ok (I, V) /\
    len I = len banana + 1 /\ len V = len banana + 1 /\
    I.[0] = -1 /\ V.[len banana] = 0.
Proof.
  assert (H1 : 0 < 32) by lia.
  assert (H2 : len banana + 1 < 2 ^ (32 - 1)) by reflexivity.
  split; [exact H1|]. split; [exact H2|].
  destruct (init_bucket_sort 32 banana H1 H2)
    as (I & V & E & HI & HV & HI0 & HVn & _).
  exists I, V. auto.
Defined.

(** Property X12.
    [split] writes group numbers to [V2] alone: whatever the arguments,
    when it returns the other array is as it was (with [V] and [V2] two
    arrays, [V] is read-only), and no array has changed its length. *)
Theorem split_leaves_other_array (w : Z) (fuel : nat) (v v2 : vref)
    (start length h : Z) (s s' : store) :
  split w fuel v v2 start length h s = Ok s' ->
  len (arrI s') = len (arrI s) /\ len (rd v2 s') = len (rd v2 s) /\
  forall r, r <> v2 -> rd r s' = rd r s.
Proof.
  intros H.
  apply (kept_split w v2 s fuel v start length h s s'); [|exact H].
  split; [reflexivity|]. split; [reflexivity|]. intros r _. reflexivity.
Qed.

Lemma split_leaves_other_array_witness :
  split 32 10 RefV RefV2 1 3 1
    (mkStore [-1; 1; 3; 5; -1; 2; 4] [4; 3; 6; 3; 6; 3; 0]
       [4; 3; 6; 3; 6; 3; 0])
  = Ok (mkStore [-1; -1; 3; 1; -1; 2; 4] [4; 3; 6; 3; 6; 3; 0]
          [4; 3; 6; 3; 6; 1; 0]) /\
  forall r, r <> RefV2 ->
    rd r (mkStore [-1; -1; 3; 1; -1; 2; 4] [4; 3; 6; 3; 6; 3; 0]
            [4; 3; 6; 3; 6; 1; 0])
    = rd r (mkStore [-1; 1; 3; 5; -1; 2; 4] [4; 3; 6; 3; 6; 3; 0]
              [4; 3; 6; 3; 6; 3; 0]).
Proof.
  assert (H1 : split 32 10 RefV RefV2 1 3 1
                 (mkStore [-1; 1; 3; 5; -1; 2; 4] [4; 3; 6; 3; 6; 3; 0]
                    [4; 3; 6; 3; 6; 3; 0])
               = Ok (mkStore [-1; -1; 3; 1; -1; 2; 4] [4; 3; 6; 3; 6; 3; 0]
                       [4; 3; 6; 3; 6; 1; 0])) by (vm_compute; reflexivity).
  split; [exact H1|].
  exact (proj2 (proj2 (split_leaves_other_array 32 10 RefV RefV2 1 3 1 _ _ H1))).
Defined.

(** Property X14.
    One pass, sequential or parallel and under any schedule, takes arrays
    that satisfy the invariant at order [h] (groups of suffixes equal on
    [h] symbols, in order, each numbered by its last slot) to arrays that
    satisfy it at order [2h]; in parallel mode [V2] is again a copy of
    [V]; and once the order exceeds the length, [I[0] = -(n+1)]. *)
Theorem pass_doubles_order (w : Z) (sched : Z -> Z -> list nat)
    (fuel : nat) (parallel : bool) (numWorkers taskBufferSize : Z)
    (b : list byte) (h : Z) (s : store) (P : Z -> Z) :
  0 < w -> len b + 1 < 2 ^ (w - 1) -> len b + 2 < Z.of_nat fuel ->
  (parallel = true -> 1 <= numWorkers) -> 0 <= taskBufferSize ->
  between b h s P -> (parallel = true -> arrV2 s = arrV s) ->
  exists s' P',
    pass w sched fuel parallel numWorkers taskBufferSize (len b) h s = Ok s' /\
    between b (h + h) s' P' /\
    (parallel = true -> arrV2 s' = arrV s') /\
    (len b < h -> (arrI s').[0] = - (len b + 1)).
Proof.
  intros Hw Hfit Hfuel Hwk Hbuf Hb HV.
  pose proof Hb as (Hpos & _).
  exact (pass_ok w Hw b Hfit sched parallel numWorkers Hwk _
           (v2_ok parallel numWorkers Hwk) h h Hpos (or_introl eq_refl)
           fuel s P taskBufferSize Hfuel Hbuf Hb HV).
Qed.

Lemma pass_doubles_order_witness :
  0 < 32 /\ len banana + 1 < 2 ^ (32 - 1) /\ len banana + 2 < Z.of_nat 9 /\
  0 <= 16 /\
  exists P,
    between banana 1
      (mkStore [-1; 1; 3; 5; -1; 2; 4] [4; 3; 6; 3; 6; 3; 0] []) P /\
    exists s' P',
      pass 32 idle 9 false 4 16 (len banana) 1
        (mkStore [-1; 1; 3; 5; -1; 2; 4] [4; 3; 6; 3; 6; 3; 0] []) = Ok s' /\
      between banana (1 + 1) s' P'.
Proof.
  assert (H1 : 0 < 32) by lia.
  assert (H2 : len banana + 1 < 2 ^ (32 - 1)) by reflexivity.
  assert (H3 : len banana + 2 < Z.of_nat 9) by reflexivity.
  assert (H4 : 0 <= 16) by lia.
  split; [exact H1|]. split; [exact H2|]. split; [exact H3|].
  split; [exact H4|].
  destruct (init_ok 32 H1 banana H2) as (I & V & P & E & Hb).
  assert (E0 : init 32 banana
               = Ok ([-1; 1; 3; 5; -1; 2; 4], [4; 3; 6; 3; 6; 3; 0]))
    by (vm_compute; reflexivity).
  rewrite E0 in E. injection E as E1 E2. subst I V.
  exists P. split; [exact (Hb [])|].
  destruct (pass_doubles_order 32 idle 9 false 4 16 banana 1 _ P H1 H2 H3
              (fun H => False_ind _ (Bool.diff_false_true H)) H4 (Hb [])
              (fun H => False_ind _ (Bool.diff_false_true H)))
    as (s' & P' & Hp & Hb' & _).
  exists s', P'. split; [exact Hp|exact Hb'].
Defined.

(** Property X13.
    [split] on a group not yet split in this pass: in arrays that satisfy
    the invariant at order [h], for the slots [[a, a + ln)] of a group
    whose earlier slots are done with, [split] returns; it tiles these
    slots with groups at order [2h] and marked sorted suffixes, numbers
    them within [[a, a + ln)], changes nothing of the other slots, keeps
    the invariant, and leaves [V] alone when [V2] is another array. *)
Theorem split_refines_group (w : Z) (b : list byte) (h : Z) (v v2 : vref)
    (fuel : nat) (s : store) (P : Z -> Z) (a ln e : Z) :
  0 < w -> len b + 1 < 2 ^ (w - 1) -> 0 < h -> 1 <= ln ->
  ginv b h (arrI s) (rd v s) (rd v2 s) P ->
  active b h (arrI s) (rd v2 s) P a (a + ln) e ->
  ln + 1 < Z.of_nat fuel ->
  exists s' P',
    split w fuel v v2 a ln h s = Ok s' /\
    ginv b h (arrI s') (rd v s') (rd v2 s') P' /\
    same_outside b a (a + ln) (arrI s) (rd v2 s) P (arrI s') (rd v2 s') P' /\
    parse b (h + h) (arrI s') (rd v2 s') P' a (a + ln) /\
    confined (rd v2 s') P' a (a + ln) /\
    (v <> v2 -> rd v s' = rd v s).
Proof.
  intros Hw Hfit Hh Hln Hg Ha Hf.
  exact (split_ok w Hw b Hfit h Hh v v2 fuel s P a ln (a + ln) e Hln eq_refl
           Hg Ha Hf).
Qed.

Lemma split_refines_group_witness :
  0 < 32 /\ len [x00] + 1 < 2 ^ (32 - 1) /\ 0 < 1 /\ 1 <= 1 /\
  1 + 1 < Z.of_nat 3 /\
  exists P,
    ginv [x00] 1 [-1; 0] [1; 0] [1; 0] P /\
    active [x00] 1 [-1; 0] [1; 0] P 1 (1 + 1) 1 /\
    exists s' P',
      split 32 3 RefV RefV 1 1 1 (mkStore [-1; 0] [1; 0] []) = Ok s' /\
      parse [x00] (1 + 1) (arrI s') (arrV s') P' 1 (1 + 1).
Proof.
  assert (H1 : 0 < 32) by lia.
  assert (H2 : len [x00] + 1 < 2 ^ (32 - 1)) by reflexivity.
  assert (H3 : 0 < 1) by lia.
  assert (H4 : 1 <= 1) by lia.
  assert (H5 : 1 + 1 < Z.of_nat 3) by reflexivity.
  split; [exact H1|]. split; [exact H2|]. split; [exact H3|].
  split; [exact H4|]. split; [exact H5|].
  destruct (init_ok 32 H1 [x00] H2) as (I & V & P & E & Hb).
  assert (E0 : init 32 [x00] = Ok ([-1; 0], [1; 0]))
    by (vm_compute; reflexivity).
  rewrite E0 in E. injection E as E1 E2. subst I V.
  destruct (Hb []) as (_ & Hg & Hp). cbn [arrI arrV] in Hg, Hp.
  change (len [x00] + 1) with 2 in Hp.
  destruct (parse_inv_neg [x00] 1 _ _ _ 0 2 Hp ltac:(lia) ltac:(vm_compute; reflexivity))
    as (k & Hk & Ek & Hs & Hp1).
  change ([-1; 0].[0]) with (-1) in Ek.
  assert (k = 1) by lia. subst k. change (0 + 1) with 1 in Hs, Hp1.
  destruct (parse_inv_pos [x00] 1 _ _ _ 1 2 Hp1 ltac:(lia)
              ltac:(vm_compute; discriminate))
    as (e & He & Hgr & _ & Hp2).
  pose proof (parse_le [x00] 1 _ _ _ _ _ Hp2) as Hle.
  assert (e = 1) by lia. subst e. change (1 + 1) with 2 in Hgr.
  assert (Hact : active [x00] 1 [-1; 0] [1; 0] P 1 2 (2 - 1)).
  { apply (active_of_group [x00] 1 [-1; 0] [1; 0] [1; 0] P 1 2 Hg Hgr).
    - lia.
    - change (len [x00] + 1) with 2. lia.
    - intros j Hj. rewrite (Hs j) by lia. lia. }
  exists P. split; [exact Hg|]. split; [exact Hact|].
  destruct (split_refines_group 32 [x00] 1 RefV RefV 3
              (mkStore [-1; 0] [1; 0] []) P 1 1 1 H1 H2 H3 H4 Hg Hact H5)
    as (s' & P' & Hsp & _ & _ & Hpar & _).
  exists s', P'. split; [exact Hsp|exact Hpar].
Defined.

(** ** The final inversion *)

Lemma range_elem (n j : Z) :
  In j (map Z.of_nat (seq 0 (Z.to_nat (n + 1)))) <-> 0 <= j <= n.
Proof.
  rewrite in_map_iff. split.
  - intros (k & <- & Hk). apply in_seq in Hk. lia.
  - intros H. exists (Z.to_nat j). split; [lia|]. apply in_seq. lia.
Qed.

(** An array that holds each of [0, ..., n] at most once holds each of
    them. *)
Lemma injective_onto (n : Z) (V : list Z) :
  0 <= n ->
  (forall p, 0 <= p <= n -> 0 <= V.[p] <= n) ->
  (forall p q, 0 <= p <= n -> 0 <= q <= n -> V.[p] = V.[q] -> p = q) ->
  forall j, 0 <= j <= n -> exists p, 0 <= p <= n /\ V.[p] = j.
Proof.
  intros Hn Hr Hi j Hj.
  set (dom := map Z.of_nat (seq 0 (Z.to_nat (n + 1)))).
  assert (Hd : NoDup dom) by (apply NoDup_map_of_nat, seq_NoDup).
  assert (Himg : NoDup (map (fun p => V.[p]) dom)).
  { assert (G : forall l, NoDup l -> (forall x, In x l -> 0 <= x <= n) ->
              NoDup (map (fun p => V.[p]) l)).
    { induction 1 as [|x l Hx Hl IH]; intros Hin; simpl; constructor.
      - rewrite in_map_iff. intros (y & E & Hy). apply Hx.
        assert (y = x); [|now subst].
        apply Hi; auto using in_eq, in_cons.
      - apply IH. intros y Hy. apply Hin. now right. }
    apply G; [exact Hd|]. intros x Hx. now apply range_elem. }
  assert (Hincl : incl dom (map (fun p => V.[p]) dom)).
  { apply NoDup_length_incl; [exact Himg|now rewrite length_map|].
    intros y Hy. apply in_map_iff in Hy. destruct Hy as (p & <- & Hp).
    apply range_elem. apply Hr. now apply range_elem. }
  specialize (Hincl j (proj2 (range_elem n j) Hj)).
  apply in_map_iff in Hincl. destruct Hincl as (p & E & Hp).
  exists p. split; [now apply range_elem|exact E].
Qed.

Lemma invert_gen w (fuel : nat) (n : Z) (s : store) :
  0 < w -> 0 <= n -> n + 1 < 2 ^ (w - 1) ->
  len (arrI s) = n + 1 -> len (arrV s) = n + 1 ->
  (forall p, 0 <= p <= n -> 0 <= (arrV s).[p] <= n) ->
  (forall p q, 0 <= p <= n -> 0 <= q <= n ->
     (arrV s).[p] = (arrV s).[q] -> p = q) ->
  n + 1 < Z.of_nat fuel ->
  exists I',
    invert w fuel n s = Ok (withI s I') /\ len I' = n + 1 /\
    forall p, 0 <= p <= n -> I'.[(arrV s).[p]] = p.
Proof.
  intros Hw Hn Hfit HlI HlV HVr Hinj Hf.
  assert (wsn : forall z, - (n + 1) <= z <= n + 1 -> wrap w z = z).
  { intros z Hz. apply wrap_small; [exact Hw|lia]. }
  pose (Inv := fun st : Z * store =>
    let '(i, s') := st in
    exists I', s' = withI s I' /\ 0 <= i <= n + 1 /\ len I' = n + 1 /\
      forall p, 0 <= p < i -> I'.[(arrV s).[p]] = p).
  unfold invert.
  match goal with |- context [while fuel ?cd ?bd _] =>
    destruct (while_rule Inv (fun st => let '(i, _) := st in n + 1 - i) cd bd)
      with (fuel := fuel) (s := (0, s))
      as ([i s'] & Hwl & (I' & -> & Hi' & Hl' & HI') & Hcond)
  end.
  - intros [i s'] (I' & _ & Hi' & _). lia.
  - intros [i s'] (I' & -> & Hi' & Hl' & HI').
    unfold wadd. rewrite !wsn by lia.
    eexists; split; [reflexivity|]. intros Hlt. apply Z.ltb_lt in Hlt.
    unfold getV. simpl rd. rewrite get_ok by lia. cbn [bind].
    pose proof (HVr i ltac:(lia)) as Hv.
    rewrite setI_ok by (simpl; lia). cbn [bind]. simpl arrI.
    rewrite (wsn (i + 1)) by lia.
    eexists; split; [reflexivity|]. split; [|lia].
    exists (updZ I' (arrV s).[i] i). split; [reflexivity|].
    split; [lia|]. split; [now rewrite len_updZ|].
    intros p Hp'. pose proof (HVr p ltac:(lia)) as Hvp.
    rewrite idx_updZ by lia.
    destruct (Z.eqb_spec (arrV s).[p] (arrV s).[i]) as [E|E].
    + apply Hinj in E; lia.
    + apply HI'. destruct (Z.eq_dec p i); [subst; congruence|lia].
  - exists (arrI s). split; [now rewrite withI_arrI|]. split; [lia|].
    split; [auto|]. intros p Hp'. lia.
  - simpl. lia.
  - unfold wadd in Hcond. rewrite !wsn in Hcond by lia.
    injection Hcond as Hcond. apply Z.ltb_ge in Hcond.
    rewrite Hwl. cbn [bind]. exists I'. split; [reflexivity|].
    split; [auto|]. intros p Hp. apply HI'. lia.
Qed.

(** Property X15.
    The loop that ends the sort, [I[V[i]] = i] for [i] from 0 to [n]:
    when [V] holds each of [0, ..., n] once, the loop returns with [I] the
    inverse of [V], [I[V[p]] = p] and [V[I[j]] = j], and with [V] and [V2]
    as they were. *)
Theorem invert_is_inverse (w : Z) (fuel : nat) (n : Z) (s : store) :
  0 < w -> 0 <= n -> n + 1 < 2 ^ (w - 1) ->
  len (arrI s) = n + 1 -> len (arrV s) = n + 1 ->
  (forall p, 0 <= p <= n -> 0 <= (arrV s).[p] <= n) ->
  (forall p q, 0 <= p <= n -> 0 <= q <= n ->
     (arrV s).[p] = (arrV s).[q] -> p = q) ->
  n + 1 < Z.of_nat fuel ->
  exists s',
    invert w fuel n s = Ok s' /\
    arrV s' = arrV s /\ arrV2 s' = arrV2 s /\ len (arrI s') = n + 1 /\
    (forall p, 0 <= p <= n -> (arrI s').[(arrV s).[p]] = p) /\
    (forall j, 0 <= j <= n ->
       0 <= (arrI s').[j] <= n /\ (arrV s).[(arrI s').[j]] = j).
Proof.
  intros Hw Hn Hfit HlI HlV HVr Hinj Hf.
  destruct (invert_gen w fuel n s Hw Hn Hfit HlI HlV HVr Hinj Hf)
    as (I' & E & Hl & HI).
  exists (withI s I'). split; [exact E|]. split; [reflexivity|].
  split; [reflexivity|]. rewrite arrI_withI. split; [exact Hl|].
  split; [exact HI|]. intros j Hj.
  destruct (injective_onto n (arrV s) Hn HVr Hinj j Hj) as (p & Hp & <-).
  rewrite HI by exact Hp. split; [exact Hp|reflexivity].
Qed.

Lemma invert_is_inverse_witness :
  0 < 32 /\ 0 <= 2 /\ 2 + 1 < 2 ^ (32 - 1) /\ 2 + 1 < Z.of_nat 4 /\
  exists s',
    invert 32 4 2 (mkStore [-3; 0; 0] [2; 0; 1] []) = Ok s' /\
    arrV s' = [2; 0; 1].
Proof.
  assert (H1 : 0 < 32) by lia.
  assert (H2 : 0 <= 2) by lia.
  assert (H3 : 2 + 1 < 2 ^ (32 - 1)) by reflexivity.
  assert (H4 : 2 + 1 < Z.of_nat 4) by reflexivity.
  assert (Hc : forall p, 0 <= p <= 2 -> p = 0 \/ p = 1 \/ p = 2)
    by (intros; lia).
  split; [exact H1|]. split; [exact H2|]. split; [exact H3|].
  split; [exact H4|].
  destruct (invert_is_inverse 32 4 2 (mkStore [-3; 0; 0] [2; 0; 1] [])
              H1 H2 H3 eq_refl eq_refl) as (s' & E & EV & _).
  - intros p Hp. destruct (Hc p Hp) as [->|[->| ->]];
      vm_compute; split; discriminate.
  - intros p q Hp Hq.
    destruct (Hc p Hp) as [->|[->| ->]], (Hc q Hq) as [->|[->| ->]];
      vm_compute; intros E; try reflexivity; discriminate E.
  - exact H4.
  - exists s'. split; [exact E|exact EV].
Defined.

(** ** The 64-bit variant on its own domain *)

(** Property X16.
    [qsufsort64] sorts every buffer whose length plus one fits [int64],
    also those too long for [qsufsort]: with workers to run the tasks and
    enough fuel it returns, and an array it returns under any setting has
    [n + 1] entries, is a permutation of [0, ..., n], has its suffixes in
    lexicographic order and the empty suffix first. *)
Theorem qsufsort64_sorts (sched : Z -> Z -> list nat) (fuel : nat)
    (conc ncpu : Z) (b : list byte) :
  len b + 1 < 2 ^ 63 -> len b + 2 < Z.of_nat fuel ->
  (workers_ok conc ncpu ->
   exists I, qsufsort64 sched fuel conc ncpu b = Ok I) /\
  (forall I, qsufsort64 sched fuel conc ncpu b = Ok I ->
     len I = len b + 1 /\ is_perm (len b) I /\
     suffix_sorted b I /\ I.[0] = len b).
Proof.
  intros Hfit Hfuel. split.
  - intros Hw.
    destruct (qsufsort_gen_ok 64 ltac:(lia) b Hfit sched fuel Hfuel conc ncpu Hw)
      as (I & HI & _).
    exists I. exact HI.
  - intros I HI.
    pose proof (qsufsort_gen_sound 64 ltac:(lia) b Hfit sched fuel Hfuel
                  conc ncpu I HI) as Hsa.
    split; [exact (proj1 Hsa)|]. split; [now apply suffix_array_perm|].
    split; [now apply suffix_array_sorted|now apply suffix_array_first].
Qed.

Lemma qsufsort64_sorts_witness :
  len banana + 1 < 2 ^ 63 /\ len banana + 2 < Z.of_nat 9 /\
  workers_ok 2 4 /\
  exists I, qsufsort64 idle 9 2 4 banana = Ok I.
Proof.
  assert (H1 : len banana + 1 < 2 ^ 63) by reflexivity.
  assert (H2 : len banana + 2 < Z.of_nat 9) by reflexivity.
  assert (H3 : workers_ok 2 4) by (unfold workers_ok; lia).
  split; [exact H1|]. split; [exact H2|]. split; [exact H3|].
  exact (proj1 (qsufsort64_sorts idle 9 2 4 banana H1 H2) H3).
Defined.

(** Property X17.
    On the array [qsufsort64] returns, [search64] over the whole window
    returns a position [p] and the length [k] that [matchlen64] finds
    there, and this is a longest match: no position of [obuf] shares a
    longer prefix with the query. *)
Theorem search64_longest_match (sched : Z -> Z -> list nat)
    (fuel fuel' : nat) (conc ncpu : Z) (obuf nbuf : list byte) (I : list Z) :
  len obuf + 1 < 2 ^ 63 -> len nbuf < 2 ^ 63 ->
  len obuf + 2 < Z.of_nat fuel ->
  qsufsort64 sched fuel conc ncpu obuf = Ok I ->
  (2 * length obuf + 1 < fuel')%nat ->
  exists p k,
    search64 fuel' I obuf nbuf 0 (len obuf) = Ok (p, k) /\
    0 <= p <= len obuf /\
    (sl <- slice_from obuf p ;; matchlen64 fuel' sl nbuf) = Ok k /\
    firstn (Z.to_nat k) (suffix obuf p) = firstn (Z.to_nat k) nbuf /\
    forall q, 0 <= q <= len obuf ->
      Z.of_nat (lcp (suffix obuf q) nbuf) <= k.
Proof.
  intros Hfit Hnb Hfuel HI Hf.
  pose proof (qsufsort_gen_sound 64 ltac:(lia) obuf Hfit sched fuel Hfuel
                conc ncpu I HI) as Hsa.
  destruct (search_gen_longest 64 ltac:(lia) obuf nbuf I Hfit Hnb Hsa fuel' Hf)
    as (p & Hp & E & Hbest).
  exists p, (Z.of_nat (lcp (suffix obuf p) nbuf)).
  split; [exact E|]. split; [exact Hp|]. split.
  { rewrite slice_from_ok by lia. cbn [bind].
    apply (search_matchlen 64 ltac:(lia) obuf nbuf Hfit Hnb); lia. }
  rewrite Nat2Z.id. split; [apply lcp_firstn|].
  intros q Hq. specialize (Hbest q Hq). lia.
Qed.

Lemma search64_longest_match_witness :
  len banana + 1 < 2 ^ 63 /\ len [x6e; x61; x6e] < 2 ^ 63 /\
  len banana + 2 < Z.of_nat 9 /\
  qsufsort64 idle 9 0 4 banana = Ok [6; 5; 3; 1; 0; 4; 2] /\
  (2 * length banana + 1 < 14)%nat /\
  exists p k,
    search64 14 [6; 5; 3; 1; 0; 4; 2] banana [x6e; x61; x6e] 0 (len banana)
    = Ok (p, k) /\ 0 <= p <= len banana.
Proof.
  assert (H1 : len banana + 1 < 2 ^ 63) by reflexivity.
  assert (H2 : len [x6e; x61; x6e] < 2 ^ 63) by reflexivity.
  assert (H3 : len banana + 2 < Z.of_nat 9) by reflexivity.
  assert (H4 : qsufsort64 idle 9 0 4 banana = Ok [6; 5; 3; 1; 0; 4; 2])
    by (vm_compute; reflexivity).
  assert (H5 : (2 * length banana + 1 < 14)%nat) by (simpl; lia).
  split; [exact H1|]. split; [exact H2|]. split; [exact H3|].
  split; [exact H4|]. split; [exact H5|].
  destruct (search64_longest_match idle 9 14 0 4 banana [x6e; x61; x6e] _
              H1 H2 H3 H4 H5) as (p & k & E & Hp & _).
  exists p, k. split; [exact E|exact Hp].
Defined.
